(** * pyRiemann: channel selection and clustering

    A shallow embedding of [pyriemann/channelselection.py] and
    [pyriemann/clustering.py], and the properties of their fit procedures.

    Conventions of the embedding.
    - Python exceptions are values of [exn]; a computation that may raise
      returns [res A].
    - Finite floating-point scalars are idealised as exact rationals [Q].
      Where the source can produce non-finite values (the z-score of the
      Potato) the scalar type is [fval], which adds the two infinities and
      NaN with the IEEE rules numpy applies to arrays. The exit test of
      the clustering loop compares a fraction with [1 - tol]: there the
      rounding to binary64 is modelled ([Binary64.round]).
    - The Metric Provider ([distance], [mean_covariance]) and the Centroid
      Classifier ([MDM]) live outside the two files; they enter as Section
      variables.
    - The source is Python 2: [range] returns a list and [zip] a list of
      tuples. *)

From Stdlib Require Import String.
From Stdlib Require Import ZArith QArith Qabs Qround Qpower List Sorted Lia Lqa Bool.
Import ListNotations.
Open Scope string_scope.
Open Scope list_scope.
Open Scope nat_scope.

Set Implicit Arguments.

(* ================================================================== *)
(** * Python prelude *)

Module Py.

Inductive exn : Type :=
| UnboundLocalError (name : string)
| ValueError (msg : string)
| IndexError (msg : string)
| AttributeError (name : string)
| Raised (origin : string).

Inductive res (A : Type) : Type :=
| Ok (a : A)
| Err (e : exn).

Arguments Ok {A} a.
Arguments Err {A} e.

Definition bind {A B} (m : res A) (f : A -> res B) : res B :=
  match m with
  | Ok a => f a
  | Err e => Err e
  end.

Definition is_ok {A} (m : res A) : bool :=
  match m with Ok _ => true | Err _ => false end.

(** [l.pop(i)] for an index inside the list: the list without position [i].
    Every call site draws [i] from [range(len(l))] or from an argmax over an
    array of [len(l)] entries, so the IndexError of an index outside the
    list is not reachable and is not modelled. *)
Definition pop {A} (i : nat) (l : list A) : list A :=
  firstn i l ++ skipn (S i) l.

(** [range(0, n, 1)] *)
Definition range (n : nat) : list nat := seq 0 n.

(** Scan used by [numpy.argmax] and [ndarray.max]: the running best index and
    value; a later entry replaces the best only when strictly larger, so
    the first maximal entry wins. *)
Fixpoint argmax_scan (l : list Q) (i bi : nat) (bv : Q) : nat * Q :=
  match l with
  | [] => (bi, bv)
  | x :: l' =>
      if Qle_bool x bv then argmax_scan l' (S i) bi bv
      else argmax_scan l' (S i) i x
  end.

Definition argmax (l : list Q) : res nat :=
  match l with
  | [] => Err (ValueError "attempt to get argmax of an empty sequence")
  | x :: l' => Ok (fst (argmax_scan l' 1 0 x))
  end.

Definition amax (l : list Q) : res Q :=
  match l with
  | [] => Err (ValueError "zero-size array to reduction operation maximum")
  | x :: l' => Ok (snd (argmax_scan l' 1 0 x))
  end.

(** Same scan for [numpy.argmin]: first minimal entry. *)
Fixpoint argmin_scan (l : list Q) (i bi : nat) (bv : Q) : nat * Q :=
  match l with
  | [] => (bi, bv)
  | x :: l' =>
      if Qle_bool bv x then argmin_scan l' (S i) bi bv
      else argmin_scan l' (S i) i x
  end.

Definition argmin (l : list Q) : res nat :=
  match l with
  | [] => Err (ValueError "attempt to get argmin of an empty sequence")
  | x :: l' => Ok (fst (argmin_scan l' 1 0 x))
  end.

(** [a[mask]] for a boolean mask of the same length *)
Fixpoint mask_select {A} (l : list A) (mask : list bool) : list A :=
  match l, mask with
  | x :: l', b :: m' => if b then x :: mask_select l' m' else mask_select l' m'
  | _, _ => []
  end.

Definition count_true (mask : list bool) : nat :=
  length (filter (fun b => b) mask).

(** [numpy.unique]: the distinct labels in ascending order *)
Fixpoint insert_sorted (z : Z) (l : list Z) : list Z :=
  match l with
  | [] => [z]
  | x :: l' =>
      if (z <? x)%Z then z :: l
      else if (z =? x)%Z then l
      else x :: insert_sorted z l'
  end.

Definition unique (l : list Z) : list Z := fold_right insert_sorted [] l.

(** [numpy.arange(n)] *)
Definition arange (n : Z) : list Z := map Z.of_nat (seq 0 (Z.to_nat n)).

(** ** Facts about the prelude *)

Lemma pop_length {A} (i : nat) (l : list A) :
  i < length l -> length (pop i l) = length l - 1.
Proof.
  intros Hi. unfold pop.
  rewrite length_app, length_firstn, length_skipn. lia.
Qed.

Lemma pop_incl {A} (i : nat) (l : list A) (x : A) :
  In x (pop i l) -> In x l.
Proof.
  revert i. induction l as [ | a l IH ]; intros [ | i ]; cbn; auto.
  intros [H | H]; [ left; exact H | right; exact (IH i H) ].
Qed.

Lemma pop_NoDup {A} (i : nat) (l : list A) :
  NoDup l -> NoDup (pop i l).
Proof.
  revert i. induction l as [ | a l IH ]; intros [ | i ] H; cbn; auto.
  - inversion H; assumption.
  - inversion H as [ | ? ? Hnotin Hnd ]; subst.
    constructor.
    + intros Hin. apply Hnotin. eapply pop_incl. exact Hin.
    + apply IH. exact Hnd.
Qed.

Lemma nth_map_seq {A} (f : nat -> A) (n k : nat) (d : A) :
  k < n -> nth k (map f (seq 0 n)) d = f k.
Proof.
  intros Hk.
  rewrite (nth_indep _ d (f 0)) by (rewrite length_map, length_seq; exact Hk).
  rewrite (map_nth f (seq 0 n) 0 k), seq_nth by exact Hk. reflexivity.
Qed.

Lemma nth_map_of_nth_error {A B} (f : A -> B) (l : list A) (i : nat) (x : A)
      (d : B) :
  nth_error l i = Some x -> nth i (map f l) d = f x.
Proof.
  intros H. apply nth_error_nth. rewrite nth_error_map, H. reflexivity.
Qed.

(** The scan keeps the first entry that no other entry exceeds. [pre] is the
    part of the array already visited. *)
Lemma argmax_scan_spec (l pre : list Q) (bi : nat) (bv : Q) :
  bi < length pre ->
  nth bi pre 0%Q = bv ->
  (forall k, k < length pre -> (nth k pre 0 <= bv)%Q) ->
  (forall k, k < bi -> (nth k pre 0 < bv)%Q) ->
  let r := argmax_scan l (length pre) bi bv in
  fst r < length (pre ++ l) /\
  nth (fst r) (pre ++ l) 0%Q = snd r /\
  (forall k, k < length (pre ++ l) -> (nth k (pre ++ l) 0 <= snd r)%Q) /\
  (forall k, k < fst r -> (nth k (pre ++ l) 0 < snd r)%Q).
Proof.
  revert pre bi bv.
  induction l as [ | x l IH ]; intros pre bi bv Hbi Hnth Hle Hlt; cbn.
  - rewrite app_nil_r. auto.
  - assert (Hlen : length (pre ++ [x]) = S (length pre))
      by (rewrite length_app; cbn; lia).
    assert (Hx : nth (length pre) (pre ++ [x]) 0%Q = x)
      by (rewrite app_nth2, Nat.sub_diag by lia; reflexivity).
    replace (pre ++ x :: l) with ((pre ++ [x]) ++ l)
      by (rewrite <- app_assoc; reflexivity).
    rewrite <- Hlen.
    destruct (Qle_bool x bv) eqn:Hc.
    + apply Qle_bool_iff in Hc.
      apply IH.
      * lia.
      * rewrite app_nth1 by lia. exact Hnth.
      * intros k Hk. rewrite Hlen in Hk.
        destruct (Nat.eq_dec k (length pre)) as [-> | Hne].
        -- rewrite Hx. exact Hc.
        -- rewrite app_nth1 by lia. apply Hle. lia.
      * intros k Hk. rewrite app_nth1 by lia. apply Hlt. exact Hk.
    + assert (Hgt : (bv < x)%Q).
      { apply Qnot_le_lt. intros Hn. apply Qle_bool_iff in Hn. congruence. }
      apply (IH (pre ++ [x]) (length pre) x).
      * lia.
      * exact Hx.
      * intros k Hk. rewrite Hlen in Hk.
        destruct (Nat.eq_dec k (length pre)) as [-> | Hne].
        -- rewrite Hx. apply Qle_refl.
        -- rewrite app_nth1 by lia. apply Qlt_le_weak.
           eapply Qle_lt_trans; [ apply Hle; lia | exact Hgt ].
      * intros k Hk. rewrite app_nth1 by lia.
        eapply Qle_lt_trans; [ apply Hle; lia | exact Hgt ].
Qed.

Lemma argmax_first_max (x : Q) (l : list Q) :
  exists t,
    argmax (x :: l) = Ok t /\ amax (x :: l) = Ok (nth t (x :: l) 0%Q) /\
    t < length (x :: l) /\
    (forall k, k < length (x :: l) -> (nth k (x :: l) 0 <= nth t (x :: l) 0)%Q) /\
    (forall k, k < t -> (nth k (x :: l) 0 < nth t (x :: l) 0)%Q).
Proof.
  destruct (@argmax_scan_spec l [x] 0 x) as (H1 & H2 & H3 & H4).
  - cbn. lia.
  - reflexivity.
  - intros k Hk. cbn in Hk. replace k with 0 by lia. cbn. apply Qle_refl.
  - intros k Hk. lia.
  - cbn [length] in *. cbn [app] in *.
    exists (fst (argmax_scan l 1 0 x)). unfold argmax, amax.
    rewrite H2. repeat split; auto.
Qed.

Lemma argmin_scan_spec (l pre : list Q) (bi : nat) (bv : Q) :
  bi < length pre ->
  nth bi pre 0%Q = bv ->
  (forall k, k < length pre -> (bv <= nth k pre 0)%Q) ->
  let r := argmin_scan l (length pre) bi bv in
  fst r < length (pre ++ l) /\
  nth (fst r) (pre ++ l) 0%Q = snd r /\
  (forall k, k < length (pre ++ l) -> (snd r <= nth k (pre ++ l) 0)%Q).
Proof.
  revert pre bi bv.
  induction l as [ | x l IH ]; intros pre bi bv Hbi Hnth Hle; cbn.
  - rewrite app_nil_r. auto.
  - assert (Hlen : length (pre ++ [x]) = S (length pre))
      by (rewrite length_app; cbn; lia).
    assert (Hx : nth (length pre) (pre ++ [x]) 0%Q = x)
      by (rewrite app_nth2, Nat.sub_diag by lia; reflexivity).
    replace (pre ++ x :: l) with ((pre ++ [x]) ++ l)
      by (rewrite <- app_assoc; reflexivity).
    rewrite <- Hlen.
    destruct (Qle_bool bv x) eqn:Hc.
    + apply Qle_bool_iff in Hc.
      apply IH.
      * lia.
      * rewrite app_nth1 by lia. exact Hnth.
      * intros k Hk. rewrite Hlen in Hk.
        destruct (Nat.eq_dec k (length pre)) as [-> | Hne].
        -- rewrite Hx. exact Hc.
        -- rewrite app_nth1 by lia. apply Hle. lia.
    + assert (Hgt : (x < bv)%Q).
      { apply Qnot_le_lt. intros Hn. apply Qle_bool_iff in Hn. congruence. }
      apply (IH (pre ++ [x]) (length pre) x).
      * lia.
      * exact Hx.
      * intros k Hk. rewrite Hlen in Hk.
        destruct (Nat.eq_dec k (length pre)) as [-> | Hne].
        -- rewrite Hx. apply Qle_refl.
        -- rewrite app_nth1 by lia. apply Qlt_le_weak.
           eapply Qlt_le_trans; [ exact Hgt | apply Hle; lia ].
Qed.

Lemma argmin_least (l : list Q) (t : nat) :
  argmin l = Ok t ->
  t < length l /\ forall k, k < length l -> (nth t l 0 <= nth k l 0)%Q.
Proof.
  destruct l as [ | x l ]; [ discriminate | ].
  intros H. unfold argmin in H. inversion H as [Ht]. clear H.
  destruct (@argmin_scan_spec l [x] 0 x) as (H1 & H2 & H3).
  - cbn. lia.
  - reflexivity.
  - intros k Hk. cbn in Hk. replace k with 0 by lia. cbn. apply Qle_refl.
  - cbn [length app] in *. rewrite H2. split; assumption.
Qed.

End Py.

Import Py.

Notation "x <- m ;; k" := (Py.bind m (fun x => k))
  (at level 61, m at next level, right associativity).

(* ================================================================== *)
(** * channelselection.py *)

Module ChannelSelection.

Definition matrix := list (list Q).

(** An [ndarray] of shape [(n_trials, n_channels, n_channels)]: the width is
    part of the array even when it holds no trial. *)
Record ndarray3 : Type := mk_ndarray3 {
  n_channels : nat;
  trials : list matrix
}.

Definition square (n : nat) (M : matrix) : Prop :=
  length M = n /\ Forall (fun row => length row = n) M.

Definition well_shaped (X : ndarray3) : Prop :=
  Forall (square (n_channels X)) (trials X).

(** [M[:, sub]] and [M[sub, :]], for indices inside the matrix. [fit] only
    restricts to subsets of [range(Ne)] (theorem C2 shows it), and
    [transform] checks the indices before it restricts. *)
Definition take_cols (M : matrix) (sub : list nat) : matrix :=
  map (fun row => map (fun j => nth j row 0%Q) sub) M.

Definition take_rows (M : matrix) (sub : list nat) : matrix :=
  map (fun i => nth i M []) sub.

Section Selector.

(** [MDM(metric, n_jobs).fit(X, y, sample_weight).covmeans] *)
Variable MDM_fit : ndarray3 -> option (list Z) -> option (list Q) -> list matrix.
(** [distance(A, B, metric=mdm.metric_dist)]. The call may raise: the metrics
    that go through an eigenvalue decomposition do so on a matrix without
    rows, which is what restricting to the empty subset gives. *)
Variable distance : matrix -> matrix -> res Q.

Record ElectrodeSelection : Type := mk_selector {
  nelec : Z;
  subelec : option (list nat);
  dist : list Q;
  covmeans : option (list matrix)
}.

(** [__init__] *)
Definition init (nelec0 : Z) : ElectrodeSelection :=
  {| nelec := nelec0; subelec := None; dist := []; covmeans := None |}.

(** [C[:, sub][sub, :]] *)
Definition restrict (C : matrix) (sub : list nat) : matrix :=
  take_rows (take_cols C sub) sub.

(** The two nested loops over [i] and [j] in [range(i + 1, len(covmeans))],
    accumulating into [di[idx]] from [0]; the first exception of [distance]
    ends them. *)
Definition score (covs : list matrix) (sub : list nat) : res Q :=
  fold_left
    (fun acc i =>
       fold_left
         (fun acc' j =>
            a <- acc' ;;
            d <- distance (restrict (nth i covs []) sub)
                          (restrict (nth j covs []) sub) ;;
            Ok (a + d)%Q)
         (seq (S i) (length covs - S i)) acc)
    (seq 0 (length covs)) (Ok 0%Q).

(** [for idx in range(len(self.subelec)): ...] filling [di] *)
Fixpoint score_each (covs : list matrix) (sub : list nat) (idxs : list nat)
  : res (list Q) :=
  match idxs with
  | [] => Ok []
  | idx :: idxs' =>
      s <- score covs (pop idx sub) ;;
      ss <- score_each covs sub idxs' ;;
      Ok (s :: ss)
  end.

(** The array [di] of one pass of the [while] body. *)
Definition candidate_scores (covs : list matrix) (sub : list nat) : res (list Q) :=
  score_each covs sub (range (length sub)).

(** One pass of the [while] body. *)
Definition elim_step (covs : list matrix) (sub : list nat) (log : list Q)
  : res (list nat * list Q) :=
  di <- candidate_scores covs sub ;;
  torm <- argmax di ;;
  m <- amax di ;;
  Ok (pop torm sub, log ++ [m]).

(** [while len(self.subelec) > self.nelec: ...] *)
Fixpoint elim_loop (fuel : nat) (covs : list matrix) (target : Z)
         (sub : list nat) (log : list Q) : option (res (list nat * list Q)) :=
  if (Z.of_nat (length sub) >? target)%Z then
    match fuel with
    | O => None
    | S fuel' =>
        match elim_step covs sub log with
        | Err e => Some (Err e)
        | Ok (sub', log') => elim_loop fuel' covs target sub' log'
        end
    end
  else Some (Ok (sub, log)).

(** [fit]: the loop is given one unit of fuel per channel plus one; lemma
    [fit_returns] shows that this is always enough. *)
Definition fit (self : ElectrodeSelection) (X : ndarray3)
           (y : option (list Z)) (sample_weight : option (list Q))
  : option (res ElectrodeSelection) :=
  let covs := MDM_fit X y sample_weight in
  match covs with
  | [] => Some (Err (IndexError "list index out of range"))
  | c0 :: _ =>
      let Ne := length c0 in
      match elim_loop (S Ne) covs (nelec self) (range Ne) (dist self) with
      | None => None
      | Some (Err e) => Some (Err e)
      | Some (Ok (sub, log)) =>
          Some (Ok {| nelec := nelec self; subelec := Some sub;
                      dist := log; covmeans := Some covs |})
      end
  end.

(** [transform]: returns the updated instance and the reduced matrices, or
    the IndexError of numpy when the subset names a channel the input does
    not have. *)
Definition transform (self : ElectrodeSelection) (X : ndarray3)
  : res (ElectrodeSelection * ndarray3) :=
  let sub := match subelec self with
             | None => range (n_channels X)
             | Some s => s
             end in
  if forallb (fun i => i <? n_channels X) sub then
    Ok ({| nelec := nelec self; subelec := Some sub;
           dist := dist self; covmeans := covmeans self |},
        {| n_channels := length sub;
           trials := map (fun M => take_cols (take_rows M sub) sub) (trials X) |})
  else Err (IndexError "index is out of bounds").

(** ** The score in the words of the specification

    A centroid restricted to the rows and columns of a candidate: the square
    matrix whose entry [(a, b)] is the entry [(cand[a], cand[b])] of the
    centroid. The score of the candidate: the sum of the distances between
    the restricted centroids over all unordered pairs of class centroids. *)

Definition submatrix (C : matrix) (cand : list nat) : matrix :=
  map (fun i => map (fun j => nth j (nth i C []) 0%Q) cand) cand.

Fixpoint unordered_pairs {A} (l : list A) : list (A * A) :=
  match l with
  | [] => []
  | a :: l' => map (fun b => (a, b)) l' ++ unordered_pairs l'
  end.

Definition Qsum (l : list Q) : Q := fold_right Qplus 0%Q l.

(** [ds] holds, pair by pair, the distance between the two centroids of the
    pair restricted to the candidate. *)
Definition pair_distances (covs : list matrix) (cand : list nat) (ds : list Q)
  : Prop :=
  Forall2 (fun p d => distance (submatrix (fst p) cand) (submatrix (snd p) cand)
                      = Ok d)
          (unordered_pairs covs) ds.

(** Every channel of the candidate is a row of every centroid. *)
Definition channels_of (covs : list matrix) (cand : list nat) : Prop :=
  Forall (fun C => Forall (fun i => i < length C) cand) covs.

(** ** Restriction *)

Lemma restrict_is_submatrix (C : matrix) (cand : list nat) :
  Forall (fun i => i < length C) cand -> restrict C cand = submatrix C cand.
Proof.
  intros H. unfold restrict, submatrix, take_rows, take_cols.
  apply map_ext_in. intros i Hi. rewrite Forall_forall in H.
  rewrite (nth_indep _ [] (map (fun j => nth j [] 0%Q) cand))
    by (rewrite length_map; auto).
  rewrite (map_nth (fun row => map (fun j => nth j row 0%Q) cand) C [] i).
  reflexivity.
Qed.

Lemma submatrix_entry (C : matrix) (cand : list nat) (a b : nat) :
  a < length cand -> b < length cand ->
  nth b (nth a (submatrix C cand) []) 0%Q
  = nth (nth b cand 0) (nth (nth a cand 0) C []) 0%Q.
Proof.
  intros Ha Hb. unfold submatrix.
  rewrite (nth_indep _ [] (map (fun j => nth j (nth 0 C []) 0%Q) cand))
    by (rewrite length_map; exact Ha).
  rewrite (map_nth (fun i => map (fun j => nth j (nth i C []) 0%Q) cand) cand 0 a).
  rewrite (nth_indep _ 0%Q (nth 0 (nth (nth a cand 0) C []) 0%Q))
    by (rewrite length_map; exact Hb).
  rewrite (map_nth (fun j => nth j (nth (nth a cand 0) C []) 0%Q) cand 0 b).
  reflexivity.
Qed.

Lemma map_nth_range {A} (l : list A) (d : A) :
  map (fun i => nth i l d) (range (length l)) = l.
Proof.
  unfold range. induction l as [ | a l IH ]; cbn; [ reflexivity | ].
  f_equal. rewrite <- seq_shift, map_map. exact IH.
Qed.

Lemma range_in_bounds (n : nat) :
  forallb (fun i => i <? n) (range n) = true.
Proof.
  apply forallb_forall. intros i Hi. apply in_seq in Hi.
  apply Nat.ltb_lt. lia.
Qed.

Lemma restrict_identity (n : nat) (M : matrix) :
  square n M -> take_cols (take_rows M (range n)) (range n) = M.
Proof.
  intros [Hlen Hrows]. subst n. unfold take_rows. rewrite map_nth_range.
  unfold take_cols.
  rewrite <- (map_id M) at 2. apply map_ext_in.
  intros row Hin. rewrite Forall_forall in Hrows.
  rewrite <- (Hrows row Hin). apply map_nth_range.
Qed.

(** ** The score as a sum over unordered pairs *)

(** One accumulation step of the inner loop, on a pair of centroids. *)
Definition add_distance (sub : list nat) (acc : res Q) (p : matrix * matrix)
  : res Q :=
  a <- acc ;;
  d <- distance (restrict (fst p) sub) (restrict (snd p) sub) ;;
  Ok (a + d)%Q.

Lemma inner_loop_pairs (covs : list matrix) (sub : list nat) (c : matrix) :
  forall (rest : list matrix) (k : nat) (acc : res Q),
    (forall j, j < length rest -> nth (k + j) covs [] = nth j rest []) ->
    fold_left
      (fun acc' j =>
         a <- acc' ;;
         d <- distance (restrict c sub) (restrict (nth j covs []) sub) ;;
         Ok (a + d)%Q)
      (seq k (length rest)) acc
    = fold_left (add_distance sub) (map (fun b => (c, b)) rest) acc.
Proof.
  induction rest as [ | b rest IH ]; intros k acc Hnth; cbn [length seq map fold_left].
  - reflexivity.
  - rewrite (IH (S k)).
    + f_equal. unfold add_distance. cbn [fst snd].
      specialize (Hnth 0 (Nat.lt_0_succ _)). rewrite Nat.add_0_r in Hnth.
      cbn in Hnth. rewrite Hnth. reflexivity.
    + intros j Hj. specialize (Hnth (S j)). cbn [length nth] in Hnth.
      rewrite <- Hnth by lia. f_equal. lia.
Qed.

Lemma outer_loop_pairs (covs : list matrix) (sub : list nat) :
  forall (rest : list matrix) (k : nat) (acc : res Q),
    k + length rest = length covs ->
    (forall j, j < length rest -> nth (k + j) covs [] = nth j rest []) ->
    fold_left
      (fun acc0 i =>
         fold_left
           (fun acc' j =>
              a <- acc' ;;
              d <- distance (restrict (nth i covs []) sub)
                            (restrict (nth j covs []) sub) ;;
              Ok (a + d)%Q)
           (seq (S i) (length covs - S i)) acc0)
      (seq k (length rest)) acc
    = fold_left (add_distance sub) (unordered_pairs rest) acc.
Proof.
  induction rest as [ | c rest IH ]; intros k acc Hlen Hnth;
    cbn [length seq fold_left unordered_pairs].
  - reflexivity.
  - cbn [length] in Hlen. rewrite fold_left_app.
    assert (Hc : nth k covs [] = c).
    { specialize (Hnth 0 (Nat.lt_0_succ _)). rewrite Nat.add_0_r in Hnth.
      exact Hnth. }
    assert (Hrest : forall j, j < length rest -> nth (S k + j) covs [] = nth j rest []).
    { intros j Hj. specialize (Hnth (S j)). cbn [length nth] in Hnth.
      rewrite <- Hnth by lia. f_equal. lia. }
    rewrite Hc.
    replace (length covs - S k) with (length rest) by lia.
    rewrite (@inner_loop_pairs covs sub c rest (S k) acc Hrest).
    apply IH; [ lia | exact Hrest ].
Qed.

(** The double loop adds the distances in the order of the list of pairs. *)
Lemma score_unfold (covs : list matrix) (sub : list nat) :
  score covs sub = fold_left (add_distance sub) (unordered_pairs covs) (Ok 0%Q).
Proof.
  unfold score. apply (@outer_loop_pairs covs sub covs 0 (Ok 0%Q)).
  - reflexivity.
  - intros j Hj. reflexivity.
Qed.

Lemma fold_add_distance_err (sub : list nat) (ps : list (matrix * matrix)) (e : exn) :
  fold_left (add_distance sub) ps (Err e) = Err e.
Proof. induction ps as [ | p ps IH ]; cbn; auto. Qed.

Lemma Qsum_cons (x : Q) (l : list Q) : Qsum (x :: l) = (x + Qsum l)%Q.
Proof. reflexivity. Qed.

Lemma fold_add_distance_ok (sub : list nat) :
  forall (ps : list (matrix * matrix)) (a q : Q),
    fold_left (add_distance sub) ps (Ok a) = Ok q ->
    exists ds,
      Forall2 (fun p d => distance (restrict (fst p) sub) (restrict (snd p) sub)
                          = Ok d) ps ds /\
      (q == a + Qsum ds)%Q.
Proof.
  induction ps as [ | p ps IH ]; intros a q H; cbn [fold_left] in H.
  - inversion H; subst. exists []. split; [ constructor | ].
    change (q == q + 0)%Q. ring.
  - unfold add_distance at 2 in H. cbn [bind] in H.
    destruct (distance _ _) as [d | e] eqn:Hd; cbn [bind] in H.
    + destruct (IH _ _ H) as (ds & Hds & Hq).
      exists (d :: ds). split; [ constructor; assumption | ].
      rewrite Qsum_cons, Hq. ring.
    + rewrite fold_add_distance_err in H. discriminate.
Qed.

Lemma fold_add_distance_returns (sub : list nat) :
  forall (ps : list (matrix * matrix)) (a : Q),
    (forall p, In p ps ->
       exists d, distance (restrict (fst p) sub) (restrict (snd p) sub) = Ok d) ->
    exists q, fold_left (add_distance sub) ps (Ok a) = Ok q.
Proof.
  induction ps as [ | p ps IH ]; intros a H; cbn [fold_left].
  - exists a. reflexivity.
  - destruct (H p (or_introl eq_refl)) as [d Hd].
    unfold add_distance at 2. cbn [bind]. rewrite Hd. cbn [bind].
    apply IH. intros p' Hp'. apply H. right. exact Hp'.
Qed.

Lemma unordered_pairs_in {A} (l : list A) (p : A * A) :
  In p (unordered_pairs l) -> In (fst p) l /\ In (snd p) l.
Proof.
  induction l as [ | a l IH ]; cbn; [ contradiction | ].
  intros H. apply in_app_or in H. destruct H as [H | H].
  - apply in_map_iff in H. destruct H as (b & <- & Hb). cbn. auto.
  - destruct (IH H). auto.
Qed.

(** The score of a candidate is the sum over the unordered pairs of class
    centroids of the distance between the two restricted centroids. *)
Lemma score_is_pair_separation (covs : list matrix) (cand : list nat) (q : Q) :
  channels_of covs cand ->
  score covs cand = Ok q ->
  exists ds, pair_distances covs cand ds /\ (q == Qsum ds)%Q.
Proof.
  intros Hch H. rewrite score_unfold in H.
  destruct (fold_add_distance_ok _ _ _ H) as (ds & Hds & Hq).
  exists ds. split.
  - unfold pair_distances. unfold channels_of in Hch. rewrite Forall_forall in Hch.
    clear H Hq. revert Hds.
    assert (Hin : forall p, In p (unordered_pairs covs) ->
                            In (fst p) covs /\ In (snd p) covs)
      by (intros p; apply unordered_pairs_in).
    revert Hin. generalize (unordered_pairs covs) as ps. intros ps Hin Hds.
    induction Hds as [ | p d ps ds Hd Hrest IH ]; constructor.
    + destruct (Hin p (or_introl eq_refl)) as [H1 H2].
      rewrite <- (@restrict_is_submatrix _ _ (Hch _ H1)).
      rewrite <- (@restrict_is_submatrix _ _ (Hch _ H2)). exact Hd.
    + apply IH. intros p' Hp'. apply Hin. right. exact Hp'.
  - rewrite Hq. ring.
Qed.

Lemma score_returns (covs : list matrix) (cand : list nat) :
  (forall A B, exists d, distance (restrict A cand) (restrict B cand) = Ok d) ->
  exists q, score covs cand = Ok q.
Proof.
  intros H. rewrite score_unfold. apply fold_add_distance_returns.
  intros p _. apply H.
Qed.

(** ** Elimination step *)

Lemma score_each_spec (covs : list matrix) (sub : list nat) :
  forall idxs di,
    score_each covs sub idxs = Ok di ->
    Forall2 (fun idx s => score covs (pop idx sub) = Ok s) idxs di.
Proof.
  induction idxs as [ | idx idxs IH ]; intros di H; cbn [score_each] in H.
  - inversion H. constructor.
  - destruct (score covs (pop idx sub)) as [s | ] eqn:Hs; cbn [bind] in H;
      [ | discriminate ].
    destruct (score_each covs sub idxs) as [ss | ]; cbn [bind] in H;
      [ | discriminate ].
    inversion H; subst. constructor; [ exact Hs | apply IH; reflexivity ].
Qed.

Lemma score_each_returns (covs : list matrix) (sub : list nat) :
  forall idxs,
    (forall idx, In idx idxs -> exists s, score covs (pop idx sub) = Ok s) ->
    exists di, score_each covs sub idxs = Ok di.
Proof.
  induction idxs as [ | idx idxs IH ]; intros H; cbn [score_each].
  - exists []. reflexivity.
  - destruct (H idx (or_introl eq_refl)) as [s Hs]. rewrite Hs. cbn [bind].
    destruct IH as [ss Hss]; [ intros i Hi; apply H; right; exact Hi | ].
    rewrite Hss. cbn [bind]. eexists. reflexivity.
Qed.

Lemma Forall2_nth_seq {B} (P : nat -> B -> Prop) (d : B) :
  forall (n : nat) (k : nat) (l : list B),
    Forall2 P (seq k n) l ->
    length l = n /\ forall i, i < n -> P (k + i) (nth i l d).
Proof.
  induction n as [ | n IH ]; intros k l H; cbn [seq] in H; inversion H; subst.
  - split; [ reflexivity | intros i Hi; lia ].
  - destruct (IH _ _ H4) as [Hlen Hnth]. split; [ cbn; lia | ].
    intros [ | i ] Hi; cbn [nth].
    + rewrite Nat.add_0_r. assumption.
    + replace (k + S i) with (S k + i) by lia. apply Hnth. lia.
Qed.

Lemma candidate_scores_spec (covs : list matrix) (sub : list nat) (di : list Q) :
  candidate_scores covs sub = Ok di ->
  length di = length sub /\
  forall idx, idx < length sub -> score covs (pop idx sub) = Ok (nth idx di 0%Q).
Proof.
  unfold candidate_scores, range. intros H. apply score_each_spec in H.
  apply (@Forall2_nth_seq Q _ 0%Q) in H. exact H.
Qed.

(** What a pass that comes back has done. *)
Lemma elim_step_ok (covs : list matrix) (sub : list nat) (log : list Q)
      (sub' : list nat) (log' : list Q) :
  elim_step covs sub log = Ok (sub', log') ->
  exists torm s,
    torm < length sub /\
    sub' = pop torm sub /\ log' = log ++ [s] /\
    score covs (pop torm sub) = Ok s /\
    (forall idx, idx < length sub ->
       exists si, score covs (pop idx sub) = Ok si /\ (si <= s)%Q) /\
    (forall idx, idx < torm ->
       exists si, score covs (pop idx sub) = Ok si /\ (si < s)%Q).
Proof.
  unfold elim_step. intros H.
  destruct (candidate_scores covs sub) as [di | ] eqn:Hdi; cbn [bind] in H;
    [ | discriminate ].
  destruct (candidate_scores_spec _ _ Hdi) as [Hlen Hnth].
  destruct di as [ | x l ]; [ discriminate | ].
  destruct (argmax_first_max x l) as (t & Ha & Hm & Ht & Hle & Hlt).
  rewrite Ha, Hm in H. cbn [bind] in H. inversion H; subst. clear H.
  rewrite Hlen in Ht, Hle.
  exists t, (nth t (x :: l) 0%Q). repeat split; auto.
  - intros idx Hidx. exists (nth idx (x :: l) 0%Q). split; auto.
  - intros idx Hidx. exists (nth idx (x :: l) 0%Q). split; auto.
    apply Hnth. lia.
Qed.

(** A pass on a non-empty subset comes back when every candidate can be
    scored. *)
Lemma elim_step_returns (covs : list matrix) (sub : list nat) (log : list Q) :
  sub <> [] ->
  (forall idx, idx < length sub -> exists s, score covs (pop idx sub) = Ok s) ->
  exists r, elim_step covs sub log = Ok r.
Proof.
  intros Hne H. unfold elim_step.
  destruct (@score_each_returns covs sub (range (length sub))) as [di Hdi].
  { intros idx Hidx. apply in_seq in Hidx. apply H. lia. }
  fold (candidate_scores covs sub) in Hdi. rewrite Hdi. cbn [bind].
  destruct (candidate_scores_spec _ _ Hdi) as [Hlen _].
  destruct di as [ | x l ].
  - destruct sub; [ congruence | discriminate ].
  - destruct (argmax_first_max x l) as (t & Ha & Hm & _).
    rewrite Ha, Hm. cbn [bind]. eexists. reflexivity.
Qed.

Lemma elim_step_empty (covs : list matrix) (log : list Q) :
  elim_step covs [] log
    = Err (ValueError "attempt to get argmax of an empty sequence").
Proof. reflexivity. Qed.

(** ** The elimination loop *)

Lemma elim_loop_done (fuel : nat) (covs : list matrix) (target : Z)
      (sub : list nat) (log : list Q) :
  (Z.of_nat (length sub) <= target)%Z ->
  elim_loop fuel covs target sub log = Some (Ok (sub, log)).
Proof.
  intros H. destruct fuel; cbn;
    destruct (Z.gtb_spec (Z.of_nat (length sub)) target); try lia; reflexivity.
Qed.

Lemma elim_loop_returns (fuel : nat) (covs : list matrix) (target : Z) :
  forall sub log,
    length sub < fuel -> elim_loop fuel covs target sub log <> None.
Proof.
  induction fuel as [ | fuel IH ]; intros sub log Hlt; [ lia | ].
  cbn. destruct (Z.of_nat (length sub) >? target)%Z; [ | discriminate ].
  destruct (elim_step covs sub log) as [[s1 l1] | e] eqn:Hs; [ | discriminate ].
  destruct (elim_step_ok _ _ _ Hs) as (t & s & Ht & -> & _).
  apply IH. rewrite pop_length by exact Ht. lia.
Qed.

(** What the loop has done when it comes back with a subset. *)
Lemma elim_loop_shrinks (fuel : nat) (covs : list matrix) (target : Z) :
  (0 <= target)%Z ->
  forall sub log sub' log',
    elim_loop fuel covs target sub log = Some (Ok (sub', log')) ->
    exists new,
      log' = log ++ new /\
      length sub' = Nat.min (length sub) (Z.to_nat target) /\
      (forall c, In c sub' -> In c sub) /\
      (NoDup sub -> NoDup sub') /\
      length new = length sub - Z.to_nat target.
Proof.
  intros Hpos.
  induction fuel as [ | fuel IH ]; intros sub log sub' log' H; cbn [elim_loop] in H.
  - destruct (Z.gtb_spec (Z.of_nat (length sub)) target) as [Hgt | Hle];
      [ discriminate | ].
    inversion H; subst. exists []. rewrite app_nil_r.
    repeat split; auto; cbn; lia.
  - destruct (Z.gtb_spec (Z.of_nat (length sub)) target) as [Hgt | Hle].
    + destruct (elim_step covs sub log) as [[s1 l1] | e] eqn:Hs; [ | discriminate ].
      destruct (elim_step_ok _ _ _ Hs) as (t & s & Ht & -> & -> & _).
      destruct (IH _ _ _ _ H) as (new & -> & Hlen & Hin & Hnd & Hnew).
      rewrite pop_length in Hlen, Hnew by exact Ht.
      exists (s :: new). rewrite <- app_assoc. cbn [app].
      repeat split.
      * lia.
      * intros c Hc. eapply pop_incl. apply Hin. exact Hc.
      * intros Hd. apply Hnd. apply pop_NoDup. exact Hd.
      * cbn [length]. lia.
    + inversion H; subst. exists []. rewrite app_nil_r.
      repeat split; auto; cbn; lia.
Qed.

(** The loop comes back with a subset when [distance] answers on every
    restriction to at least [target] channels. *)
Lemma elim_loop_completes (fuel : nat) (covs : list matrix) (target : Z) :
  (0 <= target)%Z ->
  (forall cand A B,
      (target <= Z.of_nat (length cand))%Z ->
      exists d, distance (restrict A cand) (restrict B cand) = Ok d) ->
  forall sub log,
    length sub - Z.to_nat target <= fuel ->
    exists r, elim_loop fuel covs target sub log = Some (Ok r).
Proof.
  intros Hpos Hd.
  induction fuel as [ | fuel IH ]; intros sub log Hfuel.
  - rewrite elim_loop_done by lia. eexists. reflexivity.
  - cbn [elim_loop].
    destruct (Z.gtb_spec (Z.of_nat (length sub)) target) as [Hgt | Hle];
      [ | eexists; reflexivity ].
    assert (Hne : sub <> []) by (destruct sub; [ cbn in Hgt; lia | discriminate ]).
    destruct (@elim_step_returns covs sub log Hne) as [[s1 l1] Hs].
    { intros idx Hidx. apply score_returns. intros A B. apply Hd.
      rewrite pop_length by exact Hidx. lia. }
    rewrite Hs.
    destruct (elim_step_ok _ _ _ Hs) as (t & s & Ht & -> & _).
    apply IH. rewrite pop_length by exact Ht. lia.
Qed.

(** [fit] always returns: with a result or with an exception. *)
Lemma fit_returns (self : ElectrodeSelection) (X : ndarray3)
      (y : option (list Z)) (w : option (list Q)) :
  fit self X y w <> None.
Proof.
  unfold fit. destruct (MDM_fit X y w) as [ | c0 cs ]; [ discriminate | ].
  pose proof (@elim_loop_returns (S (length c0)) (c0 :: cs) (nelec self)
                (range (length c0)) (dist self)) as H.
  unfold range in *. rewrite length_seq in H. specialize (H (Nat.lt_succ_diag_r _)).
  destruct (elim_loop _ _ _ _ _) as [ [ [? ?] | ? ] | ];
    [ discriminate | discriminate | congruence ].
Qed.



(** ** Properties of [fit] and [transform] *)

(** C2. Let [n] be the number of channels of the class centroids (the
    [Ne] read from [covmeans[0].shape]) and let the target count [nelec]
    satisfy [0 <= nelec <= n]. After every [fit] that comes back with a
    result, the channel subset holds exactly [nelec] indices, pairwise
    distinct and all below [n], and the distance log is the log before the
    call followed by exactly [n - nelec] entries appended by this call. And
    [fit] does come back with a result whenever [distance] answers on every
    restriction to at least [nelec] channels; otherwise it ends with the
    exception of [distance]. *)
Theorem C2_fit_subset_size_and_log_length
        (self : ElectrodeSelection) (X : ndarray3)
        (y : option (list Z)) (w : option (list Q))
        (c0 : matrix) (cs : list matrix) :
  MDM_fit X y w = c0 :: cs ->
  (0 <= nelec self <= Z.of_nat (length c0))%Z ->
  (forall self',
      fit self X y w = Some (Ok self') ->
      exists sub new,
        subelec self' = Some sub /\
        Z.of_nat (length sub) = nelec self /\
        NoDup sub /\
        (forall c, In c sub -> c < length c0) /\
        dist self' = dist self ++ new /\
        length new = length c0 - Z.to_nat (nelec self))
  /\
  ((forall cand A B,
       (nelec self <= Z.of_nat (length cand))%Z ->
       exists d, distance (restrict A cand) (restrict B cand) = Ok d) ->
   exists self', fit self X y w = Some (Ok self')).
Proof.
  intros Hfit [Hlo Hhi]. unfold fit. rewrite Hfit. split.
  - intros self' H.
    destruct (elim_loop _ _ _ _ _) as [ [ [sub log] | e ] | ] eqn:Hrun;
      try discriminate.
    inversion H; subst. clear H. cbn [subelec dist].
    destruct (@elim_loop_shrinks _ _ _ Hlo _ _ _ _ Hrun)
      as (new & -> & Hlen & Hin & Hnd & Hnew).
    unfold range in *. rewrite length_seq in *.
    exists sub, new. repeat split; auto.
    + lia.
    + apply Hnd. apply seq_NoDup.
    + intros c Hc. apply Hin in Hc. apply in_seq in Hc. lia.
  - intros Hd.
    destruct (@elim_loop_completes (S (length c0)) (c0 :: cs) (nelec self) Hlo Hd
                (range (length c0)) (dist self)) as [[sub log] Hrun].
    { unfold range. rewrite length_seq. lia. }
    rewrite Hrun. eexists. reflexivity.
Qed.

(** C6. One pass of the loop body on the working subset [sub], with every
    channel of [sub] a row of every class centroid.
    - The score the pass gives to a candidate ([sub] with one position
      removed) is the sum, over all unordered pairs of class centroids, of
      the distance between the two centroids restricted to the rows and
      columns of the candidate.
    - When the pass comes back, it has removed the first position [torm]
      whose candidate has the greatest score, appended that score to the
      distance log, and the working subset has become that candidate.
    - The pass comes back when [sub] is not empty and every candidate can be
      scored; otherwise it ends with the exception of [distance] (or of
      [argmax], on the empty subset). *)
Theorem C6_elim_step_keeps_first_best_candidate
        (covs : list matrix) (sub : list nat) (log : list Q) :
  channels_of covs sub ->
  (forall idx q,
      score covs (pop idx sub) = Ok q ->
      exists ds, pair_distances covs (pop idx sub) ds /\ (q == Qsum ds)%Q)
  /\
  (forall sub' log',
      elim_step covs sub log = Ok (sub', log') ->
      exists torm s,
        torm < length sub /\
        sub' = pop torm sub /\ log' = log ++ [s] /\
        score covs (pop torm sub) = Ok s /\
        (forall idx, idx < length sub ->
           exists si, score covs (pop idx sub) = Ok si /\ (si <= s)%Q) /\
        (forall idx, idx < torm ->
           exists si, score covs (pop idx sub) = Ok si /\ (si < s)%Q))
  /\
  (sub <> [] ->
   (forall idx, idx < length sub -> exists s, score covs (pop idx sub) = Ok s) ->
   exists r, elim_step covs sub log = Ok r).
Proof.
  intros Hch. split; [ | split ].
  - intros idx q Hq. apply score_is_pair_separation; [ | exact Hq ].
    unfold channels_of in *. rewrite Forall_forall in *. intros C HC.
    specialize (Hch C HC). rewrite Forall_forall in *.
    intros i Hi. apply Hch. eapply pop_incl. exact Hi.
  - intros sub' log' H. exact (elim_step_ok _ _ _ H).
  - intros Hne H. apply elim_step_returns; assumption.
Qed.

(** C8. When the target count is at least the number of channels, [fit]
    leaves the identity subset and appends nothing to the distance log.
    [transform] on an instance whose subset was never computed raises
    nothing: it takes the identity subset of the input's width and returns
    the input matrices as they are. *)
Theorem C8_identity_subset_when_nothing_to_remove :
  (forall (self : ElectrodeSelection) (X : ndarray3)
          (y : option (list Z)) (w : option (list Q))
          (c0 : matrix) (cs : list matrix),
      MDM_fit X y w = c0 :: cs ->
      (Z.of_nat (length c0) <= nelec self)%Z ->
      fit self X y w
        = Some (Ok {| nelec := nelec self;
                      subelec := Some (range (length c0));
                      dist := dist self;
                      covmeans := Some (c0 :: cs) |}))
  /\
  (forall (self : ElectrodeSelection) (X : ndarray3),
      subelec self = None ->
      well_shaped X ->
      transform self X
        = Ok ({| nelec := nelec self;
                 subelec := Some (range (n_channels X));
                 dist := dist self;
                 covmeans := covmeans self |}, X)).
Proof.
  split.
  - intros self X y w c0 cs Hfit Hge. unfold fit. rewrite Hfit.
    rewrite elim_loop_done; [ reflexivity | ].
    unfold range. rewrite length_seq. exact Hge.
  - intros self X Hnone Hshape. unfold transform. rewrite Hnone.
    rewrite range_in_bounds.
    f_equal. f_equal. destruct X as [n ts]. cbn in *. f_equal.
    + unfold range. apply length_seq.
    + rewrite <- (map_id ts) at 2. apply map_ext_in.
      intros M HM. unfold well_shaped in Hshape. cbn in Hshape.
      rewrite Forall_forall in Hshape. apply restrict_identity. auto.
Qed.

(** [fit] never clears the distance log: it only appends to the log the
    instance already carries. *)
Lemma elim_loop_extends_log (covs : list matrix) (target : Z) :
  forall fuel sub log sub' log',
    elim_loop fuel covs target sub log = Some (Ok (sub', log')) ->
    exists new, log' = log ++ new.
Proof.
  induction fuel as [ | fuel IH ]; intros sub log sub' log' H; cbn [elim_loop] in H.
  - destruct (Z.of_nat (length sub) >? target)%Z; [ discriminate | ].
    inversion H. exists []. rewrite app_nil_r. reflexivity.
  - destruct (Z.of_nat (length sub) >? target)%Z.
    + destruct (elim_step covs sub log) as [[s1 l1] | e] eqn:Hs; [ | discriminate ].
      destruct (elim_step_ok _ _ _ Hs) as (t & m & _ & -> & -> & _).
      destruct (IH _ _ _ _ H) as [new ->].
      exists (m :: new). rewrite <- app_assoc. reflexivity.
    + inversion H. exists []. rewrite app_nil_r. reflexivity.
Qed.

Lemma fit_extends_log (self self' : ElectrodeSelection) (X : ndarray3)
      (y : option (list Z)) (w : option (list Q)) :
  fit self X y w = Some (Ok self') ->
  exists new, dist self' = dist self ++ new.
Proof.
  unfold fit. destruct (MDM_fit X y w) as [ | c0 cs ]; [ discriminate | ].
  destruct (elim_loop _ _ _ _ _) as [ [ [sub log] | e ] | ] eqn:Hrun;
    try discriminate.
  intros H. inversion H. cbn. eapply elim_loop_extends_log. exact Hrun.
Qed.

(** ** Further properties of [fit] and [transform] *)


(** Any property of the subset that [pop] keeps is kept by the loop. *)
Lemma elim_loop_invariant (P : list nat -> Prop) (covs : list matrix) (target : Z) :
  (forall i l, P l -> P (pop i l)) ->
  forall fuel sub log sub' log',
    P sub ->
    elim_loop fuel covs target sub log = Some (Ok (sub', log')) ->
    P sub'.
Proof.
  intros Hpop.
  induction fuel as [ | fuel IH ]; intros sub log sub' log' HP H;
    cbn [elim_loop] in H.
  - destruct (Z.of_nat (length sub) >? target)%Z; [ discriminate | ].
    inversion H; subst. exact HP.
  - destruct (Z.of_nat (length sub) >? target)%Z.
    + destruct (elim_step covs sub log) as [[s1 l1] | e] eqn:Hs; [ | discriminate ].
      destruct (elim_step_ok _ _ _ Hs) as (t & m & _ & -> & _).
      eapply IH; [ | exact H ]. apply Hpop. exact HP.
    + inversion H; subst. exact HP.
Qed.

Lemma pop_StronglySorted (i : nat) (l : list nat) :
  StronglySorted lt l -> StronglySorted lt (pop i l).
Proof.
  revert i. induction l as [ | a l IH ]; intros [ | i ] H; cbn; auto.
  - inversion H; assumption.
  - inversion H as [ | ? ? Hs Hall ]; subst.
    constructor; [ apply IH; exact Hs | ].
    apply Forall_forall. intros x Hx.
    rewrite Forall_forall in Hall. apply Hall. eapply pop_incl. exact Hx.
Qed.

Lemma seq_StronglySorted (a n : nat) : StronglySorted lt (seq a n).
Proof.
  revert a. induction n as [ | n IH ]; intros a; cbn; constructor.
  - apply IH.
  - apply Forall_forall. intros x Hx. apply in_seq in Hx. lia.
Qed.

(** The channels [fit] keeps are listed in ascending order: the subset is a
    subsequence of [range(Ne)]. *)
Theorem fit_subset_ascending
        (self self' : ElectrodeSelection) (X : ndarray3)
        (y : option (list Z)) (w : option (list Q)) :
  fit self X y w = Some (Ok self') ->
  exists sub, subelec self' = Some sub /\ StronglySorted lt sub.
Proof.
  unfold fit. destruct (MDM_fit X y w) as [ | c0 cs ]; [ discriminate | ].
  destruct (elim_loop _ _ _ _ _) as [ [ [sub log] | e ] | ] eqn:Hrun;
    try discriminate.
  intros H. inversion H. cbn. exists sub. split; [ reflexivity | ].
  eapply (@elim_loop_invariant (StronglySorted lt)); [ | | exact Hrun ].
  - intros i l. apply pop_StronglySorted.
  - apply seq_StronglySorted.
Qed.

(** *** One class only *)

Lemma score_single_class (c : matrix) (sub : list nat) : score [c] sub = Ok 0%Q.
Proof. reflexivity. Qed.

Lemma argmax_scan_zeros (n i : nat) :
  argmax_scan (repeat 0%Q n) i 0 0%Q = (0, 0%Q).
Proof.
  revert i. induction n as [ | n IH ]; intros i; cbn; [ reflexivity | apply IH ].
Qed.

Lemma candidate_scores_single_class (c : matrix) (sub : list nat) :
  candidate_scores [c] sub = Ok (repeat 0%Q (length sub)).
Proof.
  unfold candidate_scores, range. generalize 0 as a.
  induction (length sub) as [ | n IH ]; intros a; cbn [seq score_each repeat].
  - reflexivity.
  - rewrite score_single_class, IH. reflexivity.
Qed.

Lemma elim_step_single_class (c : matrix) (a : nat) (sub : list nat) (log : list Q) :
  elim_step [c] (a :: sub) log = Ok (sub, log ++ [0%Q]).
Proof.
  unfold elim_step. rewrite candidate_scores_single_class.
  cbn [length repeat argmax amax bind]. rewrite argmax_scan_zeros. reflexivity.
Qed.

Lemma elim_loop_single_class (c : matrix) (target : Z) :
  (0 <= target)%Z ->
  forall fuel sub log,
    length sub - Z.to_nat target <= fuel ->
    elim_loop fuel [c] target sub log
    = Some (Ok (skipn (length sub - Z.to_nat target) sub,
                log ++ repeat 0%Q (length sub - Z.to_nat target))).
Proof.
  intros Hpos.
  induction fuel as [ | fuel IH ]; intros sub log Hfuel.
  - replace (length sub - Z.to_nat target) with 0 by lia.
    rewrite elim_loop_done by lia. cbn. rewrite app_nil_r. reflexivity.
  - cbn [elim_loop].
    destruct (Z.gtb_spec (Z.of_nat (length sub)) target) as [Hgt | Hle].
    + destruct sub as [ | a sub ]; [ cbn in Hgt; lia | ].
      rewrite elim_step_single_class.
      rewrite IH by (cbn [length] in Hfuel; lia).
      cbn [length] in *.
      replace (S (length sub) - Z.to_nat target)
        with (S (length sub - Z.to_nat target)) by lia.
      cbn [skipn repeat]. rewrite <- app_assoc. reflexivity.
    + replace (length sub - Z.to_nat target) with 0 by lia.
      cbn. rewrite app_nil_r. reflexivity.
Qed.

(** With a single class there is no pair of centroids: every candidate
    scores [0], the tie goes to the first position at every step, and [fit]
    drops the leading channels, keeps the last [nelec] ones and logs a [0]
    per removed channel. *)
Theorem fit_single_class_keeps_last_channels
        (self : ElectrodeSelection) (X : ndarray3)
        (y : option (list Z)) (w : option (list Q)) (c : matrix) :
  MDM_fit X y w = [c] ->
  (0 <= nelec self <= Z.of_nat (length c))%Z ->
  fit self X y w
  = Some (Ok {| nelec := nelec self;
                subelec := Some (seq (length c - Z.to_nat (nelec self))
                                     (Z.to_nat (nelec self)));
                dist := dist self
                          ++ repeat 0%Q (length c - Z.to_nat (nelec self));
                covmeans := Some [c] |}).
Proof.
  intros Hfit [Hlo Hhi]. unfold fit. rewrite Hfit.
  rewrite (@elim_loop_single_class c (nelec self) Hlo)
    by (unfold range; rewrite length_seq; lia).
  unfold range. rewrite length_seq, skipn_seq.
  replace (length c - (length c - Z.to_nat (nelec self)))
    with (Z.to_nat (nelec self)) by lia.
  reflexivity.
Qed.

(** *** [transform] on a fitted instance *)

Lemma in_bounds_forall (n : nat) (sub : list nat) :
  forallb (fun i => i <? n) sub = true <-> Forall (fun i => i < n) sub.
Proof.
  rewrite forallb_forall, Forall_forall. split; intros H i Hi.
  - apply Nat.ltb_lt. auto.
  - apply Nat.ltb_lt. auto.
Qed.

(** With a subset inside the input's channels, [transform] leaves the
    instance as it is and returns, for each trial, the square matrix whose
    entry [(a, b)] is the entry [(sub[a], sub[b])] of the trial. *)
Theorem transform_selects_rows_and_columns
        (self : ElectrodeSelection) (X : ndarray3) (sub : list nat) :
  subelec self = Some sub ->
  Forall (fun i => i < n_channels X) sub ->
  exists self' X',
    transform self X = Ok (self', X') /\
    subelec self' = Some sub /\ nelec self' = nelec self /\
    dist self' = dist self /\ covmeans self' = covmeans self /\
    n_channels X' = length sub /\
    length (trials X') = length (trials X) /\
    forall t a b,
      t < length (trials X) -> a < length sub -> b < length sub ->
      nth b (nth a (nth t (trials X') []) []) 0%Q
      = nth (nth b sub 0) (nth (nth a sub 0) (nth t (trials X) []) []) 0%Q.
Proof.
  intros Hsub Hin. unfold transform. rewrite Hsub.
  apply in_bounds_forall in Hin. rewrite Hin.
  eexists _, _. split; [ reflexivity | ]. cbn.
  repeat split; try reflexivity.
  - apply length_map.
  - intros t a b Ht Ha Hb.
    rewrite (nth_indep _ [] (take_cols (take_rows [] sub) sub))
      by (rewrite length_map; exact Ht).
    rewrite (map_nth (fun M => take_cols (take_rows M sub) sub)).
    unfold take_cols, take_rows. rewrite map_map.
    set (M := nth t (trials X) []).
    rewrite (nth_indep _ [] (map (fun j => nth j (nth 0 M []) 0%Q) sub))
      by (rewrite length_map; exact Ha).
    rewrite (map_nth (fun i => map (fun j => nth j (nth i M []) 0%Q) sub) sub 0 a).
    rewrite (nth_indep _ 0%Q (nth 0 (nth (nth a sub 0) M []) 0%Q))
      by (rewrite length_map; exact Hb).
    rewrite (map_nth (fun j => nth j (nth (nth a sub 0) M []) 0%Q) sub 0 b).
    reflexivity.
Qed.

(** [transform] on an instance that was never fitted stores the identity
    subset of that input's width. A later [transform] works with the stored
    width: it raises on an input with fewer channels and cuts an input with
    more channels down to the leading ones. *)
Theorem transform_before_fit_pins_the_width
        (self s1 : ElectrodeSelection) (X X1 X' : ndarray3) :
  subelec self = None ->
  transform self X = Ok (s1, X1) ->
  subelec s1 = Some (range (n_channels X)) /\
  (n_channels X' < n_channels X ->
   transform s1 X' = Err (IndexError "index is out of bounds")) /\
  (n_channels X <= n_channels X' ->
   exists X2, transform s1 X' = Ok (s1, X2) /\ n_channels X2 = n_channels X).
Proof.
  intros Hnone H. unfold transform in H. rewrite Hnone, range_in_bounds in H.
  inversion H; subst. clear H. cbn [subelec].
  split; [ reflexivity | ]. split.
  - intros Hlt. unfold transform. cbn [subelec].
    destruct (forallb _ _) eqn:E; [ | reflexivity ].
    apply in_bounds_forall in E. rewrite Forall_forall in E.
    specialize (E (n_channels X')).
    assert (Hin : In (n_channels X') (range (n_channels X)))
      by (apply in_seq; lia).
    specialize (E Hin). lia.
  - intros Hle. unfold transform. cbn [subelec nelec dist covmeans].
    assert (E : forallb (fun i => i <? n_channels X') (range (n_channels X)) = true).
    { apply in_bounds_forall. apply Forall_forall. intros i Hi.
      apply in_seq in Hi. lia. }
    rewrite E. eexists. split; [ reflexivity | ].
    cbn. unfold range. apply length_seq.
Qed.


(** *** A second [fit] against a fresh instance *)

Definition with_log_prefix (log : list Q) (r : option (res (list nat * list Q)))
  : option (res (list nat * list Q)) :=
  match r with
  | Some (Ok (sub, l)) => Some (Ok (sub, log ++ l))
  | other => other
  end.

Lemma elim_loop_log_prefix (covs : list matrix) (target : Z) :
  forall fuel sub log,
    elim_loop fuel covs target sub log
    = with_log_prefix log (elim_loop fuel covs target sub []).
Proof.
  induction fuel as [ | fuel IH ]; intros sub log; cbn [elim_loop].
  - destruct (Z.of_nat (length sub) >? target)%Z; cbn; [ reflexivity | ].
    rewrite app_nil_r. reflexivity.
  - destruct (Z.of_nat (length sub) >? target)%Z; cbn [with_log_prefix];
      [ | rewrite app_nil_r; reflexivity ].
    unfold elim_step.
    destruct (candidate_scores covs sub) as [di | e]; cbn [bind]; [ | reflexivity ].
    destruct (argmax _) as [t | e]; cbn [bind]; [ | reflexivity ].
    destruct (amax _) as [m | e]; cbn [bind]; [ | reflexivity ].
    rewrite (IH _ (log ++ [m])), (IH _ ([] ++ [m])).
    destruct (elim_loop fuel covs target (pop t sub) []) as [ [ [s l] | e ] | ];
      cbn; [ rewrite <- app_assoc | | ]; reflexivity.
Qed.

(** [fit] on a used instance selects exactly what it selects on a fresh
    instance with the same target: same outcome, same subset, same
    centroids. The one trace of the earlier calls is the old log, which stays
    in front of the entries of this call. *)
Theorem refit_differs_from_fresh_fit_by_the_old_log
        (self : ElectrodeSelection) (X : ndarray3)
        (y : option (list Z)) (w : option (list Q)) :
  fit self X y w
  = match fit (init (nelec self)) X y w with
    | Some (Ok fresh) =>
        Some (Ok {| nelec := nelec self; subelec := subelec fresh;
                    dist := dist self ++ dist fresh;
                    covmeans := covmeans fresh |})
    | other => other
    end.
Proof.
  unfold fit. cbn [nelec dist init].
  destruct (MDM_fit X y w) as [ | c0 cs ]; [ reflexivity | ].
  rewrite (elim_loop_log_prefix (c0 :: cs) (nelec self) (S (length c0))
             (range (length c0)) (dist self)).
  destruct (elim_loop _ _ _ _ []) as [ [ [s l] | e ] | ]; reflexivity.
Qed.

End Selector.

(** ** A concrete Metric Provider for the examples

    Class centroids are entrywise arithmetic means (the mean of the
    ['euclid'] metric); the distance is the sum of the entrywise absolute
    differences, a rational-valued stand-in for the matrix norms of the
    library, which answers on every pair of matrices. [distance_spd] is the
    same distance for a metric that refuses a matrix without rows, as the
    metrics built on an eigenvalue decomposition do. Sample weights are
    uniform. *)
Module Euclid.

Definition row_add (r1 r2 : list Q) : list Q :=
  map (fun p => (fst p + snd p)%Q) (combine r1 r2).

Definition mat_add (A B : matrix) : matrix :=
  map (fun p => row_add (fst p) (snd p)) (combine A B).

Definition mat_scale (k : Q) (A : matrix) : matrix :=
  map (map (fun a => Qred (k * a))) A.

Definition mean_euclid (l : list matrix) : matrix :=
  match l with
  | [] => []
  | A :: l' =>
      mat_scale (1 / inject_Z (Z.of_nat (length l)))
                (fold_left mat_add l' A)
  end.

Definition MDM_fit (X : ndarray3) (y : option (list Z))
           (w : option (list Q)) : list matrix :=
  match y with
  | None => []
  | Some labels =>
      map (fun c =>
             mean_euclid
               (mask_select (trials X) (map (fun l => (l =? c)%Z) labels)))
          (unique labels)
  end.

Definition Qabs_diff (a b : Q) : Q :=
  if Qle_bool a b then (b - a)%Q else (a - b)%Q.

Definition abs_diff_sum (A B : matrix) : Q :=
  fold_right Qplus 0%Q
    (map (fun p => Qabs_diff (fst p) (snd p))
         (combine (concat A) (concat B))).

Definition distance (A B : matrix) : res Q := Ok (abs_diff_sum A B).

Definition distance_spd (A B : matrix) : res Q :=
  match A, B with
  | [], _ | _, [] => Err (Raised "distance")
  | _, _ => Ok (abs_diff_sum A B)
  end.

(** Two trials on three channels, one per class. *)
Definition X2 : ndarray3 :=
  {| n_channels := 3;
     trials := [ [[2; 0; 0]; [0; 1; 0]; [0; 0; 1]];
                 [[1; 0; 0]; [0; 3; 0]; [0; 0; 1]] ]%Q |}.

Definition y2 : option (list Z) := Some [0; 1]%Z.

Definition all3 : list nat := [0; 1; 2].

Definition centroids2 : list matrix := MDM_fit X2 y2 None.

Definition fit2 (self : ElectrodeSelection) :=
  fit MDM_fit distance self X2 y2 None.

Definition fit2_spd (self : ElectrodeSelection) :=
  fit MDM_fit distance_spd self X2 y2 None.

Example fit2_keeps_two_channels :
  fit2 (init 2)
  = Some (Ok {| nelec := 2; subelec := Some [0; 1]; dist := [3%Q];
                covmeans := Some centroids2 |}).
Proof. vm_compute. reflexivity. Qed.

Example fit2_negative_target :
  fit2 (init (-1))
  = Some (Err (ValueError "attempt to get argmax of an empty sequence")).
Proof. vm_compute. reflexivity. Qed.

(** With a metric that refuses a matrix without rows, the target counts
    [2] and [1] are reached; [0] is not: the pass that would remove the last
    channel scores the empty candidate, and the exception of [distance] ends
    [fit]. A negative target ends the same way, before [argmax] ever sees an
    empty array. *)
Example fit2_spd_keeps_two_channels :
  fit2_spd (init 2)
  = Some (Ok {| nelec := 2; subelec := Some [0; 1]; dist := [3%Q];
                covmeans := Some centroids2 |}).
Proof. vm_compute. reflexivity. Qed.

Example fit2_spd_keeps_one_channel :
  fit2_spd (init 1)
  = Some (Ok {| nelec := 1; subelec := Some [1]; dist := [3%Q; 2%Q];
                covmeans := Some centroids2 |}).
Proof. vm_compute. reflexivity. Qed.

Example fit2_spd_target_zero :
  fit2_spd (init 0) = Some (Err (Raised "distance")).
Proof. vm_compute. reflexivity. Qed.

Example fit2_spd_negative_target :
  fit2_spd (init (-1)) = Some (Err (Raised "distance")).
Proof. vm_compute. reflexivity. Qed.

Example fit2_target_zero :
  fit2 (init 0)
  = Some (Ok {| nelec := 0; subelec := Some []; dist := [3%Q; 2%Q; 0%Q];
                covmeans := Some centroids2 |}).
Proof. vm_compute. reflexivity. Qed.


Lemma distance_spd_answers (cand : list nat) (A B : matrix) :
  (1 <= Z.of_nat (length cand))%Z ->
  exists d, distance_spd (restrict A cand) (restrict B cand) = Ok d.
Proof.
  intros H. destruct cand as [ | c cand ]; [ cbn in H; lia | ].
  eexists. reflexivity.
Qed.

End Euclid.

Lemma C2_fit_subset_size_and_log_length_witness :
  Euclid.MDM_fit Euclid.X2 Euclid.y2 None
    = hd [] Euclid.centroids2 :: tl Euclid.centroids2 /\
  (0 <= 1 <= Z.of_nat (length (hd [] Euclid.centroids2)))%Z /\
  exists self' sub new,
    Euclid.fit2_spd (init 1) = Some (Ok self') /\
    subelec self' = Some sub /\
    Z.of_nat (length sub) = 1%Z /\
    NoDup sub /\
    (forall c, In c sub -> c < length (hd [] Euclid.centroids2)) /\
    dist self' = [] ++ new /\
    length new = length (hd [] Euclid.centroids2) - Z.to_nat 1.
Proof.
  split; [ reflexivity | ].
  split; [ cbn; lia | ].
  destruct (@C2_fit_subset_size_and_log_length
              Euclid.MDM_fit Euclid.distance_spd (init 1) Euclid.X2 Euclid.y2 None
              (hd [] Euclid.centroids2) (tl Euclid.centroids2))
    as [Hshape Hreturns].
  - reflexivity.
  - cbn. lia.
  - destruct Hreturns as [self' Hs].
    + intros cand A B Hc. apply Euclid.distance_spd_answers. exact Hc.
    + destruct (Hshape self' Hs) as (sub & new & H).
      exists self', sub, new. split; [ exact Hs | exact H ].
Defined.

Lemma C6_elim_step_keeps_first_best_candidate_witness :
  channels_of Euclid.centroids2 Euclid.all3 /\
  exists torm s ds,
    torm < 3 /\
    elim_step Euclid.distance Euclid.centroids2 Euclid.all3 []
      = Ok (pop torm Euclid.all3, [] ++ [s]) /\
    score Euclid.distance Euclid.centroids2 (pop torm Euclid.all3) = Ok s /\
    pair_distances Euclid.distance Euclid.centroids2 (pop torm Euclid.all3) ds /\
    (s == Qsum ds)%Q.
Proof.
  assert (Hch : channels_of Euclid.centroids2 Euclid.all3)
    by (vm_compute; repeat constructor).
  split; [ exact Hch | ].
  destruct (@C6_elim_step_keeps_first_best_candidate
              Euclid.distance Euclid.centroids2 Euclid.all3 [] Hch)
    as (Hscore & Hstep & Hreturns).
  destruct Hreturns as [[sub' log'] Hr].
  - discriminate.
  - intros idx _. eexists. reflexivity.
  - destruct (Hstep sub' log' Hr) as (torm & s & Ht & -> & -> & Hs & _).
    destruct (Hscore torm s Hs) as (ds & Hds & Hq).
    exists torm, s, ds. repeat split; assumption.
Defined.

Lemma C8_identity_subset_when_nothing_to_remove_witness :
  Euclid.fit2 (init 3)
    = Some (Ok {| nelec := 3; subelec := Some (range 3); dist := [];
                  covmeans := Some Euclid.centroids2 |}) /\
  transform (init 2) Euclid.X2
    = Ok ({| nelec := 2; subelec := Some (range 3); dist := [];
             covmeans := None |}, Euclid.X2).
Proof.
  destruct (C8_identity_subset_when_nothing_to_remove Euclid.MDM_fit Euclid.distance)
    as [Hfit Htr].
  split.
  - apply (Hfit (init 3) Euclid.X2 Euclid.y2 None
                (hd [] Euclid.centroids2) (tl Euclid.centroids2)).
    + reflexivity.
    + cbn. lia.
  - apply (Htr (init 2) Euclid.X2).
    + reflexivity.
    + repeat constructor.
Defined.

(** ** The further properties on the example *)

Definition fitted2 : ElectrodeSelection :=
  {| nelec := 2; subelec := Some [0; 1]; dist := [3%Q];
     covmeans := Some Euclid.centroids2 |}.

Definition one_class : option (list Z) := Some [0; 0]%Z.

Definition centroid1 : matrix := hd [] (Euclid.MDM_fit Euclid.X2 one_class None).


Lemma fit_extends_log_witness :
  Euclid.fit2 fitted2
    = Some (Ok {| nelec := 2; subelec := Some [0; 1]; dist := [3%Q; 3%Q];
                  covmeans := Some Euclid.centroids2 |}) /\
  exists new, [3%Q; 3%Q] = dist fitted2 ++ new.
Proof.
  split; [ vm_compute; reflexivity | ].
  apply (@fit_extends_log
           Euclid.MDM_fit Euclid.distance fitted2
           {| nelec := 2; subelec := Some [0; 1]; dist := [3%Q; 3%Q];
              covmeans := Some Euclid.centroids2 |}
           Euclid.X2 Euclid.y2 None).
  vm_compute. reflexivity.
Defined.

Lemma fit_subset_ascending_witness :
  Euclid.fit2 (init 2) = Some (Ok fitted2) /\
  exists sub, subelec fitted2 = Some sub /\ StronglySorted lt sub.
Proof.
  split; [ vm_compute; reflexivity | ].
  apply (@fit_subset_ascending
           Euclid.MDM_fit Euclid.distance (init 2) fitted2
           Euclid.X2 Euclid.y2 None).
  vm_compute. reflexivity.
Defined.

Lemma fit_single_class_keeps_last_channels_witness :
  Euclid.MDM_fit Euclid.X2 one_class None = [centroid1] /\
  (0 <= nelec (init 1) <= Z.of_nat (length centroid1))%Z /\
  fit Euclid.MDM_fit Euclid.distance (init 1) Euclid.X2 one_class None
  = Some (Ok {| nelec := 1;
                subelec := Some (seq (length centroid1 - Z.to_nat 1) (Z.to_nat 1));
                dist := [] ++ repeat 0%Q (length centroid1 - Z.to_nat 1);
                covmeans := Some [centroid1] |}).
Proof.
  split; [ reflexivity | ]. split; [ cbn; lia | ].
  apply (@fit_single_class_keeps_last_channels
           Euclid.MDM_fit Euclid.distance (init 1) Euclid.X2 one_class None
           centroid1).
  - reflexivity.
  - cbn. lia.
Defined.

Lemma transform_selects_rows_and_columns_witness :
  subelec fitted2 = Some [0; 1] /\
  Forall (fun i => i < n_channels Euclid.X2) [0; 1] /\
  exists self' X',
    transform fitted2 Euclid.X2 = Ok (self', X') /\
    subelec self' = Some [0; 1] /\ nelec self' = nelec fitted2 /\
    dist self' = dist fitted2 /\ covmeans self' = covmeans fitted2 /\
    n_channels X' = length [0; 1] /\
    length (trials X') = length (trials Euclid.X2) /\
    forall t a b,
      t < length (trials Euclid.X2) -> a < length [0; 1] -> b < length [0; 1] ->
      nth b (nth a (nth t (trials X') []) []) 0%Q
      = nth (nth b [0; 1] 0) (nth (nth a [0; 1] 0) (nth t (trials Euclid.X2) []) []) 0%Q.
Proof.
  split; [ reflexivity | ].
  split; [ repeat constructor | ].
  apply (@transform_selects_rows_and_columns fitted2 Euclid.X2 [0; 1]).
  - reflexivity.
  - repeat constructor.
Defined.

Definition two_channels : ndarray3 :=
  {| n_channels := 2; trials := [ [[2; 0]; [0; 1]] ]%Q |}.

Lemma transform_before_fit_pins_the_width_witness :
  subelec (init 2) = None /\
  transform (init 2) Euclid.X2
    = Ok ({| nelec := 2; subelec := Some (range 3); dist := [];
             covmeans := None |}, Euclid.X2) /\
  transform {| nelec := 2; subelec := Some (range 3); dist := [];
               covmeans := None |} two_channels
    = Err (IndexError "index is out of bounds").
Proof.
  split; [ reflexivity | ].
  split; [ vm_compute; reflexivity | ].
  apply (@transform_before_fit_pins_the_width
           (init 2)
           {| nelec := 2; subelec := Some (range 3); dist := [];
              covmeans := None |}
           Euclid.X2 Euclid.X2 two_channels).
  - reflexivity.
  - vm_compute. reflexivity.
  - cbn. lia.
Defined.

End ChannelSelection.

(* ================================================================== *)
(** * Binary64 numbers

    The two comparisons of the clustering loop are made on Python floats.
    A float is rendered by the rational it denotes, and an arithmetic
    result by the binary64 number nearest to the exact result, ties to
    even. The exponent range is bounded below (subnormal numbers) and not
    above: the numbers rounded here are a tolerance, one minus a tolerance
    and a fraction of [[0, 1]], far from the overflow threshold. *)

Module Binary64.

(** [2^e] for an integer [e] of either sign *)
Definition pow2 (e : Z) : Q := Qpower 2 e.

(** Nearest integer, ties to the even one. *)
Definition round_half_even (q : Q) : Z :=
  let f := Qfloor q in
  match Qcompare (q - inject_Z f) (1 # 2) with
  | Lt => f
  | Gt => (f + 1)%Z
  | Eq => if Z.even f then f else (f + 1)%Z
  end.

(** The binary exponent of a positive rational [a]: [2^e <= a < 2^(e+1)]. *)
Definition exponent (a : Q) : Z :=
  let e0 := (Z.log2 (Qnum a) - Z.log2 (Zpos (Qden a)))%Z in
  if Qle_bool (pow2 e0) a then e0 else (e0 - 1)%Z.

(** The unit in the last place of the binary64 numbers around a positive
    [a]: 53 significant bits, exponents from [-1022] up. *)
Definition ulp (a : Q) : Q := pow2 (Z.max (exponent a) (-1022) - 52).

Definition round_pos (a : Q) : Q :=
  (inject_Z (round_half_even (a / ulp a)) * ulp a)%Q.

(** The binary64 number nearest to [q], ties to even. *)
Definition round (q : Q) : Q :=
  match Qcompare q 0 with
  | Eq => 0%Q
  | Gt => Qred (round_pos q)
  | Lt => Qred (- round_pos (- q))
  end.


Lemma pow2_pos (e : Z) : (0 < pow2 e)%Q.
Proof. unfold pow2. apply Qpower_0_lt. reflexivity. Qed.

Lemma pow2_plus (a b : Z) : (pow2 (a + b) == pow2 a * pow2 b)%Q.
Proof. unfold pow2. apply Qpower_plus. discriminate. Qed.

Lemma pow2_nonneg_Z (e : Z) : (0 <= e)%Z -> (pow2 e == inject_Z (2 ^ e))%Q.
Proof.
  intros H. unfold pow2. rewrite Zpower_Qpower by exact H. reflexivity.
Qed.

Lemma pow2_ge_1 (e : Z) : (0 <= e)%Z -> (1 <= pow2 e)%Q.
Proof.
  intros H. rewrite pow2_nonneg_Z by exact H.
  change 1%Q with (inject_Z 1). rewrite <- Zle_Qle.
  pose proof (Z.pow_pos_nonneg 2 e ltac:(lia) H). lia.
Qed.

Lemma round_half_even_ge_floor (q : Q) : (Qfloor q <= round_half_even q)%Z.
Proof.
  unfold round_half_even.
  destruct (Qcompare _ _); [ destruct (Z.even _) | | ]; lia.
Qed.

Lemma round_half_even_lower (q : Q) (K : Z) :
  (inject_Z K <= q)%Q -> (K <= round_half_even q)%Z.
Proof.
  intros H. apply Qfloor_resp_le in H. rewrite Qfloor_Z in H.
  pose proof (round_half_even_ge_floor q). lia.
Qed.

Lemma round_half_even_upper (q : Q) (K : Z) :
  (q <= inject_Z K)%Q -> (round_half_even q <= K)%Z.
Proof.
  intros H. pose proof (Qfloor_resp_le _ _ H) as Hf. rewrite Qfloor_Z in Hf.
  unfold round_half_even.
  destruct (Z.eq_dec (Qfloor q) K) as [E | E].
  - assert (Hlt : (q - inject_Z (Qfloor q) < 1 # 2)%Q).
    { rewrite E. apply Qle_lt_trans with (y := 0%Q); [ | reflexivity ].
      apply (Qplus_le_l _ _ (inject_Z K)). ring_simplify. exact H. }
    destruct (Qcompare (q - inject_Z (Qfloor q)) (1 # 2)) eqn:E0.
    + apply Qeq_alt in E0. rewrite E0 in Hlt. discriminate.
    + lia.
    + apply Qgt_alt in E0. exfalso. exact (Qlt_irrefl _ (Qlt_trans _ _ _ Hlt E0)).
  - destruct (Qcompare _ _); [ destruct (Z.even _) | | ]; lia.
Qed.

(** The rounded integer is within one half of the number. *)
Lemma round_half_even_nearest (q : Q) :
  (inject_Z (round_half_even q) - (1 # 2) <= q)%Q /\
  (q <= inject_Z (round_half_even q) + (1 # 2))%Q.
Proof.
  pose proof (Qfloor_le q) as Hlo. pose proof (Qlt_floor q) as Hhi.
  rewrite inject_Z_plus in Hhi. change (inject_Z 1) with 1%Q in Hhi.
  unfold round_half_even.
  destruct (Qcompare (q - inject_Z (Qfloor q)) (1 # 2)) eqn:E.
  - apply Qeq_alt in E.
    destruct (Z.even (Qfloor q));
      [ | rewrite inject_Z_plus; change (inject_Z 1) with 1%Q ];
      split; lra.
  - apply Qlt_alt in E. split; lra.
  - apply Qgt_alt in E. rewrite inject_Z_plus. change (inject_Z 1) with 1%Q.
    split; lra.
Qed.

(** The floats of [0.1], of [1e-4], of [1 - 1e-4] and of [1 - 2^-53]; at
    [1 - 3 * 2^-54], half way between two floats, the even one is taken. *)
Example round_tenth :
  round (1 # 10) = (3602879701896397 # 36028797018963968)%Q.
Proof. vm_compute. reflexivity. Qed.

Example round_default_tolerance :
  round (1 # 10000) = (7378697629483821 # 73786976294838206464)%Q /\
  round (1 - round (1 # 10000)) = (4503149267407759 # 4503599627370496)%Q.
Proof. split; vm_compute; reflexivity. Qed.

Example round_below_one :
  round (1 - (1 # 9007199254740992))
    = (9007199254740991 # 9007199254740992)%Q /\
  round (1 - (3 # 18014398509481984))
    = (4503599627370495 # 4503599627370496)%Q /\
  round (1 - (1 # 18014398509481984)) = 1%Q.
Proof. repeat split; vm_compute; reflexivity. Qed.

(** The exponent is at most [0] on [(0, 1]] and at least [0] from [1] on,
    and [2^exponent] never exceeds the number. *)
Lemma exponent_le_0 (a : Q) : (0 < a)%Q -> (a <= 1)%Q -> (exponent a <= 0)%Z.
Proof.
  intros Hpos Hle. unfold exponent.
  assert (Hn : (0 < Qnum a)%Z) by (unfold Qlt in Hpos; cbn in Hpos; lia).
  assert (Hd : (Qnum a <= Zpos (Qden a))%Z)
    by (unfold Qle in Hle; cbn in Hle; lia).
  pose proof (Z.log2_le_mono _ _ Hd).
  destruct (Qle_bool _ _); lia.
Qed.

Lemma exponent_ge_0 (a : Q) : (1 <= a)%Q -> (0 <= exponent a)%Z.
Proof.
  intros Hle. unfold exponent.
  assert (Hd : (Zpos (Qden a) <= Qnum a)%Z)
    by (unfold Qle in Hle; cbn in Hle; lia).
  pose proof (Z.log2_le_mono _ _ Hd) as Hl.
  set (e0 := (Z.log2 (Qnum a) - Z.log2 (Z.pos (Qden a)))%Z) in *.
  destruct (Qle_bool (pow2 e0) a) eqn:E; [ lia | ].
  destruct (Z.eq_dec e0 0) as [E0 | E0]; [ | lia ].
  rewrite E0 in E. apply Qle_bool_iff in Hle.
  change (pow2 0) with 1%Q in E. congruence.
Qed.

Lemma exponent_lower (a : Q) : (0 < a)%Q -> (pow2 (exponent a) <= a)%Q.
Proof.
  intros Hpos. unfold exponent.
  set (ln := Z.log2 (Qnum a)). set (ld := Z.log2 (Z.pos (Qden a))).
  destruct (Qle_bool (pow2 (ln - ld)) a) eqn:E.
  - apply Qle_bool_iff. exact E.
  - assert (Hn : (0 < Qnum a)%Z) by (unfold Qlt in Hpos; cbn in Hpos; lia).
    destruct (Z.log2_spec _ Hn) as [Hn1 _]. fold ln in Hn1.
    destruct (Z.log2_spec (Z.pos (Qden a)) ltac:(lia)) as [_ Hd2]. fold ld in Hd2.
    assert (H0n : (0 <= ln)%Z) by apply Z.log2_nonneg.
    assert (H0d : (0 <= ld)%Z) by apply Z.log2_nonneg.
    replace (ln - ld - 1)%Z with (ln + - (Z.succ ld))%Z by lia.
    rewrite pow2_plus. unfold pow2 at 2. rewrite Qpower_opp.
    fold (pow2 (Z.succ ld)).
    rewrite (@pow2_nonneg_Z _ H0n), (@pow2_nonneg_Z _ (Z.le_le_succ_r _ _ H0d)).
    assert (Hp : (0 < inject_Z (2 ^ Z.succ ld))%Q).
    { change 0%Q with (inject_Z 0). rewrite <- Zlt_Qlt. lia. }
    apply Qle_shift_div_r; [ exact Hp | ].
    destruct a as [n d]. cbn [Qnum Qden] in *.
    unfold Qle, Qmult, inject_Z. cbn [Qnum Qden].
    rewrite Z.mul_1_r, Pos.mul_1_r.
    apply Z.mul_le_mono_nonneg; lia.
Qed.

Lemma round_pos_nonneg (a : Q) : (0 < a)%Q -> (0 <= round_pos a)%Q.
Proof.
  intros Hpos. unfold round_pos.
  apply Qmult_le_0_compat; [ | apply Qlt_le_weak; apply pow2_pos ].
  change 0%Q with (inject_Z 0). rewrite <- Zle_Qle.
  apply round_half_even_lower. cbn.
  apply Qlt_le_weak. apply Qlt_shift_div_l; [ apply pow2_pos | ].
  rewrite Qmult_0_l. exact Hpos.
Qed.

Lemma round_pos_le_1 (a : Q) : (0 < a)%Q -> (a <= 1)%Q -> (round_pos a <= 1)%Q.
Proof.
  intros Hpos Hle. unfold round_pos, ulp.
  pose proof (@exponent_le_0 a Hpos Hle) as He.
  set (e := Z.max (exponent a) (-1022)) in *.
  assert (Hk : (0 <= 52 - e)%Z) by lia.
  assert (Hone : (pow2 (52 - e) * pow2 (e - 52) == 1)%Q).
  { rewrite <- pow2_plus. replace (52 - e + (e - 52))%Z with 0%Z by lia.
    reflexivity. }
  assert (Hm : (round_half_even (a / pow2 (e - 52)) <= 2 ^ (52 - e))%Z).
  { apply round_half_even_upper. rewrite <- (@pow2_nonneg_Z _ Hk).
    apply Qle_shift_div_r; [ apply pow2_pos | ]. rewrite Hone. exact Hle. }
  rewrite <- Hone. rewrite (@pow2_nonneg_Z _ Hk).
  apply Qmult_le_compat_r; [ | apply Qlt_le_weak; apply pow2_pos ].
  rewrite <- Zle_Qle. exact Hm.
Qed.

Lemma round_pos_ge_1 (a : Q) : (1 <= a)%Q -> (1 <= round_pos a)%Q.
Proof.
  intros Hle. unfold round_pos, ulp.
  assert (Hpos : (0 < a)%Q) by (eapply Qlt_le_trans; [ | exact Hle ]; reflexivity).
  pose proof (@exponent_ge_0 a Hle) as He.
  pose proof (@exponent_lower a Hpos) as Hlow.
  replace (Z.max (exponent a) (-1022)) with (exponent a) by lia.
  set (e := exponent a) in *.
  assert (Hsplit : (pow2 e == pow2 52 * pow2 (e - 52))%Q).
  { rewrite <- pow2_plus. replace (52 + (e - 52))%Z with e by lia. reflexivity. }
  assert (Hm : (2 ^ 52 <= round_half_even (a / pow2 (e - 52)))%Z).
  { apply round_half_even_lower. rewrite <- (@pow2_nonneg_Z 52) by lia.
    apply Qle_shift_div_l; [ apply pow2_pos | ]. rewrite <- Hsplit. exact Hlow. }
  apply Qle_trans with (y := pow2 e); [ apply pow2_ge_1; exact He | ].
  rewrite Hsplit. rewrite (@pow2_nonneg_Z 52) by lia.
  apply Qmult_le_compat_r; [ | apply Qlt_le_weak; apply pow2_pos ].
  rewrite <- Zle_Qle. exact Hm.
Qed.

Lemma round_nonpos (q : Q) : (q <= 0)%Q -> (round q <= 0)%Q.
Proof.
  intros H. unfold round. destruct (Qcompare q 0) eqn:E.
  - apply Qle_refl.
  - rewrite Qred_correct. apply Qlt_alt in E.
    setoid_replace 0%Q with (- 0)%Q by reflexivity.
    apply Qopp_le_compat. apply round_pos_nonneg.
    setoid_replace 0%Q with (- 0)%Q by reflexivity.
    apply Qopp_lt_compat. exact E.
  - apply Qgt_alt in E. exfalso. exact (Qlt_not_le _ _ E H).
Qed.

Lemma round_le_1 (q : Q) : (q <= 1)%Q -> (round q <= 1)%Q.
Proof.
  intros H. destruct (Qlt_le_dec 0 q) as [Hpos | Hneg].
  - unfold round. apply Qgt_alt in Hpos. rewrite Hpos. apply Qgt_alt in Hpos.
    rewrite Qred_correct. apply round_pos_le_1; assumption.
  - apply Qle_trans with (y := 0%Q); [ apply round_nonpos; exact Hneg | ].
    discriminate.
Qed.

Lemma round_ge_1 (q : Q) : (1 <= q)%Q -> (1 <= round q)%Q.
Proof.
  intros H.
  assert (Hpos : (0 < q)%Q) by (eapply Qlt_le_trans; [ | exact H ]; reflexivity).
  unfold round. apply Qgt_alt in Hpos. rewrite Hpos.
  rewrite Qred_correct. apply round_pos_ge_1. exact H.
Qed.

End Binary64.

(* ================================================================== *)
(** * clustering.py *)

Module Clustering.

(** The [init] argument of [Kmeans]. The source tests [init is not 'random']
    by identity; CPython interns the literal, so the test is modelled as a
    comparison of tags. *)
Inductive init_t (trial : Type) : Type :=
| init_random
| init_kmeanspp
| init_ndarray (centers : list trial).

Arguments init_random {trial}.
Arguments init_kmeanspp {trial}.
Arguments init_ndarray {trial} centers.

Definition is_random {trial} (i : init_t trial) : bool :=
  match i with init_random => true | _ => false end.

(** Fraction of positions on which two label vectors agree,
    [numpy.mean(labels == old_labels)]; of an empty vector the mean is NaN,
    rendered by [None]. *)
Definition count_equal (a b : list Z) : nat :=
  length (filter (fun p => (fst p =? snd p)%Z) (combine a b)).

Definition mean_equal (a b : list Z) : option Q :=
  match a with
  | [] => None
  | _ :: _ => Some (inject_Z (Z.of_nat (count_equal a b))
                    / inject_Z (Z.of_nat (length a)))%Q
  end.

(** [m > bound] where [m] may be NaN: a comparison with NaN is false. *)
Definition exceeds (m : option Q) (bound : Q) : bool :=
  match m with
  | None => false
  | Some q => negb (Qle_bool q bound)
  end.

(** Monadic map over a list. *)
Fixpoint traverse {A B} (f : A -> res B) (l : list A) : res (list B) :=
  match l with
  | [] => Ok []
  | a :: l' => b <- f a ;; bs <- traverse f l' ;; Ok (b :: bs)
  end.

Module KmeansEngine.

Section Kmeans.

(** One SPD matrix. *)
Variable trial : Type.

(** State of a [numpy.random.RandomState]. *)
Variable rng : Type.

(** The process as far as random numbers go: the global generator of numpy
    and the entropy of the operating system, from which [numpy.random.seed(None)]
    takes a fresh state at each call. *)
Record world : Type := mk_world {
  global_rng : rng;
  urandom : nat -> rng;
  urandom_pos : nat
}.

(** [numpy.random.RandomState(seed)] *)
Variable RandomState : Z -> rng.
(** [randint(high, size=size)] drawn from a generator *)
Variable randint : Z -> Z -> rng -> res (list Z) * rng.
(** The draw of sklearn's [_init_centroids] from a generator *)
Variable init_centroids :
  list trial -> Z -> init_t trial -> list Q -> rng -> res (list trial) * rng.
(** [numpy.linalg.norm(x, ord='fro')] *)
Variable frobenius_norm : trial -> Q.

(** The Centroid Classifier, with the attributes the source assigns. *)
Record MDM : Type := mk_MDM {
  covmeans : list trial;
  classes : list Z
}.

(** [mdm.fit(X, labels)], [mdm._predict_distances(X)], [mdm.predict(X)] *)
Variable MDM_fit : MDM -> list trial -> list Z -> MDM.
Variable MDM_predict_distances : MDM -> list trial -> list (list Q).
Variable MDM_predict : MDM -> list trial -> list Z.

(** [numpy.random.seed(seed)] *)
Definition np_random_seed (seed : option Z) (w : world) : world :=
  match seed with
  | Some s => {| global_rng := RandomState s; urandom := urandom w;
                 urandom_pos := urandom_pos w |}
  | None => {| global_rng := urandom w (urandom_pos w); urandom := urandom w;
               urandom_pos := S (urandom_pos w) |}
  end.

(** [numpy.random.randint(high, size=size)] on the global generator *)
Definition np_random_randint (high size : Z) (w : world) : res (list Z) * world :=
  let (r, g) := randint high size (global_rng w) in
  (r, {| global_rng := g; urandom := urandom w; urandom_pos := urandom_pos w |}).

(** [_init_centroids(X, k, init, random_state=..., x_squared_norms=...)]:
    sklearn's [check_random_state] turns an integer into a private generator
    seeded with it and [None] into the global generator. *)
Definition _init_centroids (X : list trial) (k : Z) (init : init_t trial)
           (random_state : option Z) (norms : list Q) (w : world)
  : res (list trial) * world :=
  match random_state with
  | Some s => (fst (init_centroids X k init norms (RandomState s)), w)
  | None =>
      let (r, g) := init_centroids X k init norms (global_rng w) in
      (r, {| global_rng := g; urandom := urandom w; urandom_pos := urandom_pos w |})
  end.

(** [mdm.classes[dist.argmin(axis=1)]] *)
Definition nearest_labels (cls : list Z) (dist : list (list Q)) : res (list Z) :=
  traverse (fun row =>
              i <- argmin row ;;
              match nth_error cls i with
              | Some c => Ok c
              | None => Err (IndexError "index out of bounds")
              end) dist.

(** Loop state: the classifier, the current labels, the last distance matrix
    and the labels of the previous pass. *)
Record lloyd : Type := mk_lloyd {
  l_mdm : MDM;
  l_labels : list Z;
  l_dist : list (list Q);
  l_old_labels : list Z
}.

(** Body of the [while True] loop, up to the increment of [k]. *)
Definition lloyd_body (X : list trial) (st : lloyd) : res lloyd :=
  let old_labels := l_labels st in
  let mdm := MDM_fit (l_mdm st) X old_labels in
  let dist := MDM_predict_distances mdm X in
  labels <- nearest_labels (classes mdm) dist ;;
  Ok {| l_mdm := mdm; l_labels := labels; l_dist := dist;
        l_old_labels := old_labels |}.

(** [(k > max_iter) | (numpy.mean(labels == old_labels) > (1 - tol))], on
    binary64 numbers: the mean is the rounded quotient of the count by the
    length, [tol] the float of the given tolerance and [1 - tol] the rounded
    difference. *)
Definition stop_test (max_iter : Z) (tol : Q) (k : nat) (st : lloyd) : bool :=
  (Z.of_nat k >? max_iter)%Z
  || exceeds (option_map Binary64.round
                         (mean_equal (l_labels st) (l_old_labels st)))
             (Binary64.round (1 - Binary64.round tol)).

(** The [while True] loop. [None]: the fuel ran out before the [break]. *)
Fixpoint lloyd_loop (fuel : nat) (X : list trial) (max_iter : Z) (tol : Q)
         (k : nat) (st : lloyd) : option (res (nat * lloyd)) :=
  match fuel with
  | O => None
  | S fuel' =>
      match lloyd_body X st with
      | Err e => Some (Err e)
      | Ok st' =>
          let k' := S k in
          if stop_test max_iter tol k' st' then Some (Ok (k', st'))
          else lloyd_loop fuel' X max_iter tol k' st'
      end
  end.

(** [sum([sum(dist[labels == mdm.classes[i], i]) for i in range(len(mdm.classes))])] *)
Definition column_sum (dist : list (list Q)) (mask : list bool) (i : nat) : res Q :=
  rows <- traverse (fun row =>
                      match nth_error row i with
                      | Some d => Ok d
                      | None => Err (IndexError "index out of bounds")
                      end) (mask_select dist mask) ;;
  Ok (fold_left Qplus rows 0%Q).

Definition inertia_of (st : lloyd) : res Q :=
  let cls := classes (l_mdm st) in
  sums <- traverse (fun i =>
                      column_sum (l_dist st)
                        (map (fun l => (l =? nth i cls 0%Z)%Z) (l_labels st)) i)
                   (range (length cls)) ;;
  Ok (fold_left Qplus sums 0%Q).

(** What one run returns: [(labels, inertia, mdm)]. *)
Definition run_result : Type := (list Z * Q * MDM)%type.

(** [_fit_single]. The loop gets [max_iter + 1] units of fuel (one when
    [max_iter] is negative). *)
Definition _fit_single (X : list trial) (y : option (list Z)) (n_clusters : Z)
           (init : init_t trial) (random_state : option Z)
           (max_iter : Z) (tol : Q) (w : world)
  : option (res run_result) * world :=
  let squared_norms := map (fun x => (frobenius_norm x * frobenius_norm x)%Q) X in
  let (c, w') := _init_centroids X n_clusters init random_state squared_norms w in
  match c with
  | Err e => (Some (Err e), w')
  | Ok centers =>
      let mdm := {| covmeans := centers;
                    classes := match y with
                               | Some labels => unique labels
                               | None => arange n_clusters
                               end |} in
      let labels := MDM_predict mdm X in
      let st := {| l_mdm := mdm; l_labels := labels; l_dist := [];
                   l_old_labels := [] |} in
      match lloyd_loop (S (Z.to_nat max_iter)) X max_iter tol 0 st with
      | None => (None, w')
      | Some (Err e) => (Some (Err e), w')
      | Some (Ok (_, st')) =>
          match inertia_of st' with
          | Err e => (Some (Err e), w')
          | Ok inertia => (Some (Ok (l_labels st', inertia, l_mdm st')), w')
          end
      end
  end.

(** ** The assignment loop of one run *)

(** [n] passes of the loop body, without the exit test. *)
Fixpoint lloyd_iter (X : list trial) (n : nat) (st : lloyd) : res lloyd :=
  match n with
  | O => Ok st
  | S n' => st' <- lloyd_body X st ;; lloyd_iter X n' st'
  end.

(** ** The loop in the words of the specification *)

(** Number of positions at which the label of this pass is the label of the
    previous pass. *)
Fixpoint unchanged (old new : list Z) : nat :=
  match old, new with
  | o :: old', n :: new' =>
      (if (n =? o)%Z then 1 else 0) + unchanged old' new'
  | _, _ => 0
  end.

(** The fraction of trials whose label is unchanged from the previous
    pass. *)
Definition unchanged_fraction (old new : list Z) : Q :=
  (inject_Z (Z.of_nat (unchanged old new))
   / inject_Z (Z.of_nat (length new)))%Q.

(** The exit condition after pass [k], on the floats the source compares:
    the pass count exceeds [max_iter], or the fraction of unchanged labels
    exceeds [1 - tol]. There is no fraction of an empty label vector. *)
Definition exit_condition (max_iter : Z) (tol : Q) (k : nat)
           (old new : list Z) : Prop :=
  (max_iter < Z.of_nat k)%Z \/
  (new <> [] /\
   (Binary64.round (1 - Binary64.round tol)
    < Binary64.round (unchanged_fraction old new))%Q).

(** The same condition on exact numbers. *)
Definition exit_condition_exact (max_iter : Z) (tol : Q) (k : nat)
           (old new : list Z) : Prop :=
  (max_iter < Z.of_nat k)%Z \/
  (new <> [] /\ (1 - tol < unchanged_fraction old new)%Q).

(** [next] is what one pass makes of [prev]: the classifier re-estimated on
    the labels of [prev], its distances to the trials, for every trial the
    class of the nearest centroid (the first one among equals), and the
    labels of [prev] kept as the labels of the previous pass. *)
Definition one_pass (X : list trial) (prev next : lloyd) : Prop :=
  l_mdm next = MDM_fit (l_mdm prev) X (l_labels prev) /\
  l_dist next = MDM_predict_distances (l_mdm next) X /\
  Forall2 (fun row l =>
             exists i, argmin row = Ok i /\
                       nth_error (classes (l_mdm next)) i = Some l)
          (l_dist next) (l_labels next) /\
  l_old_labels next = l_labels prev.

(** [trace] lists the states after the passes [k + 1], [k + 2], ... that
    follow the state [prev]: each state is one pass from the state before
    it, and the exit condition holds after the last pass of the list and
    after no earlier one. *)
Fixpoint run_trace (X : list trial) (max_iter : Z) (tol : Q) (k : nat)
         (prev : lloyd) (trace : list lloyd) : Prop :=
  match trace with
  | [] => True
  | s :: rest =>
      one_pass X prev s /\
      (exit_condition max_iter tol (S k) (l_labels prev) (l_labels s)
       <-> rest = []) /\
      run_trace X max_iter tol (S k) s rest
  end.

Lemma traverse_spec {A B} (f : A -> res B) :
  forall l bs, traverse f l = Ok bs -> Forall2 (fun a b => f a = Ok b) l bs.
Proof.
  induction l as [ | a l IH ]; intros bs H; cbn in H.
  - inversion H. constructor.
  - destruct (f a) as [b | ] eqn:Hb; cbn [bind] in H; [ | discriminate ].
    destruct (traverse f l) as [bs' | ]; cbn [bind] in H; [ | discriminate ].
    inversion H; subst. constructor; [ exact Hb | apply IH; reflexivity ].
Qed.

Lemma Forall2_In_r {A B} (P : A -> B -> Prop) (l1 : list A) (l2 : list B) (b : B) :
  Forall2 P l1 l2 -> In b l2 -> exists a, In a l1 /\ P a b.
Proof.
  induction 1 as [ | a0 b0 l1 l2 Hab HF IH ]; intros Hin; [ contradiction | ].
  destruct Hin as [-> | Hin].
  - exists a0. split; [ left; reflexivity | exact Hab ].
  - destruct (IH Hin) as (a & Ha & HP). exists a. split; [ right; exact Ha | exact HP ].
Qed.

Lemma count_equal_unchanged (a b : list Z) : count_equal a b = unchanged b a.
Proof.
  unfold count_equal. revert b.
  induction a as [ | x a IH ]; intros [ | y b ]; cbn; try reflexivity.
  destruct (x =? y)%Z; cbn; rewrite IH; reflexivity.
Qed.

Lemma mean_equal_fraction (a b : list Z) :
  a <> [] -> mean_equal a b = Some (unchanged_fraction b a).
Proof.
  destruct a as [ | x a ]; [ congruence | ]. intros _.
  unfold mean_equal, unchanged_fraction. rewrite count_equal_unchanged.
  reflexivity.
Qed.

Lemma stop_test_spec (max_iter : Z) (tol : Q) (k : nat) (st : lloyd) :
  stop_test max_iter tol k st = true
  <-> exit_condition max_iter tol k (l_old_labels st) (l_labels st).
Proof.
  unfold stop_test, exit_condition, exceeds. rewrite orb_true_iff.
  destruct (l_labels st) as [ | x ls ] eqn:El.
  - cbn. split.
    + intros [H | H]; [ left; apply Z.gtb_lt in H; exact H | discriminate ].
    + intros [H | [H _]]; [ left; apply Z.gtb_lt; exact H | congruence ].
  - rewrite mean_equal_fraction by discriminate. cbn [option_map]. split.
    + intros [H | H].
      * left. apply Z.gtb_lt in H. exact H.
      * right. split; [ discriminate | ].
        apply Qnot_le_lt. intros Hle. apply Qle_bool_iff in Hle.
        rewrite Hle in H. discriminate.
    + intros [H | [_ Hlt]].
      * left. apply Z.gtb_lt. exact H.
      * right. apply negb_true_iff.
        destruct (Qle_bool _ _) eqn:E; [ | reflexivity ].
        apply Qle_bool_iff in E. exfalso. exact (Qlt_not_le _ _ Hlt E).
Qed.

Lemma lloyd_body_one_pass (X : list trial) (prev next : lloyd) :
  lloyd_body X prev = Ok next -> one_pass X prev next.
Proof.
  unfold lloyd_body, one_pass. intros H.
  destruct (nearest_labels _ _) as [ls | ] eqn:Hn; cbn [bind] in H;
    [ | discriminate ].
  inversion H; subst. clear H. cbn.
  repeat split. unfold nearest_labels in Hn. apply traverse_spec in Hn.
  eapply Forall2_impl; [ | exact Hn ].
  intros row l Hrow. cbn in Hrow.
  destruct (argmin row) as [i | ]; cbn [bind] in Hrow; [ | discriminate ].
  destruct (nth_error _ i) as [c | ] eqn:Hc; [ | discriminate ].
  inversion Hrow; subst. exists i. split; [ reflexivity | exact Hc ].
Qed.

Lemma lloyd_loop_returns (X : list trial) (max_iter : Z) (tol : Q) :
  forall fuel k st,
    Z.to_nat max_iter <= k + fuel ->
    lloyd_loop (S fuel) X max_iter tol k st <> None.
Proof.
  induction fuel as [ | fuel IH ]; intros k st Hk.
  - cbn. destruct (lloyd_body X st) as [st' | e]; [ | discriminate ].
    destruct (stop_test max_iter tol (S k) st') eqn:Hs; [ discriminate | ].
    unfold stop_test in Hs. apply orb_false_iff in Hs. destruct Hs as [Hs _].
    destruct (Z.gtb_spec (Z.of_nat (S k)) max_iter); [ discriminate | lia ].
  - cbn [lloyd_loop].
    destruct (lloyd_body X st) as [st' | e]; [ | discriminate ].
    destruct (stop_test max_iter tol (S k) st'); [ discriminate | ].
    apply IH. lia.
Qed.

Lemma lloyd_loop_exit (X : list trial) (max_iter : Z) (tol : Q) :
  forall fuel k st k' st',
    lloyd_loop fuel X max_iter tol k st = Some (Ok (k', st')) ->
    exists n,
      k' = k + S n /\
      lloyd_iter X (S n) st = Ok st' /\
      stop_test max_iter tol k' st' = true /\
      forall j, j < n ->
        exists sj, lloyd_iter X (S j) st = Ok sj /\
                   stop_test max_iter tol (k + S j) sj = false.
Proof.
  induction fuel as [ | fuel IH ]; intros k st k' st' H; [ discriminate | ].
  cbn [lloyd_loop] in H.
  destruct (lloyd_body X st) as [s1 | e] eqn:Hb; [ | discriminate ].
  destruct (stop_test max_iter tol (S k) s1) eqn:Hs.
  - inversion H; subst. exists 0. repeat split.
    + lia.
    + cbn. rewrite Hb. reflexivity.
    + exact Hs.
    + intros j Hj. lia.
  - destruct (IH _ _ _ _ H) as (n & Hk & Hit & Hstop & Hbefore).
    exists (S n). repeat split.
    + lia.
    + cbn [lloyd_iter]. rewrite Hb. exact Hit.
    + exact Hstop.
    + intros [ | j ] Hj.
      * exists s1. split; [ cbn; rewrite Hb; reflexivity | ].
        replace (k + 1) with (S k) by lia. exact Hs.
      * destruct (Hbefore j) as (sj & Hsj & Hf); [ lia | ].
        exists sj. split.
        -- cbn [lloyd_iter]. rewrite Hb. exact Hsj.
        -- replace (k + S (S j)) with (S k + S j) by lia. exact Hf.
Qed.

Lemma last_cons_default {A} (l : list A) (a d d' : A) :
  last (a :: l) d = last (a :: l) d'.
Proof.
  revert a. induction l as [ | b l IH ]; intros a; [ reflexivity | ].
  change (last (b :: l) d = last (b :: l) d'). apply IH.
Qed.

Lemma lloyd_loop_trace (X : list trial) (max_iter : Z) (tol : Q) :
  forall fuel k st k' st',
    lloyd_loop fuel X max_iter tol k st = Some (Ok (k', st')) ->
    exists trace,
      trace <> [] /\ k' = k + length trace /\ last trace st = st' /\
      run_trace X max_iter tol k st trace.
Proof.
  induction fuel as [ | fuel IH ]; intros k st k' st' H; [ discriminate | ].
  cbn [lloyd_loop] in H.
  destruct (lloyd_body X st) as [s1 | e] eqn:Hb; [ | discriminate ].
  pose proof (lloyd_body_one_pass _ _ Hb) as Hpass.
  assert (Hold : l_old_labels s1 = l_labels st) by apply Hpass.
  destruct (stop_test max_iter tol (S k) s1) eqn:Hs.
  - injection H as Hk' Hst'. subst k' st'. exists [s1]. cbn.
    split; [ discriminate | ]. split; [ lia | ]. split; [ reflexivity | ].
    split; [ exact Hpass | ]. split; [ | exact I ].
    split; [ reflexivity | ].
    intros _. rewrite <- Hold. apply stop_test_spec. exact Hs.
  - destruct (IH _ _ _ _ H) as (trace & Hne & Hk & Hlast & Hrun).
    exists (s1 :: trace). cbn [length run_trace].
    split; [ discriminate | ]. split; [ lia | ].
    split; [ destruct trace as [ | s2 trace ]; [ congruence | ] | ].
    { rewrite <- Hlast. apply (last_cons_default trace s2 st s1). }
    split; [ exact Hpass | ]. split; [ | exact Hrun ].
    split.
    + intros Hc. rewrite <- Hold in Hc. apply stop_test_spec in Hc. congruence.
    + intros Hnil. congruence.
Qed.

(** C7. The assignment loop of a single run terminates: with the fuel that
    [_fit_single] gives it ([max_iter + 1] passes) it always comes back,
    with labels or with an exception of the nearest-centroid assignment.
    When it comes back with labels after [k] passes, it has made [k >= 1]
    passes, each one re-estimating the centroids on the labels of the pass
    before and relabelling every trial by its nearest centroid, and it has
    stopped at the first pass after which the pass count exceeds [max_iter]
    or the fraction of trials whose label is unchanged from the previous
    pass exceeds [1 - tol]; the two numbers compared are the binary64
    values of the fraction and of [1 - tol]. *)
Theorem C7_lloyd_loop_terminates_at_first_exit_condition
        (X : list trial) (max_iter : Z) (tol : Q) (st0 : lloyd) :
  (exists r, lloyd_loop (S (Z.to_nat max_iter)) X max_iter tol 0 st0 = Some r)
  /\
  (forall fuel k st,
      lloyd_loop fuel X max_iter tol 0 st0 = Some (Ok (k, st)) ->
      exists trace,
        1 <= k /\ length trace = k /\ last trace st0 = st /\
        run_trace X max_iter tol 0 st0 trace).
Proof.
  split.
  - pose proof (@lloyd_loop_returns X max_iter tol (Z.to_nat max_iter) 0 st0
                  (Nat.le_refl _)) as H.
    destruct (lloyd_loop _ _ _ _ _ _) as [r | ]; [ exists r; reflexivity | congruence ].
  - intros fuel k st H.
    destruct (lloyd_loop_trace _ _ _ _ _ _ H) as (trace & Hne & Hk & Hlast & Hrun).
    exists trace. cbn in Hk. subst k.
    split; [ destruct trace; [ congruence | cbn; lia ] | ].
    split; [ reflexivity | ]. split; assumption.
Qed.

(** [_fit_single] always comes back. *)
Lemma fit_single_returns (X : list trial) (y : option (list Z)) (k : Z)
      (i : init_t trial) (rs : option Z) (max_iter : Z) (tol : Q) (w : world) :
  fst (_fit_single X y k i rs max_iter tol w) <> None.
Proof.
  unfold _fit_single.
  destruct (_init_centroids _ _ _ _ _ _) as [[centers | e] w']; cbn [fst];
    [ | discriminate ].
  match goal with
  | |- context [ lloyd_loop ?f ?x ?m ?t ?k0 ?s ] =>
      pose proof (@lloyd_loop_returns x m t (Z.to_nat max_iter) k0 s (Nat.le_refl _)) as H;
      destruct (lloyd_loop f x m t k0 s) as [ [ [k' st'] | e ] | ]
  end; cbn [fst]; try discriminate; try congruence.
  destruct (inertia_of st'); cbn; discriminate.
Qed.


(** ** Further properties of the single run *)

Lemma count_equal_le (a b : list Z) : count_equal a b <= length a.
Proof.
  unfold count_equal.
  eapply Nat.le_trans; [ apply filter_length_le | ].
  rewrite length_combine. apply Nat.le_min_l.
Qed.

(** The fraction of unchanged labels never exceeds one. *)
Lemma mean_equal_le_1 (a b : list Z) (m : Q) :
  mean_equal a b = Some m -> (m <= 1)%Q.
Proof.
  destruct a as [ | x a ]; [ discriminate | ].
  unfold mean_equal. intros H. inversion H. clear H.
  set (n := length (x :: a)).
  pose proof (count_equal_le (x :: a) b) as Hc. fold n in Hc.
  assert (Hn : (0 < inject_Z (Z.of_nat n))%Q).
  { change 0%Q with (inject_Z 0). rewrite <- Zlt_Qlt. unfold n. cbn [length]. lia. }
  apply Qle_shift_div_r; [ exact Hn | ].
  rewrite Qmult_1_l. rewrite <- Zle_Qle.
  change (Z.pos (Pos.of_succ_nat (length a))) with (Z.of_nat n). lia.
Qed.

Lemma lloyd_loop_passes_bounded
      (fuel : nat) (X : list trial) (max_iter : Z) (tol : Q)
      (st0 st : lloyd) (k : nat) :
  lloyd_loop fuel X max_iter tol 0 st0 = Some (Ok (k, st)) ->
  1 <= k /\ (Z.of_nat k <= Z.max 1 (max_iter + 1))%Z.
Proof.
  intros H.
  destruct (lloyd_loop_exit _ _ _ _ _ _ H) as (n & Hk & _ & _ & Hbefore).
  cbn in Hk. subst k. split; [ lia | ].
  destruct n as [ | n ]; [ lia | ].
  destruct (Hbefore n) as (sj & _ & Hf); [ lia | ].
  unfold stop_test in Hf. apply orb_false_iff in Hf. destruct Hf as [Hf _].
  cbn [Nat.add] in Hf.
  destruct (Z.gtb_spec (Z.of_nat (S n)) max_iter); [ discriminate | lia ].
Qed.

(** The loop makes at least one pass and at most [max_iter + 1] passes: the
    counter is tested after the pass, with [k > max_iter]. *)
Theorem lloyd_loop_pass_count
        (fuel : nat) (X : list trial) (max_iter : Z) (tol : Q)
        (st0 st : lloyd) (k : nat) :
  lloyd_loop fuel X max_iter tol 0 st0 = Some (Ok (k, st)) ->
  1 <= k /\ (Z.of_nat k <= Z.max 1 (max_iter + 1))%Z.
Proof.
  intros H. eapply lloyd_loop_passes_bounded. exact H.
Qed.

(** With [tol <= 0] (in particular [tol = 0]) the stability test can never
    fire, since a fraction is at most one: the loop always makes exactly
    [max_iter + 1] passes (one pass when [max_iter] is negative), also when
    the labels stopped changing long before. *)
Theorem lloyd_loop_without_tolerance_runs_all_passes
        (fuel : nat) (X : list trial) (max_iter : Z) (tol : Q)
        (st0 st : lloyd) (k : nat) :
  (tol <= 0)%Q ->
  lloyd_loop fuel X max_iter tol 0 st0 = Some (Ok (k, st)) ->
  Z.of_nat k = Z.max 1 (max_iter + 1).
Proof.
  intros Htol H.
  destruct (lloyd_loop_passes_bounded _ _ _ _ _ H) as [H1 Hmax].
  destruct (lloyd_loop_exit _ _ _ _ _ _ H) as (n & Hk & _ & Hstop & _).
  apply stop_test_spec in Hstop. destruct Hstop as [Hgt | [Hne Hlt]].
  - lia.
  - exfalso.
    pose proof (mean_equal_fraction (l_old_labels st) Hne) as Hm.
    apply mean_equal_le_1 in Hm. apply Binary64.round_le_1 in Hm.
    assert (Hb : (1 <= Binary64.round (1 - Binary64.round tol))%Q).
    { apply Binary64.round_ge_1. apply Binary64.round_nonpos in Htol.
      setoid_replace 1%Q with (1 - 0)%Q at 1 by ring.
      apply Qplus_le_r. apply Qopp_le_compat. exact Htol. }
    apply (Qlt_irrefl 1).
    eapply Qle_lt_trans; [ exact Hb | ].
    eapply Qlt_le_trans; [ exact Hlt | exact Hm ].
Qed.

Lemma nearest_labels_spec (cls : list Z) (dist : list (list Q)) (ls : list Z) :
  nearest_labels cls dist = Ok ls ->
  length ls = length dist /\ Forall (fun l => In l cls) ls.
Proof.
  unfold nearest_labels. intros H. apply traverse_spec in H. split.
  - symmetry. eapply Forall2_length. exact H.
  - apply Forall_forall. intros l Hl.
    destruct (@Forall2_In_r _ _ _ _ _ _ H Hl) as (row & _ & Hrow).
    destruct (argmin row) as [i | ]; cbn [bind] in Hrow; [ | discriminate ].
    destruct (nth_error cls i) as [c | ] eqn:Hc; [ | discriminate ].
    inversion Hrow; subst. eapply nth_error_In. exact Hc.
Qed.

Lemma lloyd_iter_last (X : list trial) :
  forall n st st', lloyd_iter X (S n) st = Ok st' ->
                   exists sp, lloyd_body X sp = Ok st'.
Proof.
  induction n as [ | n IH ]; intros st st' H; cbn [lloyd_iter] in H.
  - destruct (lloyd_body X st) as [s1 | ] eqn:Hb; cbn [bind] in H; [ | discriminate ].
    inversion H; subst. exists st. exact Hb.
  - destruct (lloyd_body X st) as [s1 | ]; cbn [bind] in H; [ | discriminate ].
    eapply IH. exact H.
Qed.

(** What the loop leaves: the distance matrix of the last classifier and
    the labels read off that matrix. *)
Lemma lloyd_loop_final_state (fuel : nat) (X : list trial) (max_iter : Z)
      (tol : Q) (st0 st : lloyd) (k : nat) :
  lloyd_loop fuel X max_iter tol 0 st0 = Some (Ok (k, st)) ->
  l_dist st = MDM_predict_distances (l_mdm st) X /\
  nearest_labels (classes (l_mdm st)) (l_dist st) = Ok (l_labels st).
Proof.
  intros H.
  destruct (lloyd_loop_exit _ _ _ _ _ _ H) as (n & _ & Hit & _).
  destruct (lloyd_iter_last _ _ _ Hit) as (sp & Hb).
  unfold lloyd_body in Hb.
  destruct (nearest_labels _ _) as [ls | ] eqn:Hn; cbn [bind] in Hb; [ | discriminate ].
  inversion Hb; subst. cbn. split; [ reflexivity | exact Hn ].
Qed.

Lemma fit_single_final_state (X : list trial) (y : option (list Z)) (k : Z)
      (i : init_t trial) (rs : option Z) (max_iter : Z) (tol : Q) (w : world)
      (ls : list Z) (inr : Q) (m : MDM) :
  fst (_fit_single X y k i rs max_iter tol w) = Some (Ok (ls, inr, m)) ->
  exists st,
    l_labels st = ls /\ l_mdm st = m /\ inertia_of st = Ok inr /\
    l_dist st = MDM_predict_distances m X /\
    nearest_labels (classes m) (l_dist st) = Ok ls.
Proof.
  unfold _fit_single.
  destruct (_init_centroids _ _ _ _ _ _) as [[centers | e] w']; cbn [fst];
    [ | discriminate ].
  destruct (lloyd_loop _ _ _ _ _ _) as [ [ [k' st] | e ] | ] eqn:Hloop;
    cbn [fst]; try discriminate.
  destruct (inertia_of st) as [inr' | ] eqn:Hin; cbn [fst]; [ | discriminate ].
  intros H. inversion H; subst.
  destruct (lloyd_loop_final_state _ _ _ _ _ Hloop) as [Hd Hn].
  exists st. auto.
Qed.


(** ** [class Kmeans] *)

Record Kmeans : Type := mk_Kmeans {
  n_clusters : Z;
  max_iter : Z;
  mdm : option MDM;
  seed : option Z;
  init : init_t trial;
  n_init : Z;
  tol : Q;
  n_jobs : Z;
  inertia : option Q;
  labels : option (list Z)
}.

(** [self.mdm = mdm; self.inertia = inertia; self.labels = labels] *)
Definition store (self : Kmeans) (r : run_result) : Kmeans :=
  let '(l, i, m) := r in
  {| n_clusters := n_clusters self; max_iter := max_iter self;
     mdm := Some m; seed := seed self; init := init self;
     n_init := n_init self; tol := tol self; n_jobs := n_jobs self;
     inertia := Some i; labels := Some l |}.

(** One restart with the parameters of the instance. *)
Definition restart (self : Kmeans) (X : list trial) (y : option (list Z))
           (random_state : option Z) (w : world)
  : option (res run_result) * world :=
  _fit_single X y (n_clusters self) (init self) random_state
              (max_iter self) (tol self) w.

(** The branch [n_jobs == 1]:
    [res = []; for i in range(self.n_init): res = _fit_single(...)].
    The variable [res] holds the empty list ([None]) or the tuple of the
    last run. *)
Fixpoint sequential_restarts (self : Kmeans) (X : list trial)
         (y : option (list Z)) (seeds : list Z) (idxs : list nat)
         (res0 : option run_result) (w : world)
  : option (res (option run_result)) * world :=
  match idxs with
  | [] => (Some (Ok res0), w)
  | i :: idxs' =>
      match nth_error seeds i with
      | None => (Some (Err (IndexError "index out of bounds")), w)
      | Some s =>
          match restart self X y (Some s) w with
          | (Some (Ok r), w') =>
              sequential_restarts self X y seeds idxs' (Some r) w'
          | (Some (Err e), w') => (Some (Err e), w')
          | (None, w') => (None, w')
          end
      end
  end.

(** [labels, inertia, mdm = zip(res)]: [zip] of the one tuple
    [(labels, inertia, mdm)] is the list of three 1-tuples; [zip([])] is
    empty and cannot be unpacked. *)
Definition zip_res (res0 : option run_result)
  : res (list (list Z) * list Q * list MDM) :=
  match res0 with
  | None => Err (ValueError "need more than 0 values to unpack")
  | Some (l, i, m) => Ok ([l], [i], [m])
  end.

(** The branch of [Parallel]: one run per seed, results in the order of the
    seeds. The runs receive explicit seeds and leave the caller's generator
    alone. *)
Fixpoint parallel_restarts (self : Kmeans) (X : list trial)
         (y : option (list Z)) (seeds : list Z) (w : world)
  : option (res (list run_result)) :=
  match seeds with
  | [] => Some (Ok [])
  | s :: seeds' =>
      match fst (restart self X y (Some s) w) with
      | Some (Ok r) =>
          match parallel_restarts self X y seeds' w with
          | Some (Ok rs) => Some (Ok (r :: rs))
          | other => other
          end
      | Some (Err e) => Some (Err e)
      | None => None
      end
  end.

(** [labels, inertia, mdm = zip] of the unpacked list [res] *)
Definition zip_star_res (rs : list run_result)
  : res (list (list Z) * list Q * list MDM) :=
  match rs with
  | [] => Err (ValueError "need more than 0 values to unpack")
  | _ :: _ => Ok (map (fun r => fst (fst r)) rs,
                  map (fun r => snd (fst r)) rs,
                  map (fun r => snd r) rs)
  end.

(** [best = numpy.argmin(inertia)] and the three selections *)
Definition select_best (z : list (list Z) * list Q * list MDM) : res run_result :=
  let '(ls, ins, ms) := z in
  best <- argmin ins ;;
  match nth_error ls best, nth_error ins best, nth_error ms best with
  | Some l, Some i, Some m => Ok (l, i, m)
  | _, _, _ => Err (IndexError "tuple index out of range")
  end.

Definition int32_max : Z := 2147483647.

(** [Kmeans.fit] *)
Definition fit (self : Kmeans) (X : list trial) (y : option (list Z)) (w : world)
  : option (res Kmeans) * world :=
  if negb (is_random (init self)) || (n_init self =? 1)%Z then
    match restart self X y (seed self) w with
    | (Some (Ok r), w') => (Some (Ok (store self r)), w')
    | (Some (Err e), w') => (Some (Err e), w')
    | (None, w') => (None, w')
    end
  else
    let w1 := np_random_seed (seed self) w in
    match np_random_randint int32_max (n_init self) w1 with
    | (Err e, w2) => (Some (Err e), w2)
    | (Ok seeds, w2) =>
        let (zipped, w3) :=
          if (n_jobs self =? 1)%Z then
            match sequential_restarts self X y seeds
                    (range (Z.to_nat (n_init self))) None w2 with
            | (Some (Ok res0), w') => (Some (zip_res res0), w')
            | (Some (Err e), w') => (Some (Err e), w')
            | (None, w') => (None, w')
            end
          else
            match parallel_restarts self X y seeds w2 with
            | Some (Ok rs) => (Some (zip_star_res rs), w2)
            | Some (Err e) => (Some (Err e), w2)
            | None => (None, w2)
            end in
        match zipped with
        | None => (None, w3)
        | Some (Err e) => (Some (Err e), w3)
        | Some (Ok z) =>
            match select_best z with
            | Err e => (Some (Err e), w3)
            | Ok r => (Some (Ok (store self r)), w3)
            end
        end
    end.

(** [Kmeans.centroids] *)
Definition centroids (self : Kmeans) : res (list trial) :=
  match mdm self with
  | Some m => Ok (covmeans m)
  | None => Err (AttributeError "covmeans")
  end.

(** ** [class KmeansPerClassTransform] *)

Record KmeansPerClassTransform : Type := mk_PerClass {
  pc_km : Kmeans;
  pc_covmeans : list trial;
  pc_classes : option (list Z)
}.

(** [__init__]: [self.km] is the [Kmeans] built from the parameters,
    [self.covmeans = []] *)
Definition per_class_init (km0 : Kmeans) : KmeansPerClassTransform :=
  {| pc_km := km0; pc_covmeans := []; pc_classes := None |}.

(** [for c in self.classes: self.km.fit(X[y == c]);
     self.covmeans.extend(self.km.centroids())] *)
Fixpoint per_class_loop (cs : list Z) (self : KmeansPerClassTransform)
         (X : list trial) (y : list Z) (w : world)
  : option (res KmeansPerClassTransform) * world :=
  match cs with
  | [] => (Some (Ok self), w)
  | c :: cs' =>
      match fit (pc_km self) (mask_select X (map (fun l => (l =? c)%Z) y)) None w with
      | (Some (Ok km'), w') =>
          match centroids km' with
          | Ok cents =>
              per_class_loop cs'
                {| pc_km := km'; pc_covmeans := pc_covmeans self ++ cents;
                   pc_classes := pc_classes self |} X y w'
          | Err e => (Some (Err e), w')
          end
      | (Some (Err e), w') => (Some (Err e), w')
      | (None, w') => (None, w')
      end
  end.

(** [KmeansPerClassTransform.fit] *)
Definition per_class_fit (self : KmeansPerClassTransform) (X : list trial)
           (y : list Z) (w : world)
  : option (res KmeansPerClassTransform) * world :=
  let cs := unique y in
  per_class_loop cs
    {| pc_km := pc_km self; pc_covmeans := pc_covmeans self;
       pc_classes := Some cs |} X y w.

(** ** Restarts and seeds *)

(** A run with an explicit integer seed never looks at the generators of
    the process, and leaves them as they are. *)
Lemma restart_seeded (self : Kmeans) (X : list trial) (y : option (list Z))
      (s : Z) (w1 w2 : world) :
  fst (restart self X y (Some s) w1) = fst (restart self X y (Some s) w2).
Proof.
  unfold restart, _fit_single, _init_centroids.
  destruct (fst (init_centroids _ _ _ _ _)) as [centers | e]; [ | reflexivity ].
  destruct (lloyd_loop _ _ _ _ _ _) as [ [ [k st] | e ] | ]; try reflexivity.
  destruct (inertia_of st); reflexivity.
Qed.

Lemma restart_seeded_world (self : Kmeans) (X : list trial)
      (y : option (list Z)) (s : Z) (w : world) :
  snd (restart self X y (Some s) w) = w.
Proof.
  unfold restart, _fit_single, _init_centroids.
  destruct (fst (init_centroids _ _ _ _ _)) as [centers | e]; [ | reflexivity ].
  destruct (lloyd_loop _ _ _ _ _ _) as [ [ [k st] | e ] | ]; try reflexivity.
  destruct (inertia_of st); reflexivity.
Qed.

Lemma sequential_restarts_seeded (self : Kmeans) (X : list trial)
      (y : option (list Z)) (seeds : list Z) :
  forall idxs r0 w1 w2,
    fst (sequential_restarts self X y seeds idxs r0 w1)
    = fst (sequential_restarts self X y seeds idxs r0 w2).
Proof.
  induction idxs as [ | i idxs IH ]; intros r0 w1 w2; cbn [sequential_restarts];
    [ reflexivity | ].
  destruct (nth_error seeds i) as [s | ]; [ | reflexivity ].
  pose proof (restart_seeded self X y s w1 w2) as H.
  destruct (restart self X y (Some s) w1) as [a w1'].
  destruct (restart self X y (Some s) w2) as [b w2'].
  cbn in H. subst b.
  destruct a as [ [r | e] | ]; try reflexivity.
  apply IH.
Qed.

Lemma parallel_restarts_seeded (self : Kmeans) (X : list trial)
      (y : option (list Z)) (w1 w2 : world) :
  forall seeds,
    parallel_restarts self X y seeds w1 = parallel_restarts self X y seeds w2.
Proof.
  induction seeds as [ | s seeds IH ]; cbn [parallel_restarts]; [ reflexivity | ].
  rewrite (restart_seeded self X y s w1 w2), IH. reflexivity.
Qed.

(** C9. With an explicit top-level seed the outcome of [fit] (the stored
    labels, inertia and centroids, or the exception) is the same whatever the
    state of numpy's global generator and of the system's entropy at the
    time of the call: every random draw goes through a generator seeded
    from the top-level seed. *)
Theorem C9_fit_reproducible_with_explicit_seed
        (self : Kmeans) (X : list trial) (y : option (list Z)) (s : Z)
        (w1 w2 : world) :
  seed self = Some s ->
  fst (fit self X y w1) = fst (fit self X y w2).
Proof.
  intros Hseed. unfold fit. rewrite Hseed.
  destruct (negb (is_random (init self)) || (n_init self =? 1)%Z).
  - pose proof (restart_seeded self X y s w1 w2) as H.
    destruct (restart self X y (Some s) w1) as [a w1'].
    destruct (restart self X y (Some s) w2) as [b w2'].
    cbn in H. subst b. destruct a as [ [r | e] | ]; reflexivity.
  - unfold np_random_randint, np_random_seed. cbn [global_rng urandom urandom_pos].
    destruct (randint int32_max (n_init self) (RandomState s)) as [[seeds | e] g];
      [ | reflexivity ].
    destruct (n_jobs self =? 1)%Z.
    + match goal with
      | |- context [ sequential_restarts ?a ?b ?c ?d ?e ?f ?w ] =>
          match goal with
          | |- fst _ = fst ?rhs =>
              match rhs with
              | context [ sequential_restarts a b c d e f ?w' ] =>
                  pose proof (sequential_restarts_seeded a b c d e f w w') as H;
                  destruct (sequential_restarts a b c d e f w) as [p1 q1];
                  destruct (sequential_restarts a b c d e f w') as [p2 q2]
              end
          end
      end.
      cbn in H. subst p2.
      destruct p1 as [ [r0 | e] | ]; try reflexivity.
      destruct (zip_res r0) as [z | e]; [ | reflexivity ].
      destruct (select_best z); reflexivity.
    + match goal with
      | |- context [ parallel_restarts ?a ?b ?c ?d ?w ] =>
          match goal with
          | |- fst _ = fst ?rhs =>
              match rhs with
              | context [ parallel_restarts a b c d ?w' ] =>
                  rewrite (parallel_restarts_seeded a b c w w' d)
              end
          end
      end.
      destruct (parallel_restarts _ _ _ _ _) as [ [rs | e] | ]; try reflexivity.
      destruct (zip_star_res rs) as [z | e]; [ | reflexivity ].
      destruct (select_best z); reflexivity.
Qed.

(** With [n_jobs = 1] the variable [res] is overwritten by every restart:
    what is left after the loop is the run of the last index. *)
Lemma sequential_restarts_last (self : Kmeans) (X : list trial)
      (y : option (list Z)) (seeds : list Z) :
  forall idxs i r0 w res w',
    sequential_restarts self X y seeds (idxs ++ [i]) r0 w = (Some (Ok res), w') ->
    exists s r,
      nth_error seeds i = Some s /\
      fst (restart self X y (Some s) w) = Some (Ok r) /\
      res = Some r.
Proof.
  induction idxs as [ | i0 idxs IH ]; intros i r0 w res w' H;
    cbn [sequential_restarts app] in H.
  - destruct (nth_error seeds i) as [s | ]; [ | discriminate ].
    exists s.
    destruct (restart self X y (Some s) w) as [[ [r | e] | ] w1] eqn:Hr;
      try discriminate.
    inversion H; subst. exists r. auto.
  - destruct (nth_error seeds i0) as [s0 | ]; [ | discriminate ].
    pose proof (restart_seeded_world self X y s0 w) as Hw.
    destruct (restart self X y (Some s0) w) as [[ [r1 | e] | ] w1];
      try discriminate.
    cbn in Hw. subst w1.
    exact (IH _ _ _ _ _ H).
Qed.

(** What [fit] stores when the restarts run one after the other
    ([n_jobs = 1]): the run of the last seed, whatever the inertias. *)
Lemma fit_sequential_stores_last_run (self : Kmeans) (X : list trial)
      (y : option (list Z)) (w : world) (seeds : list Z) (g : rng) (m : nat)
      (self' : Kmeans) (w' : world) :
  is_random (init self) = true ->
  n_init self = Z.of_nat (S (S m)) ->
  n_jobs self = 1%Z ->
  randint int32_max (n_init self) (global_rng (np_random_seed (seed self) w))
    = (Ok seeds, g) ->
  fit self X y w = (Some (Ok self'), w') ->
  exists s r,
    nth_error seeds (S m) = Some s /\
    fst (restart self X y (Some s) w) = Some (Ok r) /\
    self' = store self r.
Proof.
  intros Hinit Hn Hjobs Hseeds Hfit. unfold fit in Hfit.
  rewrite Hinit, Hn in Hfit.
  replace (Z.of_nat (S (S m)) =? 1)%Z with false in Hfit
    by (symmetry; apply Z.eqb_neq; lia).
  cbn [negb orb] in Hfit.
  unfold np_random_randint in Hfit. rewrite <- Hn, Hseeds in Hfit.
  rewrite Hjobs in Hfit. cbn [Z.eqb Pos.eqb] in Hfit.
  rewrite Hn, Nat2Z.id in Hfit. unfold range in Hfit.
  rewrite seq_S in Hfit. cbn [Nat.add] in Hfit.
  destruct (sequential_restarts _ _ _ _ _ _ _) as [[ [res0 | e] | ] w3] eqn:Hrun;
    try discriminate.
  apply sequential_restarts_last in Hrun.
  destruct Hrun as (s & r & Hs & Hr & ->).
  exists s, r. split; [ exact Hs | ].
  split.
  - rewrite <- Hr. apply restart_seeded.
  - destruct r as [[l i] c]. cbn in Hfit. inversion Hfit. reflexivity.
Qed.

Lemma parallel_restarts_runs (self : Kmeans) (X : list trial)
      (y : option (list Z)) (w : world) :
  forall seeds rs,
    parallel_restarts self X y seeds w = Some (Ok rs) ->
    Forall2 (fun s r => fst (restart self X y (Some s) w) = Some (Ok r)) seeds rs.
Proof.
  induction seeds as [ | s seeds IH ]; intros rs H; cbn [parallel_restarts] in H.
  - inversion H. constructor.
  - destruct (fst (restart self X y (Some s) w)) as [ [r | e] | ] eqn:Hr;
      try discriminate.
    destruct (parallel_restarts self X y seeds w) as [ [rs' | e] | ];
      try discriminate.
    inversion H; subst. constructor; [ exact Hr | apply IH; reflexivity ].
Qed.

Lemma select_best_least (rs : list run_result) (r : run_result)
      (z : list (list Z) * list Q * list MDM) :
  zip_star_res rs = Ok z ->
  select_best z = Ok r ->
  In r rs /\ forall r', In r' rs -> (snd (fst r) <= snd (fst r'))%Q.
Proof.
  intros Hz Hs.
  assert (Ez : z = (map (fun r : run_result => fst (fst r)) rs,
                    map (fun r : run_result => snd (fst r)) rs,
                    map (fun r : run_result => snd r) rs)).
  { destruct rs; [ discriminate | ].
    unfold zip_star_res in Hz. injection Hz as Hz. symmetry. exact Hz. }
  subst z. clear Hz.
  unfold select_best in Hs.
  revert Hs.
  destruct (argmin _) as [best | e] eqn:Hbest; intros Hs;
    cbn [bind] in Hs; [ | discriminate ].
  apply argmin_least in Hbest. destruct Hbest as [Hlt Hmin].
  rewrite length_map in Hlt, Hmin.
  rewrite !nth_error_map in Hs.
  destruct (nth_error rs best) as [rb | ] eqn:Hrb; cbn in Hs; [ | discriminate ].
  inversion Hs; subst r. clear Hs.
  assert (Erb : rb = (fst (fst rb), snd (fst rb), snd rb))
    by (destruct rb as [[? ?] ?]; reflexivity).
  rewrite <- Erb.
  split; [ eapply nth_error_In; exact Hrb | ].
  intros r' Hin. apply In_nth_error in Hin. destruct Hin as [k Hk].
  assert (Hk' : k < length rs) by (apply nth_error_Some; congruence).
  specialize (Hmin k Hk').
  rewrite (@nth_map_of_nth_error _ _ (fun r : run_result => snd (fst r)) _ _ _ 0%Q Hrb) in Hmin.
  rewrite (@nth_map_of_nth_error _ _ (fun r : run_result => snd (fst r)) _ _ _ 0%Q Hk) in Hmin.
  exact Hmin.
Qed.

(** What [fit] stores when the restarts go through [Parallel]: a run whose
    inertia no other run undercuts. *)
Lemma fit_parallel_stores_best_run (self : Kmeans) (X : list trial)
      (y : option (list Z)) (w : world) (seeds : list Z) (g : rng)
      (self' : Kmeans) (w' : world) :
  is_random (init self) = true ->
  n_init self <> 1%Z ->
  n_jobs self <> 1%Z ->
  randint int32_max (n_init self) (global_rng (np_random_seed (seed self) w))
    = (Ok seeds, g) ->
  fit self X y w = (Some (Ok self'), w') ->
  exists rs r,
    Forall2 (fun s r => fst (restart self X y (Some s) w) = Some (Ok r)) seeds rs /\
    In r rs /\
    self' = store self r /\
    forall r', In r' rs -> (snd (fst r) <= snd (fst r'))%Q.
Proof.
  intros Hinit Hn Hjobs Hseeds Hfit. unfold fit in Hfit.
  rewrite Hinit in Hfit.
  apply Z.eqb_neq in Hn. apply Z.eqb_neq in Hjobs.
  rewrite Hn, Hjobs in Hfit. cbn [negb orb] in Hfit.
  unfold np_random_randint in Hfit. rewrite Hseeds in Hfit.
  destruct (parallel_restarts _ _ _ _ _) as [ [rs | e] | ] eqn:Hrun;
    try discriminate.
  destruct (zip_star_res rs) as [z | e] eqn:Hz; [ | discriminate ].
  destruct (select_best z) as [r | e] eqn:Hs; [ | discriminate ].
  inversion Hfit; subst. clear Hfit.
  destruct (select_best_least _ Hz Hs) as [Hin Hmin].
  exists rs, r. repeat split; auto.
  apply parallel_restarts_runs.
  rewrite <- Hrun. apply parallel_restarts_seeded.
Qed.



(** ** Further properties of [Kmeans.fit] *)

Lemma sequential_restarts_from_run (self : Kmeans) (X : list trial)
      (y : option (list Z)) (seeds : list Z) :
  forall idxs r0 w r w',
    sequential_restarts self X y seeds idxs r0 w = (Some (Ok (Some r)), w') ->
    r0 = Some r \/
    exists s, fst (restart self X y (Some s) w) = Some (Ok r).
Proof.
  induction idxs as [ | i idxs IH ]; intros r0 w r w' H;
    cbn [sequential_restarts] in H.
  - inversion H. left. reflexivity.
  - destruct (nth_error seeds i) as [s | ]; [ | discriminate ].
    pose proof (restart_seeded_world self X y s w) as Hw.
    destruct (restart self X y (Some s) w) as [[ [r1 | e] | ] w1] eqn:Hr;
      try discriminate.
    cbn in Hw. subst w1. right.
    destruct (IH _ _ _ _ H) as [E | [s' Hs']].
    + inversion E; subst. exists s. rewrite Hr. reflexivity.
    + exists s'. exact Hs'.
Qed.

(** Whatever the branch, what a successful [fit] stores is the result of one
    run of [_fit_single] with the parameters of the instance. *)
Lemma fit_stores_one_run (self km' : Kmeans) (X : list trial)
      (y : option (list Z)) (w w' : world) :
  fit self X y w = (Some (Ok km'), w') ->
  exists rs0 w0 r,
    fst (restart self X y rs0 w0) = Some (Ok r) /\ km' = store self r.
Proof.
  unfold fit. intros H.
  destruct (negb (is_random (init self)) || (n_init self =? 1)%Z).
  - destruct (restart self X y (seed self) w) as [[ [r | e] | ] w1] eqn:Hr;
      try discriminate.
    inversion H; subst. exists (seed self), w, r. rewrite Hr. auto.
  - destruct (np_random_randint _ _ _) as [[seeds | e] w2]; [ | discriminate ].
    destruct (n_jobs self =? 1)%Z.
    + destruct (sequential_restarts _ _ _ _ _ _ _) as [[ [res0 | e] | ] w3] eqn:Hrun;
        try discriminate.
      destruct res0 as [[[l i] m] | ]; cbn in H; [ | discriminate ].
      inversion H; subst.
      apply sequential_restarts_from_run in Hrun.
      destruct Hrun as [E | [s Hs]]; [ discriminate | ].
      eexists (Some s), _, (l, i, m). split; [ exact Hs | reflexivity ].
    + destruct (parallel_restarts _ _ _ _ _) as [ [rs | e] | ] eqn:Hrun;
        try discriminate.
      destruct (zip_star_res rs) as [z | e] eqn:Hz; [ | discriminate ].
      destruct (select_best z) as [r | e] eqn:Hs; [ | discriminate ].
      inversion H; subst.
      destruct (select_best_least _ Hz Hs) as [Hin _].
      apply parallel_restarts_runs in Hrun.
      destruct (@Forall2_In_r _ _ _ _ _ _ Hrun Hin) as (s & _ & Hr).
      eexists (Some s), _, r. split; [ exact Hr | reflexivity ].
Qed.

(** After a successful [fit] the stored label vector has one entry per row
    of the distance matrix of the stored classifier, and every stored label
    is one of the classes of that classifier. *)
Theorem fit_labels_are_classes_of_the_stored_model
        (self km' : Kmeans) (X : list trial) (y : option (list Z))
        (w w' : world) :
  fit self X y w = (Some (Ok km'), w') ->
  exists ls m,
    labels km' = Some ls /\ mdm km' = Some m /\
    length ls = length (MDM_predict_distances m X) /\
    Forall (fun l => In l (classes m)) ls.
Proof.
  intros H. destruct (fit_stores_one_run _ _ _ _ H) as (rs0 & w0 & [[ls i] m] & Hr & ->).
  unfold restart in Hr.
  destruct (fit_single_final_state _ _ _ _ _ _ _ _ Hr)
    as (st & _ & _ & _ & Hd & Hn).
  apply nearest_labels_spec in Hn. destruct Hn as [Hlen Hall].
  exists ls, m. cbn. rewrite <- Hd. auto.
Qed.

Lemma mask_select_incl {A} (x : A) :
  forall (l : list A) (m : list bool), In x (mask_select l m) -> In x l.
Proof.
  induction l as [ | a l IH ]; intros [ | [ | ] m ] H; cbn in H;
    try contradiction.
  - destruct H as [-> | H]; [ left; reflexivity | right; eapply IH; exact H ].
  - right. eapply IH. exact H.
Qed.

Lemma fold_plus_nonneg (l : list Q) :
  forall acc, (0 <= acc)%Q -> Forall (fun d => (0 <= d)%Q) l ->
              (0 <= fold_left Qplus l acc)%Q.
Proof.
  induction l as [ | d l IH ]; intros acc Hacc Hall; cbn [fold_left].
  - exact Hacc.
  - inversion Hall; subst. apply IH; [ | assumption ].
    replace 0%Q with (0 + 0)%Q by reflexivity. apply Qplus_le_compat; assumption.
Qed.

Lemma inertia_of_nonneg (st : lloyd) (i : Q) :
  (forall row d, In row (l_dist st) -> In d row -> (0 <= d)%Q) ->
  inertia_of st = Ok i -> (0 <= i)%Q.
Proof.
  intros Hpos H. unfold inertia_of in H.
  destruct (traverse _ _) as [sums | ] eqn:Hs; cbn [bind] in H; [ | discriminate ].
  inversion H; subst. clear H.
  apply fold_plus_nonneg; [ apply Qle_refl | ].
  apply traverse_spec in Hs.
  apply Forall_forall. intros q Hq.
  destruct (@Forall2_In_r _ _ _ _ _ _ Hs Hq) as (c & _ & Hc).
  unfold column_sum in Hc.
  destruct (traverse _ _) as [rows | ] eqn:Hrows; cbn [bind] in Hc; [ | discriminate ].
  inversion Hc; subst. clear Hc.
  apply fold_plus_nonneg; [ apply Qle_refl | ].
  apply traverse_spec in Hrows.
  apply Forall_forall. intros d Hd.
  destruct (@Forall2_In_r _ _ _ _ _ _ Hrows Hd) as (row & Hrow & Hnth).
  destruct (nth_error row c) as [d' | ] eqn:E; [ | discriminate ].
  inversion Hnth; subst.
  eapply Hpos; [ eapply mask_select_incl; exact Hrow | eapply nth_error_In; exact E ].
Qed.

(** When the classifier only reports non-negative distances, the inertia a
    successful [fit] stores is non-negative. *)
Theorem fit_inertia_nonnegative
        (self km' : Kmeans) (X : list trial) (y : option (list Z))
        (w w' : world) :
  (forall m row d, In row (MDM_predict_distances m X) -> In d row -> (0 <= d)%Q) ->
  fit self X y w = (Some (Ok km'), w') ->
  exists i, inertia km' = Some i /\ (0 <= i)%Q.
Proof.
  intros Hpos H.
  destruct (fit_stores_one_run _ _ _ _ H) as (rs0 & w0 & [[ls i] m] & Hr & ->).
  unfold restart in Hr.
  destruct (fit_single_final_state _ _ _ _ _ _ _ _ Hr)
    as (st & _ & _ & Hin & Hd & _).
  exists i. split; [ reflexivity | ].
  eapply inertia_of_nonneg; [ | exact Hin ].
  rewrite Hd. apply Hpos.
Qed.

Lemma sequential_restarts_returns (self : Kmeans) (X : list trial)
      (y : option (list Z)) (seeds : list Z) :
  forall idxs r0 w, fst (sequential_restarts self X y seeds idxs r0 w) <> None.
Proof.
  induction idxs as [ | i idxs IH ]; intros r0 w; cbn [sequential_restarts].
  - discriminate.
  - destruct (nth_error seeds i) as [s | ]; [ | discriminate ].
    pose proof (@fit_single_returns X y (n_clusters self) (init self) (Some s)
                  (max_iter self) (tol self) w) as Hr.
    fold (restart self X y (Some s) w) in Hr.
    destruct (restart self X y (Some s) w) as [[ [r | e] | ] w1]; cbn [fst] in *.
    + apply IH.
    + discriminate.
    + congruence.
Qed.

Lemma parallel_restarts_returns (self : Kmeans) (X : list trial)
      (y : option (list Z)) (w : world) :
  forall seeds, parallel_restarts self X y seeds w <> None.
Proof.
  induction seeds as [ | s seeds IH ]; cbn [parallel_restarts]; [ discriminate | ].
  pose proof (@fit_single_returns X y (n_clusters self) (init self) (Some s)
                (max_iter self) (tol self) w) as Hr.
  fold (restart self X y (Some s) w) in Hr.
  destruct (fst (restart self X y (Some s) w)) as [ [r | e] | ].
  - destruct (parallel_restarts self X y seeds w) as [ [rs | e] | ];
      [ discriminate | discriminate | congruence ].
  - discriminate.
  - congruence.
Qed.

(** [fit] comes back for every configuration and every input: with a fitted
    instance or with an exception. No branch loops for ever. *)
Theorem kmeans_fit_returns (self : Kmeans) (X : list trial)
        (y : option (list Z)) (w : world) :
  fst (fit self X y w) <> None.
Proof.
  unfold fit.
  destruct (negb (is_random (init self)) || (n_init self =? 1)%Z).
  - pose proof (@fit_single_returns X y (n_clusters self) (init self) (seed self)
                  (max_iter self) (tol self) w) as Hr.
    fold (restart self X y (seed self) w) in Hr.
    destruct (restart self X y (seed self) w) as [[ [r | e] | ] w1]; cbn [fst] in *;
      [ discriminate | discriminate | congruence ].
  - destruct (np_random_randint _ _ _) as [[seeds | e] w2]; [ | discriminate ].
    destruct (n_jobs self =? 1)%Z.
    + match goal with
      | |- context [ sequential_restarts ?a ?b ?c ?d ?ix ?f ?g ] =>
          pose proof (sequential_restarts_returns a b c d ix f g) as Hs;
          destruct (sequential_restarts a b c d ix f g) as [[ [res0 | e] | ] w3]
      end; cbn [fst] in *; try discriminate; try congruence.
      destruct (zip_res res0) as [z | e]; [ | discriminate ].
      destruct (select_best z); discriminate.
    + pose proof (parallel_restarts_returns self X y w2 seeds) as Hp.
      destruct (parallel_restarts self X y seeds w2) as [ [rs | e] | ];
        try discriminate; try congruence.
      destruct (zip_star_res rs) as [z | e]; [ | discriminate ].
      destruct (select_best z); discriminate.
Qed.



(** No restart at all: with [n_init <= 0] and [n_jobs = 1] the loop body
    never runs, [res] stays the empty list and the unpacking of [zip(res)]
    raises. *)
Theorem fit_without_restart_raises
        (self : Kmeans) (X : list trial) (y : option (list Z)) (w : world)
        (seeds : list Z) (g : rng) :
  is_random (init self) = true ->
  (n_init self <= 0)%Z ->
  n_jobs self = 1%Z ->
  randint int32_max (n_init self) (global_rng (np_random_seed (seed self) w))
    = (Ok seeds, g) ->
  fst (fit self X y w)
  = Some (Err (ValueError "need more than 0 values to unpack")).
Proof.
  intros Hinit Hn Hjobs Hseeds. unfold fit. rewrite Hinit.
  replace (n_init self =? 1)%Z with false by (symmetry; apply Z.eqb_neq; lia).
  cbn [negb orb]. unfold np_random_randint. rewrite Hseeds, Hjobs.
  cbn [Z.eqb Pos.eqb].
  replace (Z.to_nat (n_init self)) with 0 by lia. reflexivity.
Qed.

(** *** [predict], [transform] and [centroids] *)

(** [mdm.transform(X)] of the Centroid Classifier *)
Variable MDM_transform : MDM -> list trial -> list (list Q).

(** [Kmeans.__init__] *)
Definition Kmeans_init (n_clusters0 max_iter0 : Z) (random_state : option Z)
           (init0 : init_t trial) (n_init0 : Z) (n_jobs0 : Z) (tol0 : Q) : Kmeans :=
  {| n_clusters := n_clusters0; max_iter := max_iter0; mdm := None;
     seed := random_state; init := init0; n_init := n_init0; tol := tol0;
     n_jobs := n_jobs0; inertia := None; labels := None |}.

(** [Kmeans.predict] and [Kmeans.transform]: [self.mdm] is [None] until [fit]
    has run, and [None] has neither method. *)
Definition predict (self : Kmeans) (X : list trial) : res (list Z) :=
  match mdm self with
  | Some m => Ok (MDM_predict m X)
  | None => Err (AttributeError "predict")
  end.

Definition transform (self : Kmeans) (X : list trial) : res (list (list Q)) :=
  match mdm self with
  | Some m => Ok (MDM_transform m X)
  | None => Err (AttributeError "transform")
  end.

(** On an instance fresh from [__init__] the three accessors raise; after a
    successful [fit] of that instance they answer from the classifier of the
    stored run, and the parameters of the instance are the ones it was built
    with. *)
Theorem accessors_need_a_fitted_instance
        (k mi : Z) (rs : option Z) (i0 : init_t trial) (ni nj : Z) (t : Q)
        (X X' : list trial) (y : option (list Z)) (w w' : world) (km' : Kmeans) :
  let self := Kmeans_init k mi rs i0 ni nj t in
  (centroids self = Err (AttributeError "covmeans") /\
   predict self X' = Err (AttributeError "predict") /\
   transform self X' = Err (AttributeError "transform"))
  /\
  (fit self X y w = (Some (Ok km'), w') ->
   exists m,
     mdm km' = Some m /\
     centroids km' = Ok (covmeans m) /\
     predict km' X' = Ok (MDM_predict m X') /\
     transform km' X' = Ok (MDM_transform m X') /\
     n_clusters km' = k /\ max_iter km' = mi /\ seed km' = rs /\
     init km' = i0 /\ n_init km' = ni /\ n_jobs km' = nj /\ tol km' = t).
Proof.
  intros self. split; [ repeat split | ].
  intros H.
  destruct (fit_stores_one_run _ _ _ _ H) as (rs0 & w0 & [[ls i] m] & _ & ->).
  exists m. unfold centroids, predict, transform. cbn. repeat split.
Qed.

End Kmeans.

End KmeansEngine.

(* ------------------------------------------------------------------ *)
(** ** Floating-point values that may leave the finite range

    The finite values are exact rationals; the arithmetic on the other
    values follows IEEE 754 as numpy applies it to arrays: a division by
    zero is not an exception, it yields an infinity or NaN. Signed zeros
    are not distinguished. *)

Inductive fval : Type :=
| Fin (q : Q)
| PInf
| NInf
| NaN.

Definition is_finite (x : fval) : bool :=
  match x with Fin _ => true | _ => false end.

Definition Qsign (q : Q) : comparison := (Qnum q ?= 0)%Z.

Definition fneg (x : fval) : fval :=
  match x with
  | Fin q => Fin (- q)
  | PInf => NInf
  | NInf => PInf
  | NaN => NaN
  end.

Definition fadd (x y : fval) : fval :=
  match x, y with
  | NaN, _ | _, NaN => NaN
  | Fin a, Fin b => Fin (Qred (a + b))
  | PInf, NInf | NInf, PInf => NaN
  | PInf, _ | _, PInf => PInf
  | NInf, _ | _, NInf => NInf
  end.

Definition fsub (x y : fval) : fval := fadd x (fneg y).

Definition fmul (x y : fval) : fval :=
  match x, y with
  | NaN, _ | _, NaN => NaN
  | Fin a, Fin b => Fin (Qred (a * b))
  | Fin a, PInf | PInf, Fin a =>
      match Qsign a with Eq => NaN | Gt => PInf | Lt => NInf end
  | Fin a, NInf | NInf, Fin a =>
      match Qsign a with Eq => NaN | Gt => NInf | Lt => PInf end
  | PInf, PInf | NInf, NInf => PInf
  | PInf, NInf | NInf, PInf => NaN
  end.

Definition fdiv (x y : fval) : fval :=
  match x, y with
  | NaN, _ | _, NaN => NaN
  | Fin a, Fin b =>
      match Qsign b with
      | Eq => match Qsign a with Eq => NaN | Gt => PInf | Lt => NInf end
      | _ => Fin (Qred (a / b))
      end
  | Fin _, PInf | Fin _, NInf => Fin 0
  | PInf, Fin b => match Qsign b with Lt => NInf | _ => PInf end
  | NInf, Fin b => match Qsign b with Lt => PInf | _ => NInf end
  | PInf, PInf | PInf, NInf | NInf, PInf | NInf, NInf => NaN
  end.

Definition fabs (x : fval) : fval :=
  match x with
  | Fin q => Fin (Qabs q)
  | PInf | NInf => PInf
  | NaN => NaN
  end.

(** [x < y]: false whenever an operand is NaN. *)
Definition flt (x y : fval) : bool :=
  match x, y with
  | NaN, _ | _, NaN => false
  | Fin a, Fin b => negb (Qle_bool b a)
  | NInf, Fin _ | NInf, PInf | Fin _, PInf => true
  | _, _ => false
  end.

(** [numpy.mean]: the sum over the number of entries; NaN for no entry. *)
Definition np_mean (d : list fval) : fval :=
  fdiv (fold_left fadd d (Fin 0)) (Fin (inject_Z (Z.of_nat (length d)))).

(** [numpy.zeros(n)] and [numpy.ones(n)] as acceptance masks: the entry [1.0]
    is [true], the entry [0.0] is [false]. *)
Definition zeros (n : nat) : list bool := repeat false n.
Definition ones (n : nat) : list bool := repeat true n.

(** [y[ix] = vals] on [y = zeros(n)]: the entries of [vals] go, in order, to
    the positions where [ix] holds. *)
Fixpoint scatter (ix : list bool) (vals : list bool) : list bool :=
  match ix with
  | [] => []
  | false :: ix' => false :: scatter ix' vals
  | true :: ix' =>
      match vals with
      | v :: vals' => v :: scatter ix' vals'
      | [] => false :: scatter ix' []
      end
  end.

(** Shape rules of the assignment: the mask has the length of [y]; the
    values are as many as the selected positions, or a single value (which
    [numpy.squeeze] has turned into a scalar) that is broadcast. *)
Definition mask_assign (n : nat) (ix : list bool) (vals : list bool)
  : res (list bool) :=
  if negb (length ix =? n) then Err (IndexError "boolean index did not match")
  else if length vals =? count_true ix then Ok (scatter ix vals)
  else match vals with
       | [v] => Ok (scatter ix (repeat v (count_true ix)))
       | _ => Err (ValueError "cannot assign input values where the mask is true")
       end.

(** [X[ix]] *)
Definition mask_index {A} (X : list A) (ix : list bool) : res (list A) :=
  if negb (length ix =? length X) then Err (IndexError "boolean index did not match")
  else Ok (mask_select X ix).

Fixpoint mask_eqb (a b : list bool) : bool :=
  match a, b with
  | [], [] => true
  | x :: a', y :: b' => Bool.eqb x y && mask_eqb a' b'
  | _, _ => false
  end.

Lemma scatter_length (ix vals : list bool) :
  length (scatter ix vals) = length ix.
Proof.
  revert vals. induction ix as [ | [ | ] ix IH ]; intros vals; cbn.
  - reflexivity.
  - destruct vals; cbn; rewrite IH; reflexivity.
  - rewrite IH. reflexivity.
Qed.

Lemma scatter_keeps_false (ix vals : list bool) (i : nat) :
  nth_error ix i = Some false -> nth_error (scatter ix vals) i = Some false.
Proof.
  revert vals i. induction ix as [ | b ix IH ]; intros vals [ | i ] H; cbn in *;
    try discriminate.
  - inversion H. subst b. reflexivity.
  - destruct b; [ destruct vals | ]; cbn; apply IH; exact H.
Qed.

Lemma mask_assign_spec (n : nat) (ix vals y : list bool) :
  mask_assign n ix vals = Ok y ->
  length ix = n /\ length y = n /\
  forall i, nth_error ix i = Some false -> nth_error y i = Some false.
Proof.
  unfold mask_assign. intros H.
  destruct (Nat.eqb_spec (length ix) n) as [Hn | Hn]; cbn [negb] in H;
    [ | discriminate ].
  destruct (length vals =? count_true ix).
  - inversion H; subst y. rewrite scatter_length.
    repeat split; auto. intros i. apply scatter_keeps_false.
  - destruct vals as [ | v [ | ? ? ] ]; try discriminate.
    inversion H; subst y. rewrite scatter_length.
    repeat split; auto. intros i. apply scatter_keeps_false.
Qed.

Lemma mask_eqb_eq (a b : list bool) : mask_eqb a b = true -> a = b.
Proof.
  revert b. induction a as [ | x a IH ]; intros [ | y b ] H; cbn in H;
    try discriminate; [ reflexivity | ].
  apply andb_true_iff in H. destruct H as [Hxy Hab].
  apply Bool.eqb_prop in Hxy. rewrite Hxy, (IH _ Hab). reflexivity.
Qed.

Lemma mask_select_length_self (m : list bool) :
  length (mask_select m m) = count_true m.
Proof.
  unfold count_true. induction m as [ | [ | ] m IH ]; cbn; auto.
Qed.

Lemma Qsign_zero (q : Q) : (q == 0)%Q -> Qsign q = Eq.
Proof.
  unfold Qeq, Qsign. cbn. intros H. rewrite Z.mul_1_r in H. rewrite H. reflexivity.
Qed.

(** A division by a zero of the finite range never yields a finite value. *)
Lemma fdiv_by_zero (x : fval) (q : Q) :
  (q == 0)%Q -> is_finite (fdiv x (Fin q)) = false.
Proof.
  intros Hq. apply Qsign_zero in Hq.
  destruct x as [a | | | ]; unfold fdiv; try rewrite Hq; try reflexivity.
  destruct (Qsign a); reflexivity.
Qed.

Module PotatoEstimator.

Section Potato.

Variable trial : Type.

(** The Centroid Classifier behind [self._mdm]: the fresh object
    [MDM(metric=self.metric)], [fit] and [transform]. Both calls may raise.
    [transform] returns the distance of each trial to the one centroid of
    the single class the potato fits. *)
Variable mdm : Type.
Variable MDM_new : mdm.
Variable MDM_fit : mdm -> list trial -> list bool -> res mdm.
Variable MDM_transform : mdm -> list trial -> res (list fval).

(** [numpy.log] and [numpy.sqrt] *)
Variable np_log : fval -> fval.
Variable np_sqrt : fval -> fval.

(** [numpy.std]: root of the mean squared deviation from the mean *)
Definition np_std (d : list fval) : fval :=
  let m := np_mean d in
  np_sqrt (np_mean (map (fun x => let a := fabs (fsub x m) in fmul a a) d)).

Record Potato : Type := mk_Potato {
  threshold : Q;
  n_iter_max : Z;
  _mdm : option mdm;
  _mean : option fval;
  _std : option fval
}.

(** [_get_z_score] *)
Definition _get_z_score (self : Potato) (d : list fval) : res (list fval) :=
  match _mean self, _std self with
  | Some m, Some s => Ok (map (fun x => fdiv (fsub x m) s) d)
  | None, _ => Err (AttributeError "_mean")
  | _, None => Err (AttributeError "_std")
  end.

(** Body of the [for] loop up to the assignment of [y]. The local variable
    [y_old] is bound ([Some]) or not yet assigned ([None]). *)
Definition potato_round (self : Potato) (X : list trial)
           (y_old : option (list bool)) : res (Potato * list bool) :=
  match y_old with
  | None => Err (UnboundLocalError "y_old")
  | Some y_old =>
      let ix := y_old in
      Xa <- mask_index X ix ;;
      la <- mask_index y_old ix ;;
      clf <- match _mdm self with
             | Some m => Ok m
             | None => Err (AttributeError "_mdm")
             end ;;
      clf' <- MDM_fit clf Xa la ;;
      dists <- MDM_transform clf' Xa ;;
      let d := map np_log dists in
      let self' := {| threshold := threshold self;
                      n_iter_max := n_iter_max self;
                      _mdm := Some clf';
                      _mean := Some (np_mean d);
                      _std := Some (np_std d) |} in
      z <- _get_z_score self' d ;;
      y <- mask_assign (length X) ix
             (map (fun zi => flt zi (Fin (threshold self))) z) ;;
      Ok (self', y)
  end.

(** [for n_iter in range(self.n_iter_max): ...] with its [break]; the result
    carries the instance and the local [y_old]. *)
Fixpoint fit_loop (n : nat) (self : Potato) (X : list trial)
         (y_old : option (list bool)) : res (Potato * option (list bool)) :=
  match n with
  | O => Ok (self, y_old)
  | S n' =>
      match potato_round self X y_old with
      | Err e => Err e
      | Ok (self', y) =>
          if match y_old with
             | Some yo => mask_eqb y yo
             | None => false
             end
          then Ok (self', y_old)
          else fit_loop n' self' X (Some y)
      end
  end.

(** [Potato.fit], with the local [y_old] of the last pass. *)
Definition fit_run (self : Potato) (X : list trial) (y : option (list Z))
  : res (Potato * option (list bool)) :=
  let self0 := {| threshold := threshold self; n_iter_max := n_iter_max self;
                  _mdm := Some MDM_new; _mean := _mean self;
                  _std := _std self |} in
  let y_old := match y with
               | None => Some (ones (length X))
               | Some _ => None
               end in
  fit_loop (Z.to_nat (n_iter_max self)) self0 X y_old.

Definition fit (self : Potato) (X : list trial) (y : option (list Z))
  : res Potato :=
  r <- fit_run self X y ;; Ok (fst r).

(** The instance and the mask at the head of pass [k] of the loop, when
    the loop gets that far without a [break]. *)
Fixpoint round_state (k : nat) (self0 : Potato) (X : list trial)
  : res (Potato * list bool) :=
  match k with
  | O => Ok (self0, ones (length X))
  | S k' =>
      st <- round_state k' self0 X ;;
      potato_round (fst st) X (Some (snd st))
  end.

(** ** Rounds of the potato *)

Lemma potato_round_mask (self : Potato) (X : list trial) (yo : list bool)
      (self' : Potato) (y : list bool) :
  potato_round self X (Some yo) = Ok (self', y) ->
  length yo = length X /\ length y = length X /\
  forall i, nth_error yo i = Some false -> nth_error y i = Some false.
Proof.
  unfold potato_round. intros H.
  destruct (mask_index X yo) as [Xa | ]; cbn [bind] in H; [ | discriminate ].
  destruct (mask_index yo yo) as [la | ]; cbn [bind] in H; [ | discriminate ].
  destruct (_mdm self) as [clf | ]; cbn [bind] in H; [ | discriminate ].
  destruct (MDM_fit clf Xa la) as [clf' | ]; cbn [bind] in H; [ | discriminate ].
  destruct (MDM_transform clf' Xa) as [dists | ]; cbn [bind] in H; [ | discriminate ].
  destruct (_get_z_score _ _) as [z | ]; cbn [bind] in H; [ | discriminate ].
  destruct (mask_assign _ _ _) as [y' | ] eqn:Hy; cbn [bind] in H; [ | discriminate ].
  inversion H; subst. exact (mask_assign_spec _ _ _ Hy).
Qed.

Lemma round_state_length (self0 : Potato) (X : list trial) :
  forall k s yo, round_state k self0 X = Ok (s, yo) -> length yo = length X.
Proof.
  intros [ | k ] s yo H; cbn [round_state] in H.
  - inversion H. apply repeat_length.
  - destruct (round_state k self0 X) as [[s1 y1] | ]; cbn [bind fst snd] in H;
      [ | discriminate ].
    apply potato_round_mask in H. destruct H as (_ & H & _). exact H.
Qed.

(** C3. Within one call of [fit], let [yj] and [yk] be the acceptance masks at
    the heads of two rounds [j <= k] (round [k + 1] starts from the mask
    that round [k] computed). Both masks have one entry per trial, and every
    trial rejected in [yj] is rejected in [yk]: a round only writes the
    entries of the trials it accepted at its start. *)
Theorem C3_rejected_trials_stay_rejected
        (self0 : Potato) (X : list trial) (j k : nat)
        (sj sk : Potato) (yj yk : list bool) :
  j <= k ->
  round_state j self0 X = Ok (sj, yj) ->
  round_state k self0 X = Ok (sk, yk) ->
  length yj = length X /\ length yk = length X /\
  forall i, nth_error yj i = Some false -> nth_error yk i = Some false.
Proof.
  intros Hjk Hj. revert sk yk.
  induction Hjk as [ | k Hjk IH ]; intros sk yk Hk.
  - rewrite Hj in Hk. inversion Hk; subst.
    pose proof (round_state_length _ _ _ Hj). auto.
  - cbn [round_state] in Hk.
    destruct (round_state k self0 X) as [[s1 y1] | ]; cbn [bind fst snd] in Hk;
      [ | discriminate ].
    destruct (IH s1 y1 eq_refl) as (Hlj & _ & Hkeep).
    apply potato_round_mask in Hk. destruct Hk as (_ & Hlk & Hstep).
    repeat split; auto.
Qed.

(** The state [fit] ends in is the state at the head of some round. *)
Lemma fit_loop_reaches_round_state (self0 : Potato) (X : list trial) :
  forall n k s yo s' yo',
    round_state k self0 X = Ok (s, yo) ->
    fit_loop n s X (Some yo) = Ok (s', yo') ->
    exists k' y', yo' = Some y' /\ k' <= k + n /\
                  round_state k' self0 X = Ok (s', y').
Proof.
  induction n as [ | n IH ]; intros k s yo s' yo' Hk H; cbn [fit_loop] in H.
  - inversion H; subst. exists k, yo. repeat split; auto. lia.
  - destruct (potato_round s X (Some yo)) as [[s1 y1] | ] eqn:Hr; [ | discriminate ].
    assert (Hnext : round_state (S k) self0 X = Ok (s1, y1))
      by (cbn [round_state]; rewrite Hk; exact Hr).
    destruct (mask_eqb y1 yo) eqn:He.
    + inversion H; subst. apply mask_eqb_eq in He. subst y1.
      exists (S k), yo. repeat split; auto. lia.
    + destruct (IH _ _ _ _ _ Hnext H) as (k' & y' & -> & Hle & Hst).
      exists k', y'. repeat split; auto. lia.
Qed.

(** A round completes whenever the Centroid Classifier answers with one
    distance per accepted trial; no value of the distances makes it raise. *)
Lemma potato_round_completes (self : Potato) (X : list trial) (yo : list bool)
      (clf clf' : mdm) (dists : list fval) :
  length yo = length X ->
  _mdm self = Some clf ->
  MDM_fit clf (mask_select X yo) (mask_select yo yo) = Ok clf' ->
  MDM_transform clf' (mask_select X yo) = Ok dists ->
  length dists = count_true yo ->
  let d := map np_log dists in
  let z := map (fun x => fdiv (fsub x (np_mean d)) (np_std d)) d in
  potato_round self X (Some yo)
  = Ok ({| threshold := threshold self; n_iter_max := n_iter_max self;
           _mdm := Some clf'; _mean := Some (np_mean d);
           _std := Some (np_std d) |},
        scatter yo (map (fun zi => flt zi (Fin (threshold self))) z)).
Proof.
  intros Hlen Hclf Hfit Htr Hcount d z. unfold potato_round, mask_index.
  rewrite Hlen, !Nat.eqb_refl. cbn [negb bind].
  rewrite Hclf. cbn [bind]. rewrite Hfit. cbn [bind]. rewrite Htr. cbn [bind].
  unfold _get_z_score. cbn [_mean _std bind]. unfold mask_assign.
  rewrite Hlen, Nat.eqb_refl. cbn [negb].
  fold d. fold z. unfold z, d. rewrite !length_map, Hcount, Nat.eqb_refl.
  reflexivity.
Qed.

(** C4 (as the code has it). [fit] has no check for a degenerate accepted
    set. In a round in which the standard deviation of the log-distances is
    zero, [_get_z_score] still divides by it: the round raises nothing,
    stores the zero deviation as normalisation parameter, and every z-score
    is NaN or an infinity; the next mask is computed from those values by
    the comparison with the threshold. *)
Theorem C4_zero_deviation_is_divided_by_silently
        (self : Potato) (X : list trial) (yo : list bool)
        (clf clf' : mdm) (dists : list fval) (q : Q) :
  length yo = length X ->
  _mdm self = Some clf ->
  MDM_fit clf (mask_select X yo) (mask_select yo yo) = Ok clf' ->
  MDM_transform clf' (mask_select X yo) = Ok dists ->
  length dists = count_true yo ->
  np_std (map np_log dists) = Fin q ->
  (q == 0)%Q ->
  exists self' y z,
    potato_round self X (Some yo) = Ok (self', y) /\
    _std self' = Some (Fin q) /\
    _get_z_score self' (map np_log dists) = Ok z /\
    Forall (fun zi => is_finite zi = false) z /\
    y = scatter yo (map (fun zi => flt zi (Fin (threshold self))) z).
Proof.
  intros Hlen Hclf Hfit Htr Hcount Hstd Hq.
  pose proof (potato_round_completes self X yo Hlen Hclf Hfit Htr Hcount) as Hround.
  cbv zeta in Hround. rewrite Hstd in Hround.
  eexists _, _, _. split; [ exact Hround | ].
  split; [ reflexivity | ].
  split; [ reflexivity | ].
  split; [ | reflexivity ].
  apply Forall_forall. intros zi Hin. apply in_map_iff in Hin.
  destruct Hin as (x & <- & _). apply fdiv_by_zero. exact Hq.
Qed.

(** C10 (as the code has it). When labels are passed to [fit], the local
    [y_old] is never bound before the loop. If [n_iter_max] is at least one
    the first pass reads it and the call ends with an UnboundLocalError; if
    [n_iter_max] is zero or negative the loop body never runs and the call
    returns normally. *)
Theorem C10_labels_leave_the_mask_unbound
        (self : Potato) (X : list trial) (labels : list Z) :
  ((0 < n_iter_max self)%Z ->
   fit self X (Some labels) = Err (UnboundLocalError "y_old"))
  /\
  ((n_iter_max self <= 0)%Z ->
   fit self X (Some labels)
   = Ok {| threshold := threshold self; n_iter_max := n_iter_max self;
           _mdm := Some MDM_new; _mean := _mean self; _std := _std self |}).
Proof.
  unfold fit, fit_run. split; intros H.
  - destruct (Z.to_nat (n_iter_max self)) as [ | n ] eqn:E; [ lia | ].
    reflexivity.
  - replace (Z.to_nat (n_iter_max self)) with 0 by lia. reflexivity.
Qed.

(** ** Further properties of the potato *)

(** With no labels given, the state [fit] ends in is the state at the head of
    some round [k], with [k] at most [n_iter_max]: the loop never makes more
    than [n_iter_max] passes, and on a [break] returns the instance of the
    pass that found the mask unchanged. *)
Theorem fit_ends_in_a_round_state
        (self s' : Potato) (X : list trial) (yo' : option (list bool)) :
  fit_run self X None = Ok (s', yo') ->
  exists k y',
    yo' = Some y' /\
    k <= Z.to_nat (n_iter_max self) /\
    round_state k {| threshold := threshold self; n_iter_max := n_iter_max self;
                     _mdm := Some MDM_new; _mean := _mean self;
                     _std := _std self |} X = Ok (s', y').
Proof.
  unfold fit_run. intros H.
  eapply (@fit_loop_reaches_round_state _ X (Z.to_nat (n_iter_max self)) 0) in H;
    [ | reflexivity ].
  destruct H as (k & y' & -> & Hk & Hst).
  exists k, y'. repeat split; auto.
Qed.

(** [Potato.transform] and [Potato.predict] *)
Definition transform (self : Potato) (X : list trial) : res (list fval) :=
  clf <- match _mdm self with
         | Some m => Ok m
         | None => Err (AttributeError "_mdm")
         end ;;
  dists <- MDM_transform clf X ;;
  _get_z_score self (map np_log dists).

Definition predict (self : Potato) (X : list trial) : res (list bool) :=
  z <- transform self X ;;
  Ok (map (fun zi => flt zi (Fin (threshold self))) z).

Lemma mask_select_scatter (ix vals : list bool) :
  length vals = count_true ix ->
  mask_select (scatter ix vals) ix = vals.
Proof.
  unfold count_true. revert vals.
  induction ix as [ | [ | ] ix IH ]; intros vals H; cbn in *.
  - destruct vals; [ reflexivity | discriminate ].
  - destruct vals as [ | v vals ]; [ discriminate | ].
    cbn. f_equal. apply IH. cbn in H. lia.
  - apply IH. exact H.
Qed.

Lemma mask_select_self (m : list bool) :
  mask_select m m = repeat true (count_true m).
Proof.
  unfold count_true. induction m as [ | [ | ] m IH ]; cbn; [ | rewrite IH | ]; auto.
Qed.

Lemma mask_select_length {A} (X : list A) :
  forall m, length m = length X -> length (mask_select X m) = count_true m.
Proof.
  unfold count_true.
  induction X as [ | x X IH ]; intros [ | [ | ] m ] H; cbn in *;
    try discriminate; auto.
Qed.

(** [predict] after a round agrees with the round: when the classifier
    reports one distance per trial, what [predict] answers for the trials
    the round accepted at its start is exactly what the round wrote into the
    mask for them. In particular, when the round left the mask unchanged
    (the test on which [fit] stops), [predict] calls every accepted trial
    clean. *)
Theorem predict_agrees_with_the_last_round
        (self self' : Potato) (X : list trial) (yo y : list bool) :
  (forall m Xa ds, MDM_transform m Xa = Ok ds -> length ds = length Xa) ->
  potato_round self X (Some yo) = Ok (self', y) ->
  predict self' (mask_select X yo) = Ok (mask_select y yo) /\
  (y = yo ->
   predict self' (mask_select X yo) = Ok (repeat true (count_true yo))).
Proof.
  intros Hlen H.
  assert (Hp : predict self' (mask_select X yo) = Ok (mask_select y yo)).
  { unfold potato_round, mask_index in H.
    destruct (Nat.eqb_spec (length yo) (length X)) as [Hl | ]; cbn [negb bind] in H;
      [ | discriminate ].
    rewrite Nat.eqb_refl in H. cbn [negb bind] in H.
    destruct (_mdm self) as [clf | ]; cbn [bind] in H; [ | discriminate ].
    destruct (MDM_fit clf _ _) as [clf' | ]; cbn [bind] in H; [ | discriminate ].
    destruct (MDM_transform clf' _) as [dists | ] eqn:Ht; cbn [bind] in H;
      [ | discriminate ].
    unfold _get_z_score in H. cbn [_mean _std bind] in H.
    unfold mask_assign in H. rewrite Hl, Nat.eqb_refl in H. cbn [negb] in H.
    apply Hlen in Ht as Hd. rewrite mask_select_length in Hd by exact Hl.
    rewrite !length_map, Hd, Nat.eqb_refl in H.
    inversion H; subst. clear H.
    unfold predict, transform, _get_z_score.
    cbn [_mdm _mean _std threshold bind]. rewrite Ht. cbn [bind].
    rewrite mask_select_scatter by (rewrite !length_map; exact Hd).
    reflexivity. }
  split; [ exact Hp | ].
  intros ->. rewrite Hp, mask_select_self. reflexivity.
Qed.

(** With [n_iter_max <= 0] the loop body never runs: [fit] returns normally,
    with or without labels, but the instance has no normalisation
    parameters, and [transform] and [predict] of the returned instance
    raise on every input. *)
Theorem zero_rounds_leave_the_potato_unfitted
        (self : Potato) (X : list trial) (y : option (list Z)) :
  (n_iter_max self <= 0)%Z ->
  _mean self = None ->
  exists s',
    fit self X y = Ok s' /\
    forall X', is_ok (transform s' X') = false /\ is_ok (predict s' X') = false.
Proof.
  intros Hn Hmean. unfold fit, fit_run.
  replace (Z.to_nat (n_iter_max self)) with 0 by lia.
  cbn [fit_loop bind fst]. eexists. split; [ reflexivity | ].
  intros X'. unfold predict, transform. cbn [_mdm bind].
  destruct (MDM_transform MDM_new X') as [ds | e]; cbn [bind]; [ | auto ].
  unfold _get_z_score. cbn [_mean _std]. rewrite Hmean. auto.
Qed.

End Potato.

End PotatoEstimator.

(** ** A concrete collaborator set for the examples

    Trials are 1x1 SPD matrices, that is positive rationals, under the
    ['euclid'] metric: the centroid of a set is its arithmetic mean and the
    distance of two trials the absolute value of their difference. A
    generator state is an integer; the random draws are simple arithmetic on
    it, standing in for the Mersenne Twister of numpy, which module
    [Mersenne] below has as it is. *)
Module Scalar.

Definition Qmean (l : list Q) : Q :=
  Qred (fold_left Qplus l 0%Q / inject_Z (Z.of_nat (length l))).

Definition Qdist (a b : Q) : Q := Qred (Qabs (a - b)).

Definition RandomState (s : Z) : Z := s.

(** [size] consecutive values from the state *)
Definition randint (high size : Z) (g : Z) : res (list Z) * Z :=
  if (size <? 0)%Z then (Err (ValueError "negative dimensions are not allowed"), g)
  else (Ok (map (fun i => ((g + Z.of_nat i) mod high)%Z) (range (Z.to_nat size))),
        (g + size)%Z).

Definition rotate {A} (n : nat) (l : list A) : list A := skipn n l ++ firstn n l.

(** ['random'] and ['k-means++'] take [k] trials of a permutation of [X], here
    a rotation fixed by the generator state; an array is taken as it is. *)
Definition init_centroids (X : list Q) (k : Z) (i : init_t Q) (norms : list Q)
           (g : Z) : res (list Q) * Z :=
  match i with
  | init_ndarray centers => (Ok centers, g)
  | _ =>
      if (Z.of_nat (length X) <? k)%Z
      then (Err (ValueError "n_samples should be larger than k"), g)
      else (Ok (firstn (Z.to_nat k)
                       (rotate (Z.to_nat (g mod Z.of_nat (length X))) X)),
            (g + 1)%Z)
  end.

Definition MDM_fit (m : KmeansEngine.MDM Q) (X : list Q) (labels : list Z)
  : KmeansEngine.MDM Q :=
  let cls := unique labels in
  {| KmeansEngine.covmeans :=
       map (fun c => Qmean (mask_select X (map (fun l => (l =? c)%Z) labels))) cls;
     KmeansEngine.classes := cls |}.

Definition MDM_predict_distances (m : KmeansEngine.MDM Q) (X : list Q)
  : list (list Q) :=
  map (fun x => map (fun c => Qdist x c) (KmeansEngine.covmeans m)) X.

Definition MDM_predict (m : KmeansEngine.MDM Q) (X : list Q) : list Z :=
  map (fun row =>
         match argmin row with
         | Ok i => nth i (KmeansEngine.classes m) 0%Z
         | Err _ => 0%Z
         end)
      (MDM_predict_distances m X).

Definition world0 : KmeansEngine.world Z :=
  {| KmeansEngine.global_rng := 42%Z;
     KmeansEngine.urandom := fun n => Z.of_nat (7 * n + 3);
     KmeansEngine.urandom_pos := 0 |}.

Definition world1 : KmeansEngine.world Z :=
  {| KmeansEngine.global_rng := 5%Z;
     KmeansEngine.urandom := fun n => Z.of_nat (n + 1);
     KmeansEngine.urandom_pos := 2 |}.

(** Four trials; two clusters; two restarts from the top-level seed [0]. *)
Definition X4 : list Q := [1; 5; 7; 11]%Q.

Definition kmeans (restarts jobs : Z) : KmeansEngine.Kmeans Q :=
  {| KmeansEngine.n_clusters := 2;
     KmeansEngine.max_iter := 100;
     KmeansEngine.mdm := None;
     KmeansEngine.seed := Some 0%Z;
     KmeansEngine.init := init_random;
     KmeansEngine.n_init := restarts;
     KmeansEngine.tol := (1 # 10000)%Q;
     KmeansEngine.n_jobs := jobs;
     KmeansEngine.inertia := None;
     KmeansEngine.labels := None |}.

Definition restart (self : KmeansEngine.Kmeans Q) (s : Z)
  : option (res (KmeansEngine.run_result Q)) :=
  fst (KmeansEngine.restart RandomState init_centroids Qabs
         MDM_fit MDM_predict_distances MDM_predict self X4 None (Some s) world0).

Definition fit (self : KmeansEngine.Kmeans Q) (w : KmeansEngine.world Z)
  : option (res (KmeansEngine.Kmeans Q)) :=
  fst (KmeansEngine.fit RandomState randint init_centroids Qabs
         MDM_fit MDM_predict_distances MDM_predict self X4 None w).

Definition inertia_of_fit (r : option (res (KmeansEngine.Kmeans Q))) : option Q :=
  match r with
  | Some (Ok km) => KmeansEngine.inertia km
  | _ => None
  end.

Definition inertia_of_run (r : option (res (KmeansEngine.run_result Q))) : option Q :=
  match r with
  | Some (Ok (_, i, _)) => Some i
  | _ => None
  end.

(** *** The potato on scalar trials

    [numpy.log] and [numpy.sqrt] are exact where their value is rational
    ([log 1 = 0], [log 0 = -inf], the root of a rational square); elsewhere
    [x - 1] stands in for the logarithm and a root truncated to two decimals
    for the square root. The classifier fitted on no trial has no centroid,
    and asking it for distances raises. *)

Definition log_table (x : fval) : fval :=
  match x with
  | Fin q =>
      match Qsign q with
      | Lt => NaN
      | Eq => NInf
      | Gt => Fin (Qred (q - 1))
      end
  | PInf => PInf
  | NInf | NaN => NaN
  end.

Definition sqrt_approx (x : fval) : fval :=
  match x with
  | Fin q =>
      match Qsign q with
      | Lt => NaN
      | _ => Fin (Qred (Z.sqrt (Qnum q * Zpos (Qden q) * 10000)
                        # (Qden q * 100)))
      end
  | PInf => PInf
  | NInf | NaN => NaN
  end.

Definition potato_MDM_fit (m : list Q) (Xa : list Q) (la : list bool)
  : res (list Q) :=
  Ok (match Xa with
      | [] => []
      | _ :: _ => [Qmean Xa]
      end).

Definition potato_MDM_transform (m : list Q) (Xa : list Q) : res (list fval) :=
  match m with
  | [] => Err (ValueError "need at least one array to concatenate")
  | c :: _ => Ok (map (fun x => Fin (Qdist x c)) Xa)
  end.

Definition potato (thr : Q) (iters : Z) : PotatoEstimator.Potato (list Q) :=
  {| PotatoEstimator.threshold := thr;
     PotatoEstimator.n_iter_max := iters;
     PotatoEstimator._mdm := None;
     PotatoEstimator._mean := None;
     PotatoEstimator._std := None |}.

Definition potato_fit_run (self : PotatoEstimator.Potato (list Q)) (X : list Q)
           (y : option (list Z)) :=
  PotatoEstimator.fit_run [] potato_MDM_fit potato_MDM_transform
                          log_table sqrt_approx self X y.

Definition potato_fit (self : PotatoEstimator.Potato (list Q)) (X : list Q)
           (y : option (list Z)) :=
  PotatoEstimator.fit [] potato_MDM_fit potato_MDM_transform
                      log_table sqrt_approx self X y.

Definition potato_round_state (k : nat) (self0 : PotatoEstimator.Potato (list Q))
           (X : list Q) :=
  PotatoEstimator.round_state potato_MDM_fit potato_MDM_transform
                              log_table sqrt_approx k self0 X.

(** Two trials at the same distance from their mean. *)
Definition X2 : list Q := [1; 3]%Q.

(** Four trials close together and one far away. *)
Definition X5 : list Q := [1; 2; 3; 2; 102]%Q.

Definition fitted0 (thr : Q) (iters : Z) : PotatoEstimator.Potato (list Q) :=
  {| PotatoEstimator.threshold := thr;
     PotatoEstimator.n_iter_max := iters;
     PotatoEstimator._mdm := Some [];
     PotatoEstimator._mean := None;
     PotatoEstimator._std := None |}.

Definition per_class_fit (self : KmeansEngine.KmeansPerClassTransform Q)
           (y : list Z) (w : KmeansEngine.world Z)
  : option (res (KmeansEngine.KmeansPerClassTransform Q)) :=
  fst (KmeansEngine.per_class_fit RandomState randint init_centroids Qabs
         MDM_fit MDM_predict_distances MDM_predict self X4 y w).

Definition y4 : list Z := [0; 0; 1; 1]%Z.

Definition unseeded (self : KmeansEngine.Kmeans Q) : KmeansEngine.Kmeans Q :=
  {| KmeansEngine.n_clusters := KmeansEngine.n_clusters self;
     KmeansEngine.max_iter := KmeansEngine.max_iter self;
     KmeansEngine.mdm := KmeansEngine.mdm self;
     KmeansEngine.seed := None;
     KmeansEngine.init := KmeansEngine.init self;
     KmeansEngine.n_init := KmeansEngine.n_init self;
     KmeansEngine.tol := KmeansEngine.tol self;
     KmeansEngine.n_jobs := KmeansEngine.n_jobs self;
     KmeansEngine.inertia := KmeansEngine.inertia self;
     KmeansEngine.labels := KmeansEngine.labels self |}.

Definition covmeans_count (r : option (res (KmeansEngine.KmeansPerClassTransform Q)))
  : option nat :=
  match r with
  | Some (Ok pc) => Some (length (KmeansEngine.pc_covmeans pc))
  | _ => None
  end.

Definition inertia_lt (a b : option Q) : Prop :=
  match a, b with
  | Some x, Some y => (x < y)%Q
  | _, _ => False
  end.

End Scalar.

(** ** The generator of numpy on the scalar trials

    [numpy.random.RandomState] as the legacy interface has it: the Mersenne
    Twister MT19937 of numpy's randomkit on 32-bit words, seeded from an
    integer by [rk_seed]; [randint] and [permutation] draw through
    [rk_interval], the masked rejection of a 32-bit word. The draw of
    sklearn's [_init_centroids] for ['random'] takes the first [k] entries
    of [permutation(n_samples)] as the indices of the starting centroids.
    The classifier is the one of [Scalar]. *)
Module Mersenne.

Definition N : nat := 624.
Definition M : nat := 397.
Definition UPPER_MASK : Z := 2147483648.
Definition LOWER_MASK : Z := 2147483647.
Definition MATRIX_A : Z := 2567483615.

Record rk_state : Type := mk_rk_state {
  key : list Z;
  pos : nat
}.

(** The keys written by the loop of [rk_seed], from position [p] on. *)
Fixpoint seed_keys (n : nat) (p : Z) (seed : Z) : list Z :=
  match n with
  | O => []
  | S n' =>
      seed :: seed_keys n' (p + 1)%Z
                (Z.land (1812433253 * Z.lxor seed (Z.shiftr seed 30) + p + 1)
                        4294967295)
  end.

(** [rk_seed(seed, state)] *)
Definition rk_seed (seed : Z) : rk_state :=
  {| key := seed_keys N 0 (Z.land seed 4294967295); pos := N |}.

(** [key[i] = v] *)
Definition set_key (i : nat) (v : Z) (k : list Z) : list Z :=
  firstn i k ++ v :: skipn (S i) k.

(** [key[i] = key[j] ^ (y >> 1) ^ (-(y & 1) & MATRIX_A)] with
    [y = (key[i] & UPPER_MASK) | (key[i'] & LOWER_MASK)] *)
Definition twist (i i' j : nat) (k : list Z) : list Z :=
  let y := Z.lor (Z.land (nth i k 0%Z) UPPER_MASK)
                 (Z.land (nth i' k 0%Z) LOWER_MASK) in
  set_key i (Z.lxor (Z.lxor (nth j k 0%Z) (Z.shiftr y 1))
                    (if Z.odd y then MATRIX_A else 0%Z)) k.

(** The three parts of the regeneration in [rk_random], on the array in
    place. *)
Definition regenerate (k : list Z) : list Z :=
  let k1 := fold_left (fun k i => twist i (S i) (i + M) k) (seq 0 (N - M)) k in
  let k2 := fold_left (fun k i => twist i (S i) (i - (N - M)) k)
                      (seq (N - M) (M - 1)) k1 in
  twist (N - 1) 0 (M - 1) k2.

Definition temper (y : Z) : Z :=
  let y := Z.lxor y (Z.shiftr y 11) in
  let y := Z.lxor y (Z.land (Z.shiftl y 7) 2636928640) in
  let y := Z.lxor y (Z.land (Z.shiftl y 15) 4022730752) in
  Z.lxor y (Z.shiftr y 18).

(** [rk_random(state)] *)
Definition rk_random (g : rk_state) : Z * rk_state :=
  let g' := if pos g =? N then {| key := regenerate (key g); pos := 0 |} else g in
  (temper (nth (pos g') (key g') 0%Z),
   {| key := key g'; pos := S (pos g') |}).

(** The smallest bit mask that covers [max]. *)
Definition bit_mask (max : Z) : Z :=
  fold_left (fun m s => Z.lor m (Z.shiftr m s)) [1; 2; 4; 8; 16; 32]%Z max.

(** The rejection loop of [rk_interval]: draw until the masked word is at
    most [max]. Each draw is kept with probability above one half; the loop
    is run for at most [fuel] draws. *)
Fixpoint rk_interval_loop (fuel : nat) (max mask : Z) (g : rk_state)
  : option (Z * rk_state) :=
  match fuel with
  | O => None
  | S fuel' =>
      let (y, g') := rk_random g in
      let value := Z.land y mask in
      if (value >? max)%Z then rk_interval_loop fuel' max mask g'
      else Some (value, g')
  end.

(** [rk_interval(max, state)] for [max] below [2^32] *)
Definition rk_interval (max : Z) (g : rk_state) : option (Z * rk_state) :=
  if (max =? 0)%Z then Some (0%Z, g)
  else rk_interval_loop 4096 max (bit_mask max) g.

(** [n] draws of [rk_interval(max)] *)
Fixpoint rk_intervals (n : nat) (max : Z) (g : rk_state)
  : option (list Z * rk_state) :=
  match n with
  | O => Some ([], g)
  | S n' =>
      match rk_interval max g with
      | None => None
      | Some (v, g') =>
          match rk_intervals n' max g' with
          | None => None
          | Some (vs, g'') => Some (v :: vs, g'')
          end
      end
  end.

Definition RandomState (s : Z) : rk_state := rk_seed s.

(** [randint(high, size=size)]: [size] values of [[0, high)] *)
Definition randint (high size : Z) (g : rk_state) : res (list Z) * rk_state :=
  if (high <=? 0)%Z then (Err (ValueError "low >= high"), g)
  else if (size <? 0)%Z
  then (Err (ValueError "negative dimensions are not allowed"), g)
  else match rk_intervals (Z.to_nat size) (high - 1) g with
       | Some (vs, g') => (Ok vs, g')
       | None => (Err (Raised "rk_interval"), g)
       end.

(** [x[i], x[j] = x[j], x[i]] *)
Definition swap (i j : nat) (x : list nat) : list nat :=
  let xi := nth i x 0 in
  let xj := nth j x 0 in
  firstn j (firstn i x ++ xj :: skipn (S i) x)
  ++ xi :: skipn (S j) (firstn i x ++ xj :: skipn (S i) x).

(** The loop of [shuffle]: [i] runs from [len(x) - 1] down to [1], and
    position [i] is exchanged with position [rk_interval(i)]. *)
Fixpoint shuffle (i : nat) (x : list nat) (g : rk_state)
  : option (list nat * rk_state) :=
  match i with
  | O => Some (x, g)
  | S i' =>
      match rk_interval (Z.of_nat i) g with
      | None => None
      | Some (j, g') => shuffle i' (swap i (Z.to_nat j) x) g'
      end
  end.

(** [permutation(n)] *)
Definition permutation (n : nat) (g : rk_state) : option (list nat * rk_state) :=
  shuffle (n - 1) (range n) g.

(** The draw of [_init_centroids]: ['random'] takes
    [X[permutation(n_samples)[:k]]], an array is taken as it is; the
    seeding of ['k-means++'] is not part of this instance. *)
Definition init_centroids (X : list Q) (k : Z) (i : init_t Q) (norms : list Q)
           (g : rk_state) : res (list Q) * rk_state :=
  if (Z.of_nat (length X) <? k)%Z
  then (Err (ValueError "n_samples should be larger than k"), g)
  else match i with
       | init_random =>
           match permutation (length X) g with
           | Some (seeds, g') =>
               (Ok (map (fun s => nth s X 0%Q) (firstn (Z.to_nat k) seeds)), g')
           | None => (Err (Raised "rk_interval"), g)
           end
       | init_ndarray centers => (Ok centers, g)
       | init_kmeanspp => (Err (Raised "k-means++"), g)
       end.

(** The global generator before the call: seeded with [42]. *)
Definition world0 : KmeansEngine.world rk_state :=
  {| KmeansEngine.global_rng := rk_seed 42;
     KmeansEngine.urandom := fun n => rk_seed (Z.of_nat (7 * n + 3));
     KmeansEngine.urandom_pos := 0 |}.

(** [Kmeans(n_clusters=2, init='random', n_init=restarts, n_jobs=jobs,
    random_state=random_state, metric='euclid')] *)
Definition kmeans (random_state restarts jobs : Z) : KmeansEngine.Kmeans Q :=
  {| KmeansEngine.n_clusters := 2;
     KmeansEngine.max_iter := 100;
     KmeansEngine.mdm := None;
     KmeansEngine.seed := Some random_state;
     KmeansEngine.init := init_random;
     KmeansEngine.n_init := restarts;
     KmeansEngine.tol := (1 # 10000)%Q;
     KmeansEngine.n_jobs := jobs;
     KmeansEngine.inertia := None;
     KmeansEngine.labels := None |}.

(** [_fit_single(X, None, ..., random_state=s, ...)] on the trials
    [Scalar.X4] *)
Definition restart (self : KmeansEngine.Kmeans Q) (s : Z)
  : option (res (KmeansEngine.run_result Q)) :=
  fst (KmeansEngine.restart RandomState init_centroids Qabs
         Scalar.MDM_fit Scalar.MDM_predict_distances Scalar.MDM_predict
         self Scalar.X4 None (Some s) world0).

(** [self.fit(X)] on the trials [Scalar.X4] *)
Definition fit (self : KmeansEngine.Kmeans Q)
  : option (res (KmeansEngine.Kmeans Q)) :=
  fst (KmeansEngine.fit RandomState randint init_centroids Qabs
         Scalar.MDM_fit Scalar.MDM_predict_distances Scalar.MDM_predict
         self Scalar.X4 None world0).

(** The starting centroids of the restart with seed [s]. *)
Definition start_of (s : Z) : res (list Q) :=
  fst (init_centroids Scalar.X4 2 init_random [] (RandomState s)).

(** Labels and inertia (as a fraction in lowest terms) of a run, and of
    what [fit] stores. *)
Definition outcome_of_run (r : option (res (KmeansEngine.run_result Q)))
  : option (list Z * Q) :=
  match r with
  | Some (Ok (l, i, _)) => Some (l, Qred i)
  | _ => None
  end.

Definition outcome_of_fit (r : option (res (KmeansEngine.Kmeans Q)))
  : option (list Z * Q) :=
  match r with
  | Some (Ok km) =>
      match KmeansEngine.labels km, KmeansEngine.inertia km with
      | Some l, Some i => Some (l, Qred i)
      | _, _ => None
      end
  | _ => None
  end.

End Mersenne.

(** ** The restarts on the scalar trials *)

(** The first words of the generator seeded with [0], and the two restart
    seeds [fit] draws with [random_state=0] and with [random_state=11]. *)
Example rk_random_of_seed_0 :
  fst (Mersenne.rk_random (Mersenne.rk_seed 0)) = 2357136044%Z.
Proof. vm_compute. reflexivity. Qed.

Example restart_seeds_of_seed_0 :
  fst (Mersenne.randint KmeansEngine.int32_max 2 (Mersenne.RandomState 0))
  = Ok [209652396; 398764591]%Z.
Proof. vm_compute. reflexivity. Qed.

Example restart_seeds_of_seed_11 :
  fst (Mersenne.randint KmeansEngine.int32_max 2 (Mersenne.RandomState 11))
  = Ok [774252441; 293375679]%Z.
Proof. vm_compute. reflexivity. Qed.

(** C1 (defect of the sequential branch). Trials [1, 5, 7, 11] (1x1
    matrices, metric ['euclid']), two clusters, random initialisation, two
    restarts, [random_state=11]. [fit] draws the restart seeds [774252441]
    and [293375679]. The first restart starts from the centroids [1, 5] and
    ends with the labels [0, 1, 1, 1] and inertia [20/3]; the second starts
    from [11, 1] and ends with the labels [1, 1, 0, 0] and inertia [8]. With
    [n_jobs = 1], [fit] stores the labels and the inertia of the second
    (last) restart, although the first has the smaller inertia; with
    [n_jobs = 2] it stores those of the first, the restart of least
    inertia. *)
Theorem C1_sequential_restarts_store_the_last_run :
  Mersenne.start_of 774252441 = Ok [1; 5]%Q /\
  Mersenne.start_of 293375679 = Ok [11; 1]%Q /\
  Mersenne.outcome_of_run (Mersenne.restart (Mersenne.kmeans 11 2 1) 774252441)
    = Some ([0; 1; 1; 1]%Z, (20 # 3)%Q) /\
  Mersenne.outcome_of_run (Mersenne.restart (Mersenne.kmeans 11 2 1) 293375679)
    = Some ([1; 1; 0; 0]%Z, 8%Q) /\
  Mersenne.outcome_of_fit (Mersenne.fit (Mersenne.kmeans 11 2 1))
    = Some ([1; 1; 0; 0]%Z, 8%Q) /\
  Mersenne.outcome_of_fit (Mersenne.fit (Mersenne.kmeans 11 2 2))
    = Some ([0; 1; 1; 1]%Z, (20 # 3)%Q) /\
  (20 # 3 < 8)%Q.
Proof.
  repeat split; vm_compute; reflexivity.
Qed.

(** Without a top-level seed the outcome follows the global generator. *)
Example fit_unseeded_follows_global_generator :
  Scalar.inertia_lt
    (Scalar.inertia_of_fit
       (Scalar.fit (Scalar.unseeded (Scalar.kmeans 1 1)) Scalar.world0))
    (Scalar.inertia_of_fit
       (Scalar.fit (Scalar.unseeded (Scalar.kmeans 1 1)) Scalar.world1)).
Proof. vm_compute. reflexivity. Qed.

Lemma C9_fit_reproducible_with_explicit_seed_witness :
  KmeansEngine.seed (Scalar.kmeans 2 1) = Some 0%Z /\
  Scalar.fit (Scalar.kmeans 2 1) Scalar.world0
  = Scalar.fit (Scalar.kmeans 2 1) Scalar.world1.
Proof.
  split; [ reflexivity | ].
  apply (@KmeansEngine.C9_fit_reproducible_with_explicit_seed
           Q Z Scalar.RandomState Scalar.randint Scalar.init_centroids Qabs
           Scalar.MDM_fit Scalar.MDM_predict_distances Scalar.MDM_predict
           (Scalar.kmeans 2 1) Scalar.X4 None 0%Z Scalar.world0 Scalar.world1).
  reflexivity.
Defined.

(** ** The potato on the scalar trials *)

Example potato_rounds_on_X5 :
  exists s1 s2,
    Scalar.potato_round_state 1 (Scalar.fitted0 1 100) Scalar.X5
      = Ok (s1, [true; true; true; true; false]) /\
    Scalar.potato_round_state 2 (Scalar.fitted0 1 100) Scalar.X5
      = Ok (s2, [false; false; false; false; false]).
Proof. eexists _, _. split; vm_compute; reflexivity. Qed.

Lemma C3_rejected_trials_stay_rejected_witness :
  exists s1 s2,
    1 <= 2 /\
    Scalar.potato_round_state 1 (Scalar.fitted0 1 100) Scalar.X5
      = Ok (s1, [true; true; true; true; false]) /\
    Scalar.potato_round_state 2 (Scalar.fitted0 1 100) Scalar.X5
      = Ok (s2, [false; false; false; false; false]) /\
    length [true; true; true; true; false] = length Scalar.X5 /\
    length [false; false; false; false; false] = length Scalar.X5 /\
    forall i, nth_error [true; true; true; true; false] i = Some false ->
              nth_error [false; false; false; false; false] i = Some false.
Proof.
  eexists _, _.
  split; [ lia | ].
  split; [ vm_compute; reflexivity | ].
  split; [ vm_compute; reflexivity | ].
  eapply (@PotatoEstimator.C3_rejected_trials_stay_rejected
            Q (list Q) Scalar.potato_MDM_fit Scalar.potato_MDM_transform
            Scalar.log_table Scalar.sqrt_approx
            (Scalar.fitted0 1 100) Scalar.X5 1 2).
  - lia.
  - vm_compute. reflexivity.
  - vm_compute. reflexivity.
Defined.

(** C4 as stated fails. Trials [1, 3], threshold [3], one round: the centroid
    is [2], both distances are [1], both log-distances [0], their deviation
    [0]. [fit] returns normally, with the zero deviation stored and every
    trial rejected; it raises nothing and the instance carries no flag. *)
Lemma C4_fit_returns_normally_on_zero_deviation :
  Scalar.potato_fit_run (Scalar.potato 3 1) Scalar.X2 None
  = Ok ({| PotatoEstimator.threshold := 3;
           PotatoEstimator.n_iter_max := 1;
           PotatoEstimator._mdm := Some [2%Q];
           PotatoEstimator._mean := Some (Fin 0);
           PotatoEstimator._std := Some (Fin 0) |},
        Some [false; false])
  /\
  ~ exists e, Scalar.potato_fit (Scalar.potato 3 1) Scalar.X2 None = Err e.
Proof.
  split; [ vm_compute; reflexivity | ].
  intros [e He]. vm_compute in He. discriminate He.
Qed.

Lemma C4_zero_deviation_is_divided_by_silently_witness :
  length [true; true] = length Scalar.X2 /\
  Scalar.potato_MDM_fit [] (mask_select Scalar.X2 [true; true])
                        (mask_select [true; true] [true; true]) = Ok [2%Q] /\
  Scalar.potato_MDM_transform [2%Q] (mask_select Scalar.X2 [true; true])
    = Ok [Fin 1; Fin 1] /\
  PotatoEstimator.np_std Scalar.sqrt_approx
    (map Scalar.log_table [Fin 1; Fin 1]) = Fin 0 /\
  exists self' y z,
    PotatoEstimator.potato_round Scalar.potato_MDM_fit Scalar.potato_MDM_transform
      Scalar.log_table Scalar.sqrt_approx (Scalar.fitted0 3 1) Scalar.X2
      (Some [true; true]) = Ok (self', y) /\
    PotatoEstimator._std self' = Some (Fin 0) /\
    PotatoEstimator._get_z_score self' (map Scalar.log_table [Fin 1; Fin 1]) = Ok z /\
    Forall (fun zi => is_finite zi = false) z /\
    y = scatter [true; true]
          (map (fun zi => flt zi (Fin (PotatoEstimator.threshold (Scalar.fitted0 3 1)))) z).
Proof.
  split; [ reflexivity | ].
  split; [ vm_compute; reflexivity | ].
  split; [ vm_compute; reflexivity | ].
  split; [ vm_compute; reflexivity | ].
  apply (@PotatoEstimator.C4_zero_deviation_is_divided_by_silently
           Q (list Q) Scalar.potato_MDM_fit Scalar.potato_MDM_transform
           Scalar.log_table Scalar.sqrt_approx
           (Scalar.fitted0 3 1) Scalar.X2 [true; true] [] [2%Q]
           [Fin 1; Fin 1] 0%Q).
  - reflexivity.
  - reflexivity.
  - vm_compute. reflexivity.
  - vm_compute. reflexivity.
  - reflexivity.
  - vm_compute. reflexivity.
  - reflexivity.
Defined.

(** C10 as stated fails. With [n_iter_max = 0] and labels given, the loop
    body never runs and [fit] returns normally. *)
Lemma C10_fit_with_labels_returns_when_no_round_runs :
  Scalar.potato_fit (Scalar.potato 3 0) Scalar.X2 (Some [1; 1]%Z)
  = Ok (Scalar.fitted0 3 0)
  /\
  ~ exists e,
      Scalar.potato_fit (Scalar.potato 3 0) Scalar.X2 (Some [1; 1]%Z) = Err e.
Proof.
  split; [ reflexivity | ].
  intros [e He]. vm_compute in He. discriminate He.
Qed.

Lemma C10_labels_leave_the_mask_unbound_witness :
  (0 < PotatoEstimator.n_iter_max (Scalar.potato 3 100))%Z /\
  Scalar.potato_fit (Scalar.potato 3 100) Scalar.X2 (Some [1; 1]%Z)
  = Err (UnboundLocalError "y_old").
Proof.
  split; [ reflexivity | ].
  apply (proj1 (@PotatoEstimator.C10_labels_leave_the_mask_unbound
                  Q (list Q) [] Scalar.potato_MDM_fit Scalar.potato_MDM_transform
                  Scalar.log_table Scalar.sqrt_approx
                  (Scalar.potato 3 100) Scalar.X2 [1; 1]%Z)).
  reflexivity.
Defined.

(** ** The further properties on the scalar trials *)

Definition kmeans_fit (self : KmeansEngine.Kmeans Q) (w : KmeansEngine.world Z) :=
  KmeansEngine.fit Scalar.RandomState Scalar.randint Scalar.init_centroids Qabs
    Scalar.MDM_fit Scalar.MDM_predict_distances Scalar.MDM_predict
    self Scalar.X4 None w.

Definition kmeans_restart (self : KmeansEngine.Kmeans Q) (s : Z)
           (w : KmeansEngine.world Z) :=
  fst (KmeansEngine.restart Scalar.RandomState Scalar.init_centroids Qabs
         Scalar.MDM_fit Scalar.MDM_predict_distances Scalar.MDM_predict
         self Scalar.X4 None (Some s) w).

(** The state before the first pass when the initial centroids are the
    trials [1] and [5]. *)
Definition start15 : KmeansEngine.lloyd Q :=
  let m := {| KmeansEngine.covmeans := [1; 5]%Q;
              KmeansEngine.classes := [0; 1]%Z |} in
  {| KmeansEngine.l_mdm := m;
     KmeansEngine.l_labels := Scalar.MDM_predict m Scalar.X4;
     KmeansEngine.l_dist := [];
     KmeansEngine.l_old_labels := [] |}.

Definition loop15 (max_iter : Z) (tol : Q) :=
  KmeansEngine.lloyd_loop Scalar.MDM_fit Scalar.MDM_predict_distances
    (S (Z.to_nat max_iter)) Scalar.X4 max_iter tol 0 start15.

(** A tolerance below half the spacing of the floats under [1]: [2^-60]. *)
Definition tol_2_60 : Q := 1 # 1152921504606846976.

(** C7 as stated fails. Trials [1, 5, 7, 11] from the centroids [1, 5],
    [max_iter = 3], tolerance [2^-60]. The first pass changes no label: the
    fraction of unchanged labels is [1], which exceeds [1 - tol]. The float
    of [1 - tol] is [1.0], which the fraction does not exceed: the loop goes
    on and comes back after pass [4], when the pass count exceeds
    [max_iter]. *)
Lemma C7_loop_runs_past_an_unchanged_labelling :
  exists s1 st,
    KmeansEngine.lloyd_iter Scalar.MDM_fit Scalar.MDM_predict_distances
                            Scalar.X4 1 start15 = Ok s1 /\
    KmeansEngine.l_labels s1 = KmeansEngine.l_labels start15 /\
    KmeansEngine.exit_condition_exact 3 tol_2_60 1
      (KmeansEngine.l_labels start15) (KmeansEngine.l_labels s1) /\
    Binary64.round (1 - Binary64.round tol_2_60) = 1%Q /\
    loop15 3 tol_2_60 = Some (Ok (4, st)).
Proof.
  eexists _, _. split; [ vm_compute; reflexivity | ].
  split; [ vm_compute; reflexivity | ].
  split; [ right; split; [ discriminate | vm_compute; reflexivity ] | ].
  split; vm_compute; reflexivity.
Qed.

Lemma C7_lloyd_loop_terminates_at_first_exit_condition_witness :
  (exists r, loop15 3 tol_2_60 = Some r) /\
  exists k st trace,
    loop15 3 tol_2_60 = Some (Ok (k, st)) /\
    1 <= k /\ length trace = k /\ last trace start15 = st /\
    KmeansEngine.run_trace Scalar.MDM_fit Scalar.MDM_predict_distances
                           Scalar.X4 3 tol_2_60 0 start15 trace.
Proof.
  destruct (@KmeansEngine.C7_lloyd_loop_terminates_at_first_exit_condition
              Q Scalar.MDM_fit Scalar.MDM_predict_distances
              Scalar.X4 3%Z tol_2_60 start15) as [Hret Hrun].
  split; [ exact Hret | ].
  assert (E : exists k st, loop15 3 tol_2_60 = Some (Ok (k, st)))
    by (eexists _, _; vm_compute; reflexivity).
  destruct E as (k & st & E).
  destruct (Hrun _ k st E) as (trace & H).
  exists k, st, trace. split; [ exact E | exact H ].
Defined.

Lemma lloyd_loop_pass_count_witness :
  exists k st,
    loop15 100 (1 # 10000) = Some (Ok (k, st)) /\
    1 <= k /\ (Z.of_nat k <= Z.max 1 (100 + 1))%Z.
Proof.
  eexists _, _. split; [ vm_compute; reflexivity | ].
  eapply (@KmeansEngine.lloyd_loop_pass_count
            Q Scalar.MDM_fit Scalar.MDM_predict_distances
            (S (Z.to_nat 100)) Scalar.X4 100%Z (1 # 10000)%Q start15).
  vm_compute. reflexivity.
Defined.

Lemma lloyd_loop_without_tolerance_runs_all_passes_witness :
  (0 <= 0)%Q /\
  exists k st,
    loop15 3 0 = Some (Ok (k, st)) /\
    Z.of_nat k = Z.max 1 (3 + 1).
Proof.
  split; [ apply Qle_refl | ].
  eexists _, _. split; [ vm_compute; reflexivity | ].
  eapply (@KmeansEngine.lloyd_loop_without_tolerance_runs_all_passes
            Q Scalar.MDM_fit Scalar.MDM_predict_distances
            (S (Z.to_nat 3)) Scalar.X4 3%Z 0%Q start15).
  - apply Qle_refl.
  - vm_compute. reflexivity.
Defined.

Lemma fit_labels_are_classes_of_the_stored_model_witness :
  exists km' w',
    kmeans_fit (Scalar.kmeans 2 2) Scalar.world0 = (Some (Ok km'), w') /\
    exists ls m,
      KmeansEngine.labels km' = Some ls /\ KmeansEngine.mdm km' = Some m /\
      length ls = length (Scalar.MDM_predict_distances m Scalar.X4) /\
      Forall (fun l => In l (KmeansEngine.classes m)) ls.
Proof.
  eexists _, _. split; [ vm_compute; reflexivity | ].
  eapply (@KmeansEngine.fit_labels_are_classes_of_the_stored_model
            Q Z Scalar.RandomState Scalar.randint Scalar.init_centroids Qabs
            Scalar.MDM_fit Scalar.MDM_predict_distances Scalar.MDM_predict
            (Scalar.kmeans 2 2) _ Scalar.X4 None Scalar.world0).
  vm_compute. reflexivity.
Defined.

Lemma scalar_distances_nonnegative (m : KmeansEngine.MDM Q) (X : list Q)
      (row : list Q) (d : Q) :
  In row (Scalar.MDM_predict_distances m X) -> In d row -> (0 <= d)%Q.
Proof.
  unfold Scalar.MDM_predict_distances. intros Hrow Hd.
  apply in_map_iff in Hrow. destruct Hrow as (x & <- & _).
  apply in_map_iff in Hd. destruct Hd as (c & <- & _).
  unfold Scalar.Qdist. rewrite Qred_correct. apply Qabs_nonneg.
Qed.

Lemma fit_inertia_nonnegative_witness :
  exists km' w',
    kmeans_fit (Scalar.kmeans 2 1) Scalar.world0 = (Some (Ok km'), w') /\
    exists i, KmeansEngine.inertia km' = Some i /\ (0 <= i)%Q.
Proof.
  eexists _, _. split; [ vm_compute; reflexivity | ].
  eapply (@KmeansEngine.fit_inertia_nonnegative
            Q Z Scalar.RandomState Scalar.randint Scalar.init_centroids Qabs
            Scalar.MDM_fit Scalar.MDM_predict_distances Scalar.MDM_predict
            (Scalar.kmeans 2 1) _ Scalar.X4 None Scalar.world0).
  - intros m row d. apply scalar_distances_nonnegative.
  - vm_compute. reflexivity.
Defined.


Lemma fit_without_restart_raises_witness :
  is_random (KmeansEngine.init (Scalar.kmeans 0 1)) = true /\
  (KmeansEngine.n_init (Scalar.kmeans 0 1) <= 0)%Z /\
  KmeansEngine.n_jobs (Scalar.kmeans 0 1) = 1%Z /\
  Scalar.randint KmeansEngine.int32_max 0 (Scalar.RandomState 0) = (Ok [], 0%Z) /\
  fst (kmeans_fit (Scalar.kmeans 0 1) Scalar.world0)
  = Some (Err (ValueError "need more than 0 values to unpack")).
Proof.
  split; [ reflexivity | ]. split; [ cbn; lia | ].
  split; [ reflexivity | ]. split; [ reflexivity | ].
  apply (@KmeansEngine.fit_without_restart_raises
           Q Z Scalar.RandomState Scalar.randint Scalar.init_centroids Qabs
           Scalar.MDM_fit Scalar.MDM_predict_distances Scalar.MDM_predict
           (Scalar.kmeans 0 1) Scalar.X4 None Scalar.world0 [] 0%Z).
  - reflexivity.
  - cbn. lia.
  - reflexivity.
  - reflexivity.
Defined.

Lemma accessors_need_a_fitted_instance_witness :
  exists km' w',
    kmeans_fit (KmeansEngine.Kmeans_init 2 100 (Some 0%Z) init_random 2 1 (1 # 10000))
               Scalar.world0 = (Some (Ok km'), w') /\
    exists m,
      KmeansEngine.mdm km' = Some m /\
      KmeansEngine.centroids km' = Ok (KmeansEngine.covmeans m) /\
      KmeansEngine.predict Scalar.MDM_predict km' Scalar.X4
        = Ok (Scalar.MDM_predict m Scalar.X4) /\
      KmeansEngine.transform Scalar.MDM_predict_distances km' Scalar.X4
        = Ok (Scalar.MDM_predict_distances m Scalar.X4) /\
      KmeansEngine.n_clusters km' = 2%Z /\ KmeansEngine.max_iter km' = 100%Z /\
      KmeansEngine.seed km' = Some 0%Z /\ KmeansEngine.init km' = init_random /\
      KmeansEngine.n_init km' = 2%Z /\ KmeansEngine.n_jobs km' = 1%Z /\
      KmeansEngine.tol km' = (1 # 10000)%Q.
Proof.
  eexists _, _. split; [ vm_compute; reflexivity | ].
  eapply (proj2 (@KmeansEngine.accessors_need_a_fitted_instance
                   Q Z Scalar.RandomState Scalar.randint Scalar.init_centroids Qabs
                   Scalar.MDM_fit Scalar.MDM_predict_distances Scalar.MDM_predict
                   Scalar.MDM_predict_distances
                   2%Z 100%Z (Some 0%Z) init_random 2%Z 1%Z (1 # 10000)%Q
                   Scalar.X4 Scalar.X4 None Scalar.world0 _ _)).
  vm_compute. reflexivity.
Defined.

Lemma fit_sequential_stores_last_run_witness :
  exists self' w',
    kmeans_fit (Scalar.kmeans 2 1) Scalar.world0 = (Some (Ok self'), w') /\
    exists s r,
      nth_error [0; 1]%Z 1 = Some s /\
      kmeans_restart (Scalar.kmeans 2 1) s Scalar.world0 = Some (Ok r) /\
      self' = KmeansEngine.store (Scalar.kmeans 2 1) r.
Proof.
  eexists _, _. split; [ vm_compute; reflexivity | ].
  eapply (@KmeansEngine.fit_sequential_stores_last_run
            Q Z Scalar.RandomState Scalar.randint Scalar.init_centroids Qabs
            Scalar.MDM_fit Scalar.MDM_predict_distances Scalar.MDM_predict
            (Scalar.kmeans 2 1) Scalar.X4 None Scalar.world0 [0; 1]%Z 2%Z 0).
  - reflexivity.
  - reflexivity.
  - reflexivity.
  - reflexivity.
  - vm_compute. reflexivity.
Defined.

Lemma fit_parallel_stores_best_run_witness :
  exists self' w',
    kmeans_fit (Scalar.kmeans 2 2) Scalar.world0 = (Some (Ok self'), w') /\
    exists rs r,
      Forall2 (fun s r => kmeans_restart (Scalar.kmeans 2 2) s Scalar.world0
                          = Some (Ok r)) [0; 1]%Z rs /\
      In r rs /\
      self' = KmeansEngine.store (Scalar.kmeans 2 2) r /\
      forall r', In r' rs -> (snd (fst r) <= snd (fst r'))%Q.
Proof.
  eexists _, _. split; [ vm_compute; reflexivity | ].
  eapply (@KmeansEngine.fit_parallel_stores_best_run
            Q Z Scalar.RandomState Scalar.randint Scalar.init_centroids Qabs
            Scalar.MDM_fit Scalar.MDM_predict_distances Scalar.MDM_predict
            (Scalar.kmeans 2 2) Scalar.X4 None Scalar.world0 [0; 1]%Z 2%Z).
  - reflexivity.
  - discriminate.
  - discriminate.
  - reflexivity.
  - vm_compute. reflexivity.
Defined.


Lemma fit_ends_in_a_round_state_witness :
  exists s' yo',
    Scalar.potato_fit_run (Scalar.potato 3 1) Scalar.X2 None = Ok (s', yo') /\
    exists k y',
      yo' = Some y' /\
      k <= Z.to_nat (PotatoEstimator.n_iter_max (Scalar.potato 3 1)) /\
      Scalar.potato_round_state k (Scalar.fitted0 3 1) Scalar.X2 = Ok (s', y').
Proof.
  eexists _, _. split; [ vm_compute; reflexivity | ].
  eapply (@PotatoEstimator.fit_ends_in_a_round_state
            Q (list Q) [] Scalar.potato_MDM_fit Scalar.potato_MDM_transform
            Scalar.log_table Scalar.sqrt_approx (Scalar.potato 3 1) _ Scalar.X2).
  vm_compute. reflexivity.
Defined.

Lemma potato_round_completes_witness :
  length (ones 5) = length Scalar.X5 /\
  PotatoEstimator._mdm (Scalar.fitted0 1 100) = Some [] /\
  Scalar.potato_MDM_fit [] (mask_select Scalar.X5 (ones 5))
                        (mask_select (ones 5) (ones 5)) = Ok [22%Q] /\
  Scalar.potato_MDM_transform [22%Q] (mask_select Scalar.X5 (ones 5))
    = Ok [Fin 21; Fin 20; Fin 19; Fin 20; Fin 80] /\
  exists self',
    PotatoEstimator.potato_round Scalar.potato_MDM_fit Scalar.potato_MDM_transform
      Scalar.log_table Scalar.sqrt_approx (Scalar.fitted0 1 100) Scalar.X5
      (Some (ones 5)) = Ok (self', [true; true; true; true; false]).
Proof.
  split; [ reflexivity | ]. split; [ reflexivity | ].
  split; [ vm_compute; reflexivity | ]. split; [ vm_compute; reflexivity | ].
  eexists.
  etransitivity.
  - apply (@PotatoEstimator.potato_round_completes
             Q (list Q) Scalar.potato_MDM_fit Scalar.potato_MDM_transform
             Scalar.log_table Scalar.sqrt_approx
             (Scalar.fitted0 1 100) Scalar.X5 (ones 5) [] [22%Q]
             [Fin 21; Fin 20; Fin 19; Fin 20; Fin 80]).
    + reflexivity.
    + reflexivity.
    + vm_compute. reflexivity.
    + vm_compute. reflexivity.
    + reflexivity.
  - vm_compute. reflexivity.
Defined.

Lemma scalar_transform_one_distance_per_trial (m : list Q) (Xa : list Q)
      (ds : list fval) :
  Scalar.potato_MDM_transform m Xa = Ok ds -> length ds = length Xa.
Proof.
  unfold Scalar.potato_MDM_transform. destruct m; [ discriminate | ].
  intros H. inversion H. apply length_map.
Qed.

Lemma predict_agrees_with_the_last_round_witness :
  exists self',
    PotatoEstimator.potato_round Scalar.potato_MDM_fit Scalar.potato_MDM_transform
      Scalar.log_table Scalar.sqrt_approx (Scalar.fitted0 1 100) Scalar.X5
      (Some (ones 5)) = Ok (self', [true; true; true; true; false]) /\
    PotatoEstimator.predict Scalar.potato_MDM_transform Scalar.log_table
      self' (mask_select Scalar.X5 (ones 5))
    = Ok (mask_select [true; true; true; true; false] (ones 5)).
Proof.
  eexists. split; [ vm_compute; reflexivity | ].
  eapply (proj1 (@PotatoEstimator.predict_agrees_with_the_last_round
                   Q (list Q) Scalar.potato_MDM_fit Scalar.potato_MDM_transform
                   Scalar.log_table Scalar.sqrt_approx
                   (Scalar.fitted0 1 100) _ Scalar.X5 (ones 5)
                   [true; true; true; true; false]
                   scalar_transform_one_distance_per_trial _)).
  Unshelve. vm_compute. reflexivity.
Defined.

Lemma zero_rounds_leave_the_potato_unfitted_witness :
  (PotatoEstimator.n_iter_max (Scalar.potato 3 0) <= 0)%Z /\
  PotatoEstimator._mean (Scalar.potato 3 0) = None /\
  exists s',
    Scalar.potato_fit (Scalar.potato 3 0) Scalar.X2 None = Ok s' /\
    forall X',
      is_ok (PotatoEstimator.transform Scalar.potato_MDM_transform
               Scalar.log_table s' X') = false /\
      is_ok (PotatoEstimator.predict Scalar.potato_MDM_transform
               Scalar.log_table s' X') = false.
Proof.
  split; [ cbn; lia | ]. split; [ reflexivity | ].
  apply (@PotatoEstimator.zero_rounds_leave_the_potato_unfitted
           Q (list Q) [] Scalar.potato_MDM_fit Scalar.potato_MDM_transform
           Scalar.log_table Scalar.sqrt_approx (Scalar.potato 3 0) Scalar.X2 None).
  - cbn. lia.
  - reflexivity.
Defined.

End Clustering.

(* ================================================================== *)
(** * Successive calls of [fit] on one instance *)

Module FitCalls.

Import ChannelSelection Clustering.

(** C5 (defect of both classes). Two calls of [fit] on one instance, with
    the same data. The channel selector (three channels, two kept) logs
    one distance per call, and after the second call its log holds both:
    the entry of the first call and the entry of the second. The per-class
    transform (two classes of two trials, two clusters each) computes four
    centroids per call, and after the second call its centroid list holds
    eight: the four of the first call followed by the four of the second. *)
Theorem C5_second_fit_keeps_entries_of_the_first :
  (exists s1 s2,
      Euclid.fit2 (ChannelSelection.init 2) = Some (Ok s1) /\
      ChannelSelection.dist s1 = [3%Q] /\
      Euclid.fit2 s1 = Some (Ok s2) /\
      ChannelSelection.dist s2 = [3%Q; 3%Q])
  /\
  (exists p1 p2,
      Scalar.per_class_fit (KmeansEngine.per_class_init (Scalar.kmeans 1 1))
                           Scalar.y4 Scalar.world0 = Some (Ok p1) /\
      KmeansEngine.pc_covmeans p1 = [1; 5; 7; 11]%Q /\
      Scalar.per_class_fit p1 Scalar.y4 Scalar.world0 = Some (Ok p2) /\
      KmeansEngine.pc_covmeans p2 = [1; 5; 7; 11; 1; 5; 7; 11]%Q).
Proof.
  split.
  - eexists _, _. split; [ vm_compute; reflexivity | ].
    split; [ reflexivity | ].
    split; [ vm_compute; reflexivity | reflexivity ].
  - eexists _, _. split; [ vm_compute; reflexivity | ].
    split; [ reflexivity | ].
    split; [ vm_compute; reflexivity | reflexivity ].
Qed.

End FitCalls.
